(** * FamilySearch SDK: the FamilySearch-to-GEDCOM converter

    A shallow embedding of [utils/gedcom-converter.ts] (the converter that
    carries source records, orphan filtering and the connectivity resolver)
    and the properties of its specification.

    Conventions of the embedding
    - a JavaScript string is a [string] of the Standard Library (a sequence
      of character codes); [===] on strings is [String.eqb];
    - an optional field [f?: T] is [option T]; a value is "truthy" when it is
      present and, for a string, not empty;
    - a [Map<string, V>] is an association list in insertion order
      ([Map.prototype.set] on a key that is present keeps its position), a
      [Set<string>] is a list in insertion order;
    - [forEach] with a closure that mutates local state is a [fold_left]
      over that state;
    - [new Date()] is an argument of the conversion;
    - a field declared [unknown] is a [JsValue], a parsed JSON document;
      a method called on a value that has none stops the call with a
      [TypeError]. *)

From Stdlib Require Import List Arith Lia Bool ZArith.
From Stdlib Require Import Strings.String Strings.Ascii.
From Stdlib Require Import Numbers.DecimalString Numbers.DecimalNat.
Import ListNotations.

Open Scope string_scope.
Open Scope bool_scope.

(* ================================================================= *)
(** ** JavaScript string primitives *)

Module Js.

(** [s.startsWith(p)] *)
Fixpoint startsWith (s p : string) {struct p} : bool :=
  match p with
  | EmptyString => true
  | String b p' =>
      match s with
      | EmptyString => false
      | String a s' => Ascii.eqb a b && startsWith s' p'
      end
  end.

(** [s.includes(needle)] *)
Fixpoint includes (s needle : string) : bool :=
  startsWith s needle ||
  match s with
  | EmptyString => false
  | String _ s' => includes s' needle
  end.

(** The longest prefix of [s] whose characters satisfy [f], and what follows
    it: a greedy character class [[...]*] of a regular expression. *)
Fixpoint takeWhile (f : ascii -> bool) (s : string) : string :=
  match s with
  | EmptyString => EmptyString
  | String c s' => if f c then String c (takeWhile f s') else EmptyString
  end.

Fixpoint dropWhile (f : ascii -> bool) (s : string) : string :=
  match s with
  | EmptyString => EmptyString
  | String c s' => if f c then dropWhile f s' else s
  end.

(** [s.slice(n)] *)
Fixpoint drop (n : nat) (s : string) : string :=
  match n, s with
  | O, _ => s
  | S _, EmptyString => EmptyString
  | S n', String _ s' => drop n' s'
  end.

Definition isEmpty (s : string) : bool :=
  match s with EmptyString => true | _ => false end.

(** Truthiness of an optional string: present and not empty. *)
Definition truthy (o : option string) : bool :=
  match o with
  | Some s => negb (isEmpty s)
  | None => false
  end.

(** [a || b] on optional strings. *)
Definition or (a b : option string) : option string :=
  if truthy a then a else b.

(** [a || d] where [d] is a string literal. *)
Definition orDefault (a : option string) (d : string) : string :=
  match a with
  | Some s => if isEmpty s then d else s
  | None => d
  end.

(** Does the character [c] occur in [s]? *)
Fixpoint hasChar (c : ascii) (s : string) : bool :=
  match s with
  | EmptyString => false
  | String a s' => Ascii.eqb a c || hasChar c s'
  end.

Fixpoint allChars (f : ascii -> bool) (s : string) : bool :=
  match s with
  | EmptyString => true
  | String a s' => f a && allChars f s'
  end.

Fixpoint lastChar (s : string) : option ascii :=
  match s with
  | EmptyString => None
  | String a EmptyString => Some a
  | String _ s' => lastChar s'
  end.

(** No suffix of [p] starts with [n] or is the beginning of [n]: a match of
    [n] in [p ++ s] starts inside [s]. *)
Fixpoint clearOf (n p : string) : bool :=
  match p with
  | EmptyString => true
  | String _ p' =>
      negb (startsWith p n) && negb (startsWith n p) && clearOf n p'
  end.

(** [`${n}`] for a non-negative integer. *)
Definition ofNat (n : nat) : string :=
  NilEmpty.string_of_uint (Nat.to_uint n).

(** [`${z}`] for an integer. *)
Definition ofZ (z : Z) : string :=
  match z with
  | Z0 => "0"
  | Zpos p => ofNat (Pos.to_nat p)
  | Zneg p => "-" ++ ofNat (Pos.to_nat p)
  end.

(** [[a, b].sort()]: the default sort compares strings by character code. *)
Definition sort2 (a b : string) : string * string :=
  if String.ltb b a then (b, a) else (a, b).

(** [[a, b].sort().join("-")] *)
Definition sortJoin (a b : string) : string :=
  let '(x, y) := sort2 a b in x ++ "-" ++ y.

(** [lines.join("\n")] *)
Definition newline : string := String (ascii_of_nat 10) EmptyString.

Definition join (sep : string) (ls : list string) : string :=
  String.concat sep ls.

(** [s.replace(/^(-|\+)/, "")] *)
Definition stripSign (s : string) : string :=
  match s with
  | String c s' => if Ascii.eqb c "-" || Ascii.eqb c "+" then s' else s
  | EmptyString => s
  end.

(** [s.replace(/\n/g, " ")] *)
Fixpoint replaceNewlines (s : string) : string :=
  match s with
  | EmptyString => EmptyString
  | String c s' =>
      String (if Ascii.eqb c (ascii_of_nat 10) then " "%char else c)
             (replaceNewlines s')
  end.

(** White space removed by [trim], on the character codes below 128. *)
Definition isSpace (c : ascii) : bool :=
  let n := nat_of_ascii c in
  Nat.eqb n 32 || (Nat.leb 9 n && Nat.leb n 13).

(** [s.trim()] for a string whose last character is not white space: only
    the leading white space goes. *)
Definition trimStart (s : string) : string := dropWhile isSpace s.

End Js.

(* ================================================================= *)
(** ** URL rewriting *)

(** The character class [[^/?]]. *)
Definition notSlashQuery (c : ascii) : bool :=
  negb (Ascii.eqb c "/") && negb (Ascii.eqb c "?").

(** [/persons\/([^/?]+)/] anchored at the start of [s]: the captured group. *)
Definition personIdAt (s : string) : option string :=
  if Js.startsWith s "persons/" then
    let id := Js.takeWhile notSlashQuery (Js.drop 8 s) in
    if Js.isEmpty id then None else Some id
  else None.

(** [url.match(/persons\/([^/?]+)/)?.[1]]: the leftmost match. *)
Fixpoint matchPersonId (s : string) : option string :=
  match personIdAt s with
  | Some id => Some id
  | None =>
      match s with
      | EmptyString => None
      | String _ s' => matchPersonId s'
      end
  end.

(** [/ark:\/[^/?]+\/[^/?]+/] anchored at the start of [s]: the matched
    text.  The first class is greedy and must be followed by a slash, so it
    takes the whole run; the second takes the whole run too. *)
Definition arkAt (s : string) : option string :=
  if Js.startsWith s "ark:/" then
    let rest := Js.drop 5 s in
    let naan := Js.takeWhile notSlashQuery rest in
    if Js.isEmpty naan then None
    else
      match Js.dropWhile notSlashQuery rest with
      | String c rest' =>
          if Ascii.eqb c "/" then
            let name := Js.takeWhile notSlashQuery rest' in
            if Js.isEmpty name then None
            else Some ("ark:/" ++ naan ++ "/" ++ name)
          else None
      | EmptyString => None
      end
  else None.

(** [url.match(/ark:\/[^/?]+\/[^/?]+/)]: the leftmost match, element 0. *)
Fixpoint matchArk (s : string) : option string :=
  match arkAt s with
  | Some m => Some m
  | None =>
      match s with
      | EmptyString => None
      | String _ s' => matchArk s'
      end
  end.

(** What the ARK pattern matches. *)
Definition isArk (m : string) : Prop :=
  exists naan name,
    m = "ark:/" ++ naan ++ "/" ++ name
    /\ Js.isEmpty naan = false /\ Js.isEmpty name = false
    /\ Js.allChars notSlashQuery naan = true
    /\ Js.allChars notSlashQuery name = true.

(** The block "Detect environment from the URL", which both rewriting
    functions contain verbatim. *)
Definition detectBaseUrl (url : string) : string :=
  if Js.includes url "integration.familysearch.org"
     || Js.includes url "api-integ.familysearch.org"
  then "https://integration.familysearch.org"
  else if Js.includes url "beta.familysearch.org"
          || Js.includes url "apibeta.familysearch.org"
  then "https://beta.familysearch.org"
  else "https://www.familysearch.org".

Definition transformFamilySearchUrl (url : string) : string :=
  if negb (Js.includes url "/platform/tree/persons/") then url
  else
    match matchPersonId url with
    | None => url
    | Some personId =>
        if Js.isEmpty personId then url
        else detectBaseUrl url ++ "/tree/person/" ++ personId
    end.

Definition transformSourceUrl (url : string) : string :=
  if Js.isEmpty url then url
  else if negb (Js.includes url "/platform/") && Js.includes url "ark:"
  then url
  else
    match matchArk url with
    | None => url
    | Some arkId => detectBaseUrl url ++ "/" ++ arkId
    end.


(* ================================================================= *)
(** ** [Map] and [Set] in insertion order *)

Definition JsMap (V : Type) : Type := list (string * V).
Definition JsSet : Type := list string.

Section Containers.
Context {V : Type}.

(** [m.get(k)] *)
Fixpoint mapGet (m : JsMap V) (k : string) : option V :=
  match m with
  | [] => None
  | (k', v) :: m' => if String.eqb k' k then Some v else mapGet m' k
  end.

(** [m.has(k)] *)
Definition mapHas (m : JsMap V) (k : string) : bool :=
  match mapGet m k with Some _ => true | None => false end.

(** [m.set(k, v)]: a present key keeps its place, a new one goes last. *)
Fixpoint mapSet (m : JsMap V) (k : string) (v : V) : JsMap V :=
  match m with
  | [] => [(k, v)]
  | (k', v') :: m' =>
      if String.eqb k' k then (k, v) :: m' else (k', v') :: mapSet m' k v
  end.

(** [Array.from(m.keys())] *)
Definition mapKeys (m : JsMap V) : list string := map fst m.

(** [arr.findIndex(f)], [None] for -1 *)
Fixpoint findIndex {A : Type} (f : A -> bool) (l : list A) : option nat :=
  match l with
  | [] => None
  | x :: l' =>
      if f x then Some 0
      else match findIndex f l' with Some i => Some (S i) | None => None end
  end.

(** [arr.splice(i, 0, x)] *)
Definition splice {A : Type} (i : nat) (x : A) (l : list A) : list A :=
  app (firstn i l) (x :: skipn i l).
End Containers.

(** Concatenation of arrays, written apart from [++] on strings. *)
Infix "+++" := app (right associativity, at level 60).

(** [arr.push(x)] *)
Definition push {A : Type} (arr : list A) (x : A) : list A :=
  arr +++ [x].

(** [s.has(k)] *)
Definition setHas (s : JsSet) (k : string) : bool :=
  existsb (String.eqb k) s.

(** [s.add(k)] *)
Definition setAdd (s : JsSet) (k : string) : JsSet :=
  if setHas s k then s else push s k.

(** [new Set(arr)] *)
Definition setOfList (arr : list string) : JsSet := fold_left setAdd arr [].

(** [arr.indexOf(k)], [None] for -1 *)
Definition indexOf (arr : list string) (k : string) : option nat :=
  findIndex (String.eqb k) arr.

(* ================================================================= *)
(** ** Data model: the records of [types/index.ts] the converter reads *)

Record PersonDisplay := {
  display_name : option string;
  display_gender : option string;
  birthDate : option string;
  birthPlace : option string;
  deathDate : option string;
  deathPlace : option string }.

Record NamePart := { part_type : option string; part_value : option string }.

Record NameForm := {
  fullText : option string;
  parts : option (list NamePart) }.

Record Name := { nameForms : option (list NameForm) }.

Record FactDate := { formal : option string; date_original : option string }.

Record FactPlace := { place_original : option string }.

Record Link := { href : option string }.

Record FactLinks := {
  conclusion : option Link;
  factlinks_person : option Link }.

Record PersonFact := {
  fact_type : option string;
  fact_date : option FactDate;
  fact_place : option FactPlace;
  fact_value : option string;
  fact_links : option FactLinks }.

Record Gender := { gender_type : option string }.

Record PersonLinks := { links_person : option Link }.

(** Modelled from the spec: [SourceReference] and [SourceDescription] are
    imported from [../types] but not declared in it; their fields are the
    ones the converter reads (a source has identifier, title, citation
    text, web URL and resource-type label, and is referenced from persons
    through a person-to-source-reference list). *)
Record Qualifier := {
  qualifier_name : option string;
  qualifier_value : option string }.

Record SourceReference := {
  descriptionId : option string;
  qualifiers : option (list Qualifier) }.

Record TextValue := { text_value : option string }.

Record SourceDescription := {
  source_id : option string;
  titles : option (list TextValue);
  citations : option (list TextValue);
  about : option string;
  resourceType : option string }.

Record PersonData := {
  person_id : string;
  display : option PersonDisplay;
  names : option (list Name);
  gender : option Gender;
  facts : option (list PersonFact);
  links : option PersonLinks;
  (** [Record<string, string[]>] *)
  identifiers : option (JsMap (list string));
  (** read through the cast [PersonData & { sources?: SourceReference[] }] *)
  sources : option (list SourceReference) }.

Record ResourceInner := { inner_resourceId : option string }.

(** [{ resourceId?: string }], with the nested [resource] that
    [addMarriageFacts] also reads. *)
Record ResourceRef := {
  resourceId : option string;
  resource : option ResourceInner }.

Record DetailPerson := { detail_facts : option (list PersonFact) }.

Record RelationshipDetails := {
  details_facts : option (list PersonFact);
  details_persons : option (list DetailPerson) }.

(** The fields [parent1] and [child] of the interface are never read on a
    [Relationship] and are left out. *)
Record Relationship := {
  rel_id : string;
  rel_type : option string;
  person1 : option ResourceRef;
  person2 : option ResourceRef;
  parent2 : option ResourceRef;
  rel_facts : option (list PersonFact);
  details : option RelationshipDetails }.

(** The composite record, with the fields the converter's cast keeps. *)
Record ChildAndParentsRelationship := {
  cap_id : string;
  cap_parent1 : option ResourceRef;
  cap_parent2 : option ResourceRef;
  cap_child : option ResourceRef }.

Record PersonWithRelationships := {
  details_personList : option (list PersonData);
  details_relationships : option (list Relationship);
  childAndParentsRelationships : option (list ChildAndParentsRelationship);
  sourceDescriptions : option (list SourceDescription) }.

(** The interface declares [notes?: unknown], and the converter reads
    [notes.persons[0].notes[i].text].  The three records below are the
    notes of a person on which every one of these reads succeeds: an
    optional list of note holders, each with an optional list of notes,
    each with an optional text.  A value of another shape (one on which
    [forEach] or [replace] is missing) is no [PersonNotes]: it is a
    [JsValue] of a [ReceivedPerson], further down, where the converter's
    reads are followed on any value and may throw, and [checked] takes a
    received person to the [EnhancedPerson] it stands for. *)
Record Note := { note_text : option string }.
Record NotesPerson := { person_notes : option (list Note) }.
Record PersonNotes := { notes_persons : option (list NotesPerson) }.

(** [EnhancedPerson extends PersonData], the notes at the shape above. *)
Record EnhancedPerson := {
  base : PersonData;
  fullDetails : option PersonWithRelationships;
  notes : option PersonNotes }.

Inductive Environment := Production | Beta | Integration.

(** [persons] and [relationships] are declared as required, and the
    converter guards against their absence: both are optional here. *)
Record EnhancedPedigreeData := {
  persons : option (list EnhancedPerson);
  relationships : option (list Relationship);
  data_environment : option Environment }.

Record GedcomConversionOptions := {
  treeName : option string;
  includeLinks : option bool;
  includeNotes : option bool;
  environment : option Environment;
  allowOrphanFamilies : option bool;
  ancestryPersonIds : option JsSet }.

(** The local-time view of a [Date]. *)
Record JsDate := {
  getFullYear : Z;
  getMonth : nat;
  getDate : nat;
  getHours : nat;
  getMinutes : nat;
  getSeconds : nat;
  getMilliseconds : nat }.

(** A derived family: [{ spouses: Set<string>; children: string[] }]. *)
Record Family := { spouses : JsSet; children : list string }.

(** What a call does: it throws an [Error] with a message of its own, it
    is stopped by a [TypeError] of the engine (a method called on a value
    that has none; the message depends on the engine), or it returns the
    GEDCOM text.  [Diverged] is the resolver's loop running out of the
    iterations the embedding grants it. *)
Inductive Outcome :=
| Threw (message : string)
| ThrewTypeError
| Returned (gedcom : string)
| Diverged.

Definition personId (p : EnhancedPerson) : string := person_id (base p).

(* ================================================================= *)
(** ** Optional chaining *)

(** [a?.f] *)
Definition opt {A B : Type} (a : option A) (f : A -> option B) : option B :=
  match a with
  | Some x => f x
  | None => None
  end.

(** [xs?.[0]] *)
Definition first {A : Type} (xs : option (list A)) : option A :=
  opt xs (@hd_error A).

(** [a === lit] for an optional string [a]. *)
Definition optEqb (a : option string) (lit : string) : bool :=
  match a with
  | Some s => String.eqb s lit
  | None => false
  end.

(** [a?.includes(lit)], [undefined] being falsy. *)
Definition optIncludes (a : option string) (lit : string) : bool :=
  match a with
  | Some s => Js.includes s lit
  | None => false
  end.

(** [xs || []] *)
Definition orEmpty {A : Type} (xs : option (list A)) : list A :=
  match xs with
  | Some l => l
  | None => []
  end.

(* ================================================================= *)
(** ** Name, gender and fact extractors *)

Definition partValue (kind : string) (ps : list NamePart) : string :=
  Js.orDefault
    (opt (find (fun p => optIncludes (part_type p) kind) ps) part_value) "".

Definition extractName (person : option PersonData) : option string :=
  match person with
  | None => None
  | Some person =>
      let structured :=
        match first (opt (first (names person)) nameForms) with
        | Some nameForm =>
            let ps := orEmpty (parts nameForm) in
            let given := partValue "Given" ps in
            let surname := partValue "Surname" ps in
            if negb (Js.isEmpty given) || negb (Js.isEmpty surname)
            then Some (Js.trimStart (given ++ " /" ++ surname ++ "/"))
            else if Js.truthy (fullText nameForm) then fullText nameForm
            else None
        | None => None
        end in
      match structured with
      | Some name => Some name
      | None =>
          let displayName := opt (display person) display_name in
          if Js.truthy displayName then displayName else None
      end
  end.

Definition extractGender (person : option PersonData) : option string :=
  match person with
  | None => None
  | Some person =>
      let type := opt (gender person) gender_type in
      let shown := opt (display person) display_gender in
      if optIncludes type "Male" then Some "M"
      else if optIncludes type "Female" then Some "F"
      else if optEqb shown "Male" then Some "M"
      else if optEqb shown "Female" then Some "F"
      else None
  end.

Inductive FactKind := BIRTH | DEATH.

Record FactSummary := {
  summary_date : option string;
  summary_place : option string }.

(** [fact.date?.formal || fact.date?.original] *)
Definition factDateText (fact : PersonFact) : option string :=
  Js.or (opt (fact_date fact) formal) (opt (fact_date fact) date_original).

Definition extractFact (person : option PersonData) (factType : FactKind)
  : option FactSummary :=
  match person with
  | None => None
  | Some person =>
      let factTypeUrl :=
        "http://gedcomx.org/"
        ++ match factType with BIRTH => "Birth" | DEATH => "Death" end in
      let fact :=
        opt (facts person)
            (find (fun f => optEqb (fact_type f) factTypeUrl)) in
      let date0 :=
        match fact with
        | Some f =>
            if Js.truthy (factDateText f)
            then option_map Js.stripSign (factDateText f)
            else None
        | None => None
        end in
      let place0 :=
        match fact with
        | Some f =>
            let p := opt (fact_place f) place_original in
            if Js.truthy p then p else None
        | None => None
        end in
      let shown := display person in
      let date :=
        match factType with
        | BIRTH => Js.or date0 (opt shown birthDate)
        | DEATH => Js.or date0 (opt shown deathDate)
        end in
      let place :=
        match factType with
        | BIRTH => Js.or place0 (opt shown birthPlace)
        | DEATH => Js.or place0 (opt shown deathPlace)
        end in
      if Js.truthy date || Js.truthy place
      then Some {| summary_date := date; summary_place := place |}
      else None
  end.

Definition months : list string :=
  ["JAN"; "FEB"; "MAR"; "APR"; "MAY"; "JUN";
   "JUL"; "AUG"; "SEP"; "OCT"; "NOV"; "DEC"].

Definition formatDateForGedcom (date : JsDate) : string :=
  Js.ofNat (getDate date) ++ " "
  ++ nth (getMonth date) months "undefined" ++ " "
  ++ Js.ofZ (getFullYear date).

(* ================================================================= *)
(** ** Fact mapper *)

(** The own properties of the [typeMap] object literal. *)
Definition typeMap : JsMap string :=
  [ ("http://gedcomx.org/Burial", "BURI");
    ("http://gedcomx.org/Christening", "CHR");
    ("http://gedcomx.org/Baptism", "BAPM");
    ("http://gedcomx.org/Marriage", "MARR");
    ("http://gedcomx.org/Divorce", "DIV");
    ("http://gedcomx.org/Residence", "RESI");
    ("http://gedcomx.org/Occupation", "OCCU");
    ("http://gedcomx.org/Immigration", "IMMI");
    ("http://gedcomx.org/Emigration", "EMIG");
    ("http://gedcomx.org/Naturalization", "NATU");
    ("http://gedcomx.org/Census", "CENS") ].

(** [cond ? [line] : []]: a conditional [lines.push(line)]. *)
Definition pushIf (cond : bool) (line : string) : list string :=
  if cond then [line] else [].

Definition convertFactToGedcom (fact : PersonFact) : list string :=
  match fact_type fact with
  | None => []
  | Some type =>
      if Js.isEmpty type then []
      else
        let gedcomTag := Js.orDefault (mapGet typeMap type) "EVEN" in
        let value := fact_value fact in
        let link := opt (opt (fact_links fact) conclusion) href in
        let place := opt (fact_place fact) place_original in
        (if String.eqb gedcomTag "OCCU" && Js.truthy value
         then ["1 OCCU " ++ Js.orDefault value ""]
         else ["1 " ++ gedcomTag])
        +++ pushIf (Js.truthy link)
              ("2 _FS_LINK " ++ transformFamilySearchUrl (Js.orDefault link ""))
        +++ pushIf (Js.truthy (factDateText fact))
              ("2 DATE " ++ Js.stripSign (Js.orDefault (factDateText fact) ""))
        +++ pushIf (Js.truthy place) ("2 PLAC " ++ Js.orDefault place "")
        +++ pushIf (Js.truthy value && negb (String.eqb gedcomTag "OCCU"))
              ("2 NOTE " ++ Js.orDefault value "")
  end.

(* ================================================================= *)
(** ** The conversion, stage by stage

    [convertToGedcom] is one function that mutates [lines] and a handful of
    maps; each block of it is a definition below, in the order of the
    source.  [console.warn] calls leave no trace in the returned text and
    are dropped. *)

(** *** Header and submitter *)

Definition headerLines (treeName : string) (now : JsDate) : list string :=
  [ "0 HEAD";
    "1 SOUR FamilySearch";
    "2 VERS 1.0";
    "2 NAME FamilySearch API";
    "1 DEST ANY";
    "1 DATE " ++ formatDateForGedcom now;
    "1 SUBM @SUBM1@";
    "1 FILE " ++ treeName;
    "1 GEDC";
    "2 VERS 5.5";
    "2 FORM LINEAGE-LINKED";
    "1 CHAR UTF-8";
    "0 @SUBM1@ SUBM" ].

(** *** Source records *)

Definition addSource (sourceMap : JsMap SourceDescription)
  (source : SourceDescription) : JsMap SourceDescription :=
  match source_id source with
  | Some id =>
      if negb (Js.isEmpty id) && negb (mapHas sourceMap id)
      then mapSet sourceMap id source
      else sourceMap
  | None => sourceMap
  end.

Definition collectSources (people : list EnhancedPerson)
  : JsMap SourceDescription :=
  fold_left
    (fun sourceMap person =>
       match opt (fullDetails person) sourceDescriptions with
       | Some descriptions => fold_left addSource descriptions sourceMap
       | None => sourceMap
       end)
    people [].

Definition sourceHeader (n : nat) : string := "0 @S" ++ Js.ofNat n ++ "@ SOUR".

Definition sourceBody (source : SourceDescription) : list string :=
  let title :=
    Js.orDefault (opt (first (titles source)) text_value)
                 "FamilySearch Source" in
  let citation := opt (first (citations source)) text_value in
  ["1 TITL " ++ title]
  +++ pushIf (Js.truthy citation) ("1 TEXT " ++ Js.orDefault citation "")
  +++ pushIf (Js.truthy (about source))
        ("1 WWW " ++ transformSourceUrl (Js.orDefault (about source) ""))
  +++ pushIf (Js.truthy (resourceType source))
        ("1 NOTE Resource Type: " ++ Js.orDefault (resourceType source) "").

(** [sourceMap.forEach], the state being [lines] and [sourceCounter]. *)
Definition emitSources (sourceMap : JsMap SourceDescription)
  (lines : list string) : list string * nat :=
  fold_left
    (fun '(lines, sourceCounter) '(_, source) =>
       (lines +++ sourceHeader sourceCounter :: sourceBody source,
        S sourceCounter))
    sourceMap (lines, 1).

(** *** Step 1: person identifiers *)

Definition personGedcomId (index : nat) : string :=
  "@I" ++ Js.ofNat (index + 1) ++ "@".

(** [persons.forEach((person, index) => personIdMap.set(...))] *)
Definition buildPersonIdMap (people : list EnhancedPerson) : JsMap string :=
  fst (fold_left
         (fun '(personIdMap, index) person =>
            (mapSet personIdMap (personId person) (personGedcomId index),
             S index))
         people ([], 0)).

(** *** Relationship aggregator *)

(** [if (!allRelationships.some((r) => r.id === rel.id)) push(rel)] *)
Definition pushIfNew (allRelationships : list Relationship)
  (rel : Relationship) : list Relationship :=
  if existsb (fun r => String.eqb (rel_id r) (rel_id rel)) allRelationships
  then allRelationships
  else push allRelationships rel.

Definition parentChildType : string := "http://gedcomx.org/ParentChild".

(** [{ resourceId: ref.resourceId }] *)
Definition copyRef (ref : ResourceRef) : ResourceRef :=
  {| resourceId := resourceId ref; resource := None |}.

Definition capEdge (suffix : string) (capRel : ChildAndParentsRelationship)
  (parent child : ResourceRef) (other : option ResourceRef) : Relationship :=
  {| rel_id := cap_id capRel ++ suffix;
     rel_type := Some parentChildType;
     person1 := Some (copyRef parent);
     person2 := Some (copyRef child);
     parent2 := option_map copyRef other;
     rel_facts := None;
     details := None |}.

Definition addComposite (allRelationships : list Relationship)
  (capRel : ChildAndParentsRelationship) : list Relationship :=
  let afterP1 :=
    match cap_parent1 capRel, cap_child capRel with
    | Some p1, Some c =>
        pushIfNew allRelationships
                  (capEdge "-p1" capRel p1 c (cap_parent2 capRel))
    | _, _ => allRelationships
    end in
  match cap_parent2 capRel, cap_child capRel with
  | Some p2, Some c =>
      pushIfNew afterP1 (capEdge "-p2" capRel p2 c (cap_parent1 capRel))
  | _, _ => afterP1
  end.

Definition addPersonRelationships (allRelationships : list Relationship)
  (person : EnhancedPerson) : list Relationship :=
  let own := orEmpty (opt (fullDetails person) details_relationships) in
  let composite :=
    orEmpty (opt (fullDetails person) childAndParentsRelationships) in
  fold_left addComposite composite (fold_left pushIfNew own allRelationships).

Definition collectRelationships (data : EnhancedPedigreeData)
  (people : list EnhancedPerson) : list Relationship :=
  fold_left addPersonRelationships people (orEmpty (relationships data)).

(** *** Family graph builder *)

Definition refId (ref : option ResourceRef) : option string :=
  opt ref resourceId.

(** [validParents.forEach((p) => { if (!parents.includes(p)) push(p) })] *)
Definition addParents (parents validParents : list string) : list string :=
  fold_left setAdd validParents parents.

Definition processRelationship (validPersonIds : JsSet)
  (st : JsMap Family * JsMap (list string)) (rel : Relationship)
  : JsMap Family * JsMap (list string) :=
  let '(families, childToParents) := st in
  if optIncludes (rel_type rel) "ParentChild" then
    match refId (person1 rel), refId (person2 rel) with
    | Some parentId, Some childId =>
        if Js.isEmpty parentId || Js.isEmpty childId then st
        else if negb (setHas validPersonIds childId) then st
        else
          let validParents :=
            (if setHas validPersonIds parentId then [parentId] else [])
            +++ (if Js.truthy (refId (parent2 rel))
                    && setHas validPersonIds
                         (Js.orDefault (refId (parent2 rel)) "")
                 then [Js.orDefault (refId (parent2 rel)) ""] else []) in
          if Nat.ltb 0 (List.length validParents) then
            let parents := orEmpty (mapGet childToParents childId) in
            (families,
             mapSet childToParents childId (addParents parents validParents))
          else st
    | _, _ => st
    end
  else if optIncludes (rel_type rel) "Couple" then
    match refId (person1 rel), refId (person2 rel) with
    | Some p1, Some p2 =>
        if Js.isEmpty p1 || Js.isEmpty p2 then st
        else if setHas validPersonIds p1 && setHas validPersonIds p2 then
          let famKey := Js.sortJoin p1 p2 in
          if negb (mapHas families famKey)
          then (mapSet families famKey
                  {| spouses := setOfList [p1; p2]; children := [] |},
                childToParents)
          else st
        else st
    | _, _ => st
    end
  else st.

(** [families.get(famKey)!.children.push(childId)], after the family was
    created on demand with the given spouses. *)
Definition attachTo (families : JsMap Family) (famKey : string)
  (spousesIfNew : JsSet) (childId : string) : JsMap Family :=
  let family :=
    match mapGet families famKey with
    | Some f => f
    | None => {| spouses := spousesIfNew; children := [] |}
    end in
  mapSet families famKey
         {| spouses := spouses family;
            children := push (children family) childId |}.

(** The body of "Add children to their families". *)
Definition attachChild (families : JsMap Family)
  (entry : string * list string) : JsMap Family :=
  let '(childId, parents) := entry in
  match parents with
  | a :: b :: _ =>
      attachTo families (Js.sortJoin a b) (setOfList [a; b]) childId
  | [a] => attachTo families ("single-" ++ a) (setOfList [a]) childId
  | [] => families
  end.

Definition buildFamilies (validPersonIds : JsSet)
  (allRelationships : list Relationship)
  : JsMap Family * JsMap (list string) :=
  let '(families, childToParents) :=
    fold_left (processRelationship validPersonIds) allRelationships ([], [])
  in
  (fold_left attachChild childToParents families, childToParents).

(** *** Connectivity resolver *)

(** [ids.some((id) => connectablePersons.has(id))] *)
Definition anyIn (connectable : JsSet) (ids : list string) : bool :=
  existsb (setHas connectable) ids.

(** Step 1: add all ancestry persons. *)
Definition addSeeds (seeds : JsSet) : JsSet := fold_left setAdd seeds [].

(** Step 2: add spouses of ancestry persons. *)
Definition addAncestrySpouses (families : JsMap Family) (connectable : JsSet)
  : JsSet :=
  fold_left
    (fun connectable '(_, family) =>
       if anyIn connectable (spouses family)
       then fold_left setAdd (spouses family) connectable
       else connectable)
    families connectable.

(** [if (!connectablePersons.has(id)) { add(id); addedNewPersons = true }];
    the state is [connectablePersons] with the flag [addedNewPersons]. *)
Definition addIfNew (st : JsSet * bool) (id : string) : JsSet * bool :=
  if negb (setHas (fst st) id) then (setAdd (fst st) id, true) else st.

(** Step 3a: add children of connectable persons. *)
Definition childStep (st : JsSet * bool) (entry : string * list string)
  : JsSet * bool :=
  let '(childId, parents) := entry in
  if anyIn (fst st) parents then addIfNew st childId else st.

Definition addChildren (childToParents : JsMap (list string))
  (st : JsSet * bool) : JsSet * bool :=
  fold_left childStep childToParents st.

(** Step 3b: add spouses of connectable persons. *)
Definition spouseStep (st : JsSet * bool) (entry : string * Family)
  : JsSet * bool :=
  let '(_, family) := entry in
  let hasConnectableSpouse := anyIn (fst st) (spouses family) in
  let hasConnectableChild := anyIn (fst st) (children family) in
  if hasConnectableSpouse || hasConnectableChild
  then fold_left addIfNew (spouses family) st
  else st.

Definition addSpouses (families : JsMap Family) (st : JsSet * bool)
  : JsSet * bool :=
  fold_left spouseStep families st.

(** One run of the body of [while (addedNewPersons)]. *)
Definition resolverPass (families : JsMap Family)
  (childToParents : JsMap (list string)) (connectable : JsSet)
  : JsSet * bool :=
  let beforeSize := List.length connectable in
  let st := addSpouses families
              (addChildren childToParents (connectable, false)) in
  let afterSize := List.length (fst st) in
  (fst st,
   if Nat.ltb beforeSize afterSize
   then negb (Nat.eqb afterSize beforeSize)
   else snd st).

(** [while (addedNewPersons) { ... }], entered with the flag set; [None]
    when [fuel] iterations were not enough. *)
Fixpoint resolverLoop (fuel : nat) (families : JsMap Family)
  (childToParents : JsMap (list string)) (connectable : JsSet)
  : option JsSet :=
  match fuel with
  | O => None
  | S fuel' =>
      let '(connectable', addedNewPersons) :=
        resolverPass families childToParents connectable in
      if addedNewPersons
      then resolverLoop fuel' families childToParents connectable'
      else Some connectable'
  end.

(** The fallback: everyone in a parent-child relationship. *)
Definition legacyConnectable (childToParents : JsMap (list string)) : JsSet :=
  fold_left
    (fun connectable '(childId, parents) =>
       fold_left setAdd parents (setAdd connectable childId))
    childToParents [].

(** Every identifier the loop can add: the children of [childToParents]
    and the spouses of [families]. *)
Definition resolverUniverse (families : JsMap Family)
  (childToParents : JsMap (list string)) : list string :=
  map fst childToParents +++ flat_map (fun e => spouses (snd e)) families.

(** The number of iterations granted to the loop. *)
Definition resolverFuel (families : JsMap Family)
  (childToParents : JsMap (list string)) : nat :=
  S (List.length (resolverUniverse families childToParents)).

(** The seeded branch of the resolver. *)
Definition resolveFrom (seeds : JsSet) (families : JsMap Family)
  (childToParents : JsMap (list string)) : option JsSet :=
  resolverLoop (resolverFuel families childToParents) families childToParents
               (addAncestrySpouses families (addSeeds seeds)).

Definition connectablePersons (seeds : option JsSet)
  (families : JsMap Family) (childToParents : JsMap (list string))
  : option JsSet :=
  match seeds with
  | Some ids =>
      if Nat.ltb 0 (List.length ids)
      then resolveFrom ids families childToParents
      else Some (legacyConnectable childToParents)
  | None => Some (legacyConnectable childToParents)
  end.

(** *** Step 4: orphan families and the person-to-family index *)

Definition isOrphanFamily (connectable : JsSet) (family : Family) : bool :=
  negb (anyIn connectable (spouses family)
        || anyIn connectable (children family)).

Definition addFamKey (key : string) (personToFamKeys : JsMap JsSet)
  (id : string) : JsMap JsSet :=
  mapSet personToFamKeys id
         (setAdd (orEmpty (mapGet personToFamKeys id)) key).

Definition indexFamilies (connectable : JsSet) (families : JsMap Family)
  : JsSet * JsMap JsSet :=
  fold_left
    (fun '(orphanFamKeys, personToFamKeys) '(key, family) =>
       (if isOrphanFamily connectable family
        then setAdd orphanFamKeys key else orphanFamKeys,
        fold_left (addFamKey key) (children family)
          (fold_left (addFamKey key) (spouses family) personToFamKeys)))
    families ([], []).

(** *** Marriage facts *)

(** [r.p?.resourceId || r.p?.resource?.resourceId] *)
Definition endpoint (ref : option ResourceRef) : option string :=
  Js.or (opt ref resourceId) (opt (opt ref resource) inner_resourceId).

Definition isMarriage (f : PersonFact) : bool :=
  optIncludes (fact_type f) "Marriage".

Definition matchesCouple (relKey : string) (r : Relationship) : bool :=
  let a := endpoint (person1 r) in
  let b := endpoint (person2 r) in
  if negb (Js.truthy a) || negb (Js.truthy b) then false
  else String.eqb (Js.sortJoin (Js.orDefault a "") (Js.orDefault b "")) relKey.

(** The lines [addMarriageFacts] pushes. *)
Definition addMarriageFacts (allRelationships : list Relationship)
  (spouse1 spouse2 : string) : list string :=
  match find (matchesCouple (Js.sortJoin spouse1 spouse2)) allRelationships with
  | None => []
  | Some rel =>
      let marriageFacts :=
        filter isMarriage (orEmpty (rel_facts rel))
        +++ filter isMarriage (orEmpty (opt (details rel) details_facts))
        +++ flat_map (fun p => filter isMarriage (orEmpty (detail_facts p)))
              (orEmpty (opt (details rel) details_persons)) in
      flat_map convertFactToGedcom marriageFacts
  end.

(** *** Steps 5 and 6: the emitter *)

(** [`${x}`] for a value that may be [undefined]. *)
Definition template (x : option string) : string :=
  match x with
  | Some s => s
  | None => "undefined"
  end.

(** [if (id) lines.push(`${tag}${id}`)] *)
Definition idLine (tag : string) (id : option string) : list string :=
  pushIf (Js.truthy id) (tag ++ Js.orDefault id "").

Definition indiHeader (gedcomId : string) : string :=
  "0 " ++ gedcomId ++ " INDI".

Definition famGedcomId (famIndex : nat) : string :=
  "@F" ++ Js.ofNat famIndex ++ "@".

Definition famHeader (famId : string) : string := "0 " ++ famId ++ " FAM".

Definition citation (sourceIndex : nat) : string :=
  "1 SOUR @S" ++ Js.ofNat (sourceIndex + 1) ++ "@".

Definition environmentBaseUrl (env : Environment) : string :=
  match env with
  | Production => "https://www.familysearch.org"
  | Beta => "https://beta.familysearch.org"
  | Integration => "https://integration.familysearch.org"
  end.

(** [person.fullDetails?.persons?.[0] || person] *)
Definition personData (person : EnhancedPerson) : PersonData :=
  match first (opt (fullDetails person) details_personList) with
  | Some p => p
  | None => base person
  end.

(** [parents.slice(0, 2).sort().join("-")] or [`single-${parents[0]}`] *)
Definition famKeyOfParents (parents : list string) : option string :=
  match parents with
  | a :: b :: _ => Some (Js.sortJoin a b)
  | [a] => Some ("single-" ++ a)
  | [] => None
  end.

(** The number of leading elements that satisfy [f]. *)
Fixpoint countWhile {A : Type} (f : A -> bool) (l : list A) : nat :=
  match l with
  | x :: l' => if f x then S (countWhile f l') else 0
  | [] => 0
  end.

(** A FAM record of the output. *)
Record FamRecord := {
  fr_key : string;
  fr_id : string;
  fr_family : Family;
  fr_lines : list string }.

Section Emitter.
Variable people : list EnhancedPerson.
Variables includeLinks includeNotes allowOrphans : bool.
Variable env : Environment.
Variable sourceMap : JsMap SourceDescription.
Variable personIdMap : JsMap string.
Variable allRelationships : list Relationship.
Variable connectable : JsSet.
Variable orphanFamKeys : JsSet.
Variable personToFamKeys : JsMap JsSet.

(** "Orphan person filtering": the person is only in orphan families. *)
Definition isOrphanPerson (person : EnhancedPerson) : bool :=
  negb allowOrphans &&
  match mapGet personToFamKeys (personId person) with
  | Some famKeys =>
      Nat.ltb 0 (List.length famKeys)
      && forallb (setHas orphanFamKeys) famKeys
  | None => false
  end.

Definition linkLines (person : EnhancedPerson) : list string :=
  if includeLinks then
    let personLink :=
      Js.or (opt (opt (links (base person)) links_person) href)
            (first (opt (identifiers (base person))
                        (fun ids =>
                           mapGet ids "http://gedcomx.org/Persistent"))) in
    if Js.truthy personLink
    then ["1 _FS_LINK "
          ++ transformFamilySearchUrl (Js.orDefault personLink "")]
    else
      pushIf (negb (Js.isEmpty (personId person)))
             ("1 _FS_LINK " ++ environmentBaseUrl env
              ++ "/tree/person/" ++ personId person)
  else [].

Definition vitalLines (tag : string) (fact : option FactSummary)
  : list string :=
  match fact with
  | Some f =>
      [tag]
      +++ pushIf (Js.truthy (summary_date f))
            ("2 DATE " ++ Js.orDefault (summary_date f) "")
      +++ pushIf (Js.truthy (summary_place f))
            ("2 PLAC " ++ Js.orDefault (summary_place f) "")
  | None => []
  end.

Definition otherFactLines (fact : PersonFact) : list string :=
  if Js.truthy (fact_type fact)
     && negb (optEqb (fact_type fact) "http://gedcomx.org/Birth")
     && negb (optEqb (fact_type fact) "http://gedcomx.org/Death")
  then convertFactToGedcom fact
  else [].

Definition noteLines (person : EnhancedPerson) : list string :=
  if includeNotes then
    flat_map
      (fun note =>
         pushIf (Js.truthy (note_text note))
                ("1 NOTE "
                 ++ Js.replaceNewlines (Js.orDefault (note_text note) "")))
      (orEmpty (opt (first (opt (notes person) notes_persons)) person_notes))
  else [].

Definition qualifierLines (sourceRef : SourceReference) : list string :=
  flat_map
    (fun q =>
       pushIf (Js.truthy (qualifier_name q) && Js.truthy (qualifier_value q))
              ("2 NOTE " ++ Js.orDefault (qualifier_name q) "" ++ ": "
               ++ Js.orDefault (qualifier_value q) ""))
    (orEmpty (qualifiers sourceRef)).

(** The body of [personSources.forEach]. *)
Definition citationLines (sourceRef : SourceReference) : list string :=
  match descriptionId sourceRef with
  | Some sourceId =>
      if Js.isEmpty sourceId then []
      else
        match indexOf (mapKeys sourceMap) sourceId with
        | None => []
        | Some sourceIndex =>
            citation sourceIndex :: qualifierLines sourceRef
        end
  | None => []
  end.

(** The lines pushed for a person that is not skipped. *)
Definition indiRecord (gedcomId : string) (person : EnhancedPerson)
  : list string :=
  let data := personData person in
  [indiHeader gedcomId]
  +++ pushIf (negb (Js.isEmpty (personId person)))
        ("1 _FS_ID " ++ personId person)
  +++ linkLines person
  +++ idLine "1 NAME " (extractName (Some data))
  +++ idLine "1 SEX " (extractGender (Some data))
  +++ vitalLines "1 BIRT" (extractFact (Some data) BIRTH)
  +++ vitalLines "1 DEAT" (extractFact (Some data) DEATH)
  +++ flat_map otherFactLines (orEmpty (facts data))
  +++ noteLines person
  +++ flat_map citationLines (orEmpty (sources data)).

(** The body of the [forEach] of step 5: the lines it pushes, none when
    it returns early. *)
Definition personBlock (person : EnhancedPerson) : list string :=
  match mapGet personIdMap (personId person) with
  | None => []
  | Some gedcomId =>
      if Js.isEmpty gedcomId then []
      else if isOrphanPerson person then []
      else indiRecord gedcomId person
  end.

(** The record header among these lines. *)
Definition personHeaders (person : EnhancedPerson) : list string :=
  match mapGet personIdMap (personId person) with
  | None => []
  | Some gedcomId =>
      if Js.isEmpty gedcomId then []
      else if isOrphanPerson person then []
      else [indiHeader gedcomId]
  end.

Definition emitPerson (lines : list string) (person : EnhancedPerson)
  : list string :=
  lines +++ personBlock person.

Definition findPerson (id : string) : option EnhancedPerson :=
  find (fun p => String.eqb (personId p) id) people.

(** [extractGender(data?.fullDetails?.persons?.[0] || data)] for the
    person found under [id]. *)
Definition genderOf (id : string) : option string :=
  extractGender (option_map personData (findPerson id)).

Definition spouseLines (family : Family) : list string :=
  match spouses family with
  | [spouse1; spouse2] =>
      let gender1 := genderOf spouse1 in
      let gender2 := genderOf spouse2 in
      let p1 := mapGet personIdMap spouse1 in
      let p2 := mapGet personIdMap spouse2 in
      (if optEqb gender1 "M" || optEqb gender2 "F"
       then idLine "1 HUSB " p1 +++ idLine "1 WIFE " p2
       else idLine "1 HUSB " p2 +++ idLine "1 WIFE " p1)
      +++ addMarriageFacts allRelationships spouse1 spouse2
  | [only] =>
      if optEqb (genderOf only) "M"
      then ["1 HUSB " ++ template (mapGet personIdMap only)]
      else ["1 WIFE " ++ template (mapGet personIdMap only)]
  | _ => []
  end.

Definition childLines (family : Family) : list string :=
  flat_map (fun childId => idLine "1 CHIL " (mapGet personIdMap childId))
           (children family).

(** The lines pushed for a family that is not skipped. *)
Definition famRecord (famId : string) (family : Family) : list string :=
  [famHeader famId]
  +++ pushIf (isOrphanFamily connectable family && allowOrphans)
        "1 _IS_ORPHAN_FAMILY Y"
  +++ spouseLines family
  +++ childLines family.

(** The three early [return]s of the [forEach] of step 6. *)
Definition familySkipped (family : Family) : bool :=
  let parentsInMap := filter (mapHas personIdMap) (spouses family) in
  let hasNoParents := Nat.eqb (List.length parentsInMap) 0 in
  let hasSingleParentNoChildren :=
    Nat.eqb (List.length parentsInMap) 1
    && Nat.eqb (List.length (children family)) 0 in
  if hasNoParents then true
  else if hasSingleParentNoChildren then true
  else isOrphanFamily connectable family && negb allowOrphans.

(** The body of the [forEach] of step 6; the state is [lines],
    [famIndex] and [familyIdMap]. *)
Definition emitFamily (st : list string * nat * JsMap string)
  (entry : string * Family) : list string * nat * JsMap string :=
  let '(lines, famIndex, familyIdMap) := st in
  if familySkipped (snd entry) then st
  else
    let famId := famGedcomId famIndex in
    (lines +++ famRecord famId (snd entry),
     S famIndex,
     mapSet familyIdMap (fst entry) famId).

(** "Add FAMC links to individuals". *)
Definition spliceFamc (familyIdMap : JsMap string) (lines : list string)
  (entry : string * list string) : list string :=
  match mapGet personIdMap (fst entry) with
  | None => lines
  | Some childGedcomId =>
      if Js.isEmpty childGedcomId then lines
      else
        let famId := opt (famKeyOfParents (snd entry)) (mapGet familyIdMap) in
        if Js.truthy famId then
          match findIndex
                  (fun line => String.eqb line (indiHeader childGedcomId))
                  lines with
          | Some indiRecordIndex =>
              splice (indiRecordIndex + 1)
                     ("1 FAMC " ++ Js.orDefault famId "") lines
          | None => lines
          end
        else lines
  end.

(** "Add FAMS links to individuals", for one spouse of one family. *)
Definition spliceFams (famId : string) (lines : list string)
  (spouseId : string) : list string :=
  match mapGet personIdMap spouseId with
  | None => lines
  | Some spouseGedcomId =>
      if Js.isEmpty spouseGedcomId then lines
      else
        match findIndex
                (fun line => String.eqb line (indiHeader spouseGedcomId))
                lines with
        | Some indiRecordIndex =>
            let insertIndex :=
              indiRecordIndex + 1
              + countWhile (fun line => Js.startsWith line "1 FAMC")
                           (skipn (indiRecordIndex + 1) lines) in
            splice insertIndex ("1 FAMS " ++ famId) lines
        | None => lines
        end
  end.

Definition addFams (familyIdMap : JsMap string) (lines : list string)
  (entry : string * Family) : list string :=
  match mapGet familyIdMap (fst entry) with
  | Some famId =>
      if Js.isEmpty famId then lines
      else fold_left (spliceFams famId) (spouses (snd entry)) lines
  | None => lines
  end.
(** The records step 6 pushes, in order, from [famIndex] on: the key of
    the family, the identifier it is given and its lines. *)
Fixpoint familyRecords (famIndex : nat) (families : JsMap Family)
  : list FamRecord :=
  match families with
  | [] => []
  | entry :: rest =>
      if familySkipped (snd entry) then familyRecords famIndex rest
      else
        {| fr_key := fst entry;
           fr_id := famGedcomId famIndex;
           fr_family := snd entry;
           fr_lines := famRecord (famGedcomId famIndex) (snd entry) |}
        :: familyRecords (S famIndex) rest
  end.
End Emitter.

(** *** The whole conversion *)

Definition orTrue (b : option bool) : bool :=
  match b with Some v => v | None => true end.

(** Everything the emitter needs, computed by the stages before it. *)
Record Graph := {
  g_sourceMap : JsMap SourceDescription;
  g_personIdMap : JsMap string;
  g_allRelationships : list Relationship;
  g_families : JsMap Family;
  g_childToParents : JsMap (list string) }.

Definition buildGraph (data : EnhancedPedigreeData)
  (people : list EnhancedPerson) : Graph :=
  let allRelationships := collectRelationships data people in
  let validPersonIds := setOfList (map personId people) in
  let '(families, childToParents) :=
    buildFamilies validPersonIds allRelationships in
  {| g_sourceMap := collectSources people;
     g_personIdMap := buildPersonIdMap people;
     g_allRelationships := allRelationships;
     g_families := families;
     g_childToParents := childToParents |}.

(** The options after destructuring, defaults applied. *)
Definition treeNameOf (options : GedcomConversionOptions) : string :=
  match treeName options with
  | Some name => name
  | None => "FamilySearch Import"
  end.

Definition environmentOf (options : GedcomConversionOptions) : Environment :=
  match environment options with
  | Some e => e
  | None => Production
  end.

(** [options.allowOrphanFamilies === true] *)
Definition allowOrphansOf (options : GedcomConversionOptions) : bool :=
  match allowOrphanFamilies options with
  | Some true => true
  | _ => false
  end.

(** The array [lines] after step 6, with its [familyIdMap], once the
    connectable set is known: header, submitter, sources, individuals and
    families. *)
Definition emitRecords (people : list EnhancedPerson)
  (options : GedcomConversionOptions) (now : JsDate) (g : Graph)
  (connectable : JsSet) : list string * JsMap string :=
  let index := indexFamilies connectable (g_families g) in
  let lines0 := headerLines (treeNameOf options) now in
  let lines1 := fst (emitSources (g_sourceMap g) lines0) in
  let lines2 :=
    fold_left
      (emitPerson (orTrue (includeLinks options))
                  (orTrue (includeNotes options))
                  (allowOrphansOf options) (environmentOf options)
                  (g_sourceMap g) (g_personIdMap g) (fst index) (snd index))
      people lines1 in
  let st :=
    fold_left
      (emitFamily people (allowOrphansOf options) (g_personIdMap g)
                  (g_allRelationships g) connectable)
      (g_families g) (lines2, 1, []) in
  (fst (fst st), snd st).

(** "Add FAMC links" and "Add FAMS links". *)
Definition spliceLinks (g : Graph) (familyIdMap : JsMap string)
  (lines : list string) : list string :=
  fold_left (addFams (g_personIdMap g) familyIdMap) (g_families g)
    (fold_left (spliceFamc (g_personIdMap g) familyIdMap)
               (g_childToParents g) lines).

(** The array [lines] just before ["0 TRLR"] is pushed. *)
Definition emitAll (people : list EnhancedPerson)
  (options : GedcomConversionOptions) (now : JsDate) (g : Graph)
  (connectable : JsSet) : list string * JsMap string :=
  let records := emitRecords people options now g connectable in
  (spliceLinks g (snd records) (fst records), snd records).

(** The array [lines] when [join] is called; [None] if the resolver's
    loop does not finish. *)
Definition convertLines (data : EnhancedPedigreeData)
  (people : list EnhancedPerson) (options : GedcomConversionOptions)
  (now : JsDate) : option (list string) :=
  let g := buildGraph data people in
  match connectablePersons (ancestryPersonIds options)
                           (g_families g) (g_childToParents g) with
  | Some connectable =>
      Some (push (fst (emitAll people options now g connectable)) "0 TRLR")
  | None => None
  end.

(* ================================================================= *)
(** ** The argument as it is received *)

(** Nothing checks the argument of [convertToGedcom] against its declared
    type when it runs, and for [EnhancedPerson.notes] the declaration is
    [unknown]: the fetcher stores there what [getPersonNotes] returned,
    the parsed body of a response or [null].  Such a value is a JSON
    document; a number is kept as an integer (the converter only tests a
    number for truthiness and reads properties off it, where a fraction
    does what a non-zero integer does). *)
#[warnings="-register-all"]
Inductive JsValue :=
| JsUndefined
| JsNull
| JsBoolean (b : bool)
| JsNumber (n : Z)
| JsString (s : string)
| JsArray (items : list JsValue)
| JsObject (properties : JsMap JsValue).

(** A step that may be stopped by a [TypeError]. *)
Inductive Completion (A : Type) :=
| Normal (value : A)
| TypeError.

Arguments Normal {A} value.
Arguments TypeError {A}.

Module Unknown.

Definition nullish (v : JsValue) : bool :=
  match v with
  | JsUndefined | JsNull => true
  | _ => false
  end.

Definition truthy (v : JsValue) : bool :=
  match v with
  | JsUndefined | JsNull => false
  | JsBoolean b => b
  | JsNumber n => negb (Z.eqb n 0)
  | JsString s => negb (Js.isEmpty s)
  | JsArray _ | JsObject _ => true
  end.

(** [v.name] on a value that is not nullish, for the names the converter
    reads ([persons], [notes], [text]): an own property of an object,
    [undefined] on every other value. *)
Definition field (name : string) (v : JsValue) : JsValue :=
  match v with
  | JsObject properties =>
      match mapGet properties name with
      | Some x => x
      | None => JsUndefined
      end
  | _ => JsUndefined
  end.

(** [v[0]] on a value that is not nullish: the first item of an array,
    the first character of a string, the property ["0"] of an object. *)
Definition item0 (v : JsValue) : JsValue :=
  match v with
  | JsArray (x :: _) => x
  | JsString (String c _) => JsString (String c EmptyString)
  | JsObject _ => field "0" v
  | _ => JsUndefined
  end.

(** [v?.f]: [undefined] when [v] is [null] or [undefined]. *)
Definition chain (v : JsValue) (f : JsValue -> JsValue) : JsValue :=
  if nullish v then JsUndefined else f v.

End Unknown.

(** [person.notes?.persons?.[0]?.notes] *)
Definition notesOf (notes : JsValue) : JsValue :=
  Unknown.chain
    (Unknown.chain (Unknown.chain notes (Unknown.field "persons"))
                   Unknown.item0)
    (Unknown.field "notes").

(** The callback of [notes.forEach], on the array [lines]: [note.text]
    throws on [null] and [undefined], and [replace] is a method of
    strings only. *)
Definition pushNote (lines : list string) (note : JsValue)
  : Completion (list string) :=
  if Unknown.nullish note then TypeError
  else
    match Unknown.field "text" note with
    | JsString text =>
        Normal (lines +++ pushIf (negb (Js.isEmpty text))
                            ("1 NOTE " ++ Js.replaceNewlines text))
    | text => if Unknown.truthy text then TypeError else Normal lines
    end.

Fixpoint forEachNote (items : list JsValue) (lines : list string)
  : Completion (list string) :=
  match items with
  | [] => Normal lines
  | note :: rest =>
      match pushNote lines note with
      | Normal lines' => forEachNote rest lines'
      | TypeError => TypeError
      end
  end.

(** "Add notes": [forEach] is a method of arrays only. *)
Definition pushNotes (includeNotes : bool) (notes : JsValue)
  (lines : list string) : Completion (list string) :=
  if includeNotes && Unknown.truthy (notesOf notes) then
    match notesOf notes with
    | JsArray items => forEachNote items lines
    | _ => TypeError
    end
  else Normal lines.

(** [EnhancedPerson] with [notes] as declared. *)
Record ReceivedPerson := {
  received_base : PersonData;
  received_fullDetails : option PersonWithRelationships;
  received_notes : JsValue }.

Record ReceivedPedigreeData := {
  received_persons : option (list ReceivedPerson);
  received_relationships : option (list Relationship);
  received_environment : option Environment }.

(** The notes that the reads of the converter find in a value: those of
    the array [notes.persons[0].notes] when there is one, a note having
    the text that is a string. *)
Definition checkedNote (note : JsValue) : Note :=
  {| note_text :=
       match Unknown.field "text" note with
       | JsString text => Some text
       | _ => None
       end |}.

Definition checkedNotes (notes : JsValue) : option PersonNotes :=
  match notesOf notes with
  | JsArray items =>
      Some {| notes_persons :=
                Some [ {| person_notes := Some (map checkedNote items) |} ] |}
  | _ => None
  end.

Definition checked (person : ReceivedPerson) : EnhancedPerson :=
  {| base := received_base person;
     fullDetails := received_fullDetails person;
     notes := checkedNotes (received_notes person) |}.

Definition checkedData (data : ReceivedPedigreeData) : EnhancedPedigreeData :=
  {| persons := option_map (map checked) (received_persons data);
     relationships := received_relationships data;
     data_environment := received_environment data |}.

Section ReceivedEmitter.
Variables includeLinks includeNotes allowOrphans : bool.
Variable env : Environment.
Variable sourceMap : JsMap SourceDescription.
Variable personIdMap : JsMap string.
Variable orphanFamKeys : JsSet.
Variable personToFamKeys : JsMap JsSet.

(** The lines pushed for a received person that is not skipped, unless
    the notes stop the call. *)
Definition receivedRecord (gedcomId : string) (received : ReceivedPerson)
  : Completion (list string) :=
  let person := checked received in
  let data := personData person in
  match
    pushNotes includeNotes (received_notes received)
      ([indiHeader gedcomId]
       +++ pushIf (negb (Js.isEmpty (personId person)))
             ("1 _FS_ID " ++ personId person)
       +++ linkLines includeLinks env person
       +++ idLine "1 NAME " (extractName (Some data))
       +++ idLine "1 SEX " (extractGender (Some data))
       +++ vitalLines "1 BIRT" (extractFact (Some data) BIRTH)
       +++ vitalLines "1 DEAT" (extractFact (Some data) DEATH)
       +++ flat_map otherFactLines (orEmpty (facts data)))
  with
  | Normal lines =>
      Normal (lines
              +++ flat_map (citationLines sourceMap) (orEmpty (sources data)))
  | TypeError => TypeError
  end.

(** The body of the [forEach] of step 5 on a received person. *)
Definition emitReceivedPerson (lines : Completion (list string))
  (received : ReceivedPerson) : Completion (list string) :=
  match lines with
  | TypeError => TypeError
  | Normal lines =>
      match mapGet personIdMap (personId (checked received)) with
      | None => Normal lines
      | Some gedcomId =>
          if Js.isEmpty gedcomId then Normal lines
          else if isOrphanPerson allowOrphans orphanFamKeys personToFamKeys
                    (checked received)
          then Normal lines
          else
            match receivedRecord gedcomId received with
            | Normal record => Normal (lines +++ record)
            | TypeError => TypeError
            end
      end
  end.

End ReceivedEmitter.

(** [emitRecords] on the persons as received. *)
Definition emitReceived (received : list ReceivedPerson)
  (options : GedcomConversionOptions) (now : JsDate) (g : Graph)
  (connectable : JsSet) : Completion (list string * JsMap string) :=
  let people := map checked received in
  let index := indexFamilies connectable (g_families g) in
  let lines0 := headerLines (treeNameOf options) now in
  let lines1 := fst (emitSources (g_sourceMap g) lines0) in
  match
    fold_left
      (emitReceivedPerson (orTrue (includeLinks options))
                          (orTrue (includeNotes options))
                          (allowOrphansOf options) (environmentOf options)
                          (g_sourceMap g) (g_personIdMap g)
                          (fst index) (snd index))
      received (Normal lines1)
  with
  | Normal lines2 =>
      let st :=
        fold_left
          (emitFamily people (allowOrphansOf options) (g_personIdMap g)
                      (g_allRelationships g) connectable)
          (g_families g) (lines2, 1, []) in
      Normal (fst (fst st), snd st)
  | TypeError => TypeError
  end.

Definition convertToGedcom (pedigreeData : option ReceivedPedigreeData)
  (options : GedcomConversionOptions) (now : JsDate) : Outcome :=
  match pedigreeData with
  | None => Threw "Invalid FamilySearch data: no persons found"
  | Some data =>
      match received_persons data with
      | None => Threw "Invalid FamilySearch data: no persons found"
      | Some received =>
          let g := buildGraph (checkedData data) (map checked received) in
          match connectablePersons (ancestryPersonIds options)
                                   (g_families g) (g_childToParents g) with
          | Some connectable =>
              match emitReceived received options now g connectable with
              | Normal records =>
                  Returned
                    (Js.join Js.newline
                       (push (spliceLinks g (snd records) (fst records))
                             "0 TRLR"))
              | TypeError => ThrewTypeError
              end
          | None => Diverged
          end
      end
  end.

(** [convertToGedcom(pedigreeData)] with [options = {}]. *)
Definition noOptions : GedcomConversionOptions :=
  {| treeName := None; includeLinks := None; includeNotes := None;
     environment := None; allowOrphanFamilies := None;
     ancestryPersonIds := None |}.

(* ================================================================= *)
(** ** Specification-side notions *)

(** The persons the rules of the resolver justify, starting from the
    seeds: a spouse of a family one of whose spouses or children is
    justified, and a child one of whose recorded parents is justified. *)
Inductive Reachable (seeds : JsSet) (families : JsMap Family)
  (childToParents : JsMap (list string)) : string -> Prop :=
| reach_seed x :
    In x seeds -> Reachable seeds families childToParents x
| reach_spouse key family x y :
    In (key, family) families ->
    In x (spouses family) ->
    In y (spouses family +++ children family) ->
    Reachable seeds families childToParents y ->
    Reachable seeds families childToParents x
| reach_child child parents p :
    In (child, parents) childToParents ->
    In p parents ->
    Reachable seeds families childToParents p ->
    Reachable seeds families childToParents child.

(** The edges a composite record offers to the merge, in the order the
    aggregator makes them. *)
Definition capEdges (capRel : ChildAndParentsRelationship)
  : list Relationship :=
  match cap_parent1 capRel, cap_child capRel with
  | Some p1, Some c => [capEdge "-p1" capRel p1 c (cap_parent2 capRel)]
  | _, _ => []
  end
  +++
  match cap_parent2 capRel, cap_child capRel with
  | Some p2, Some c => [capEdge "-p2" capRel p2 c (cap_parent1 capRel)]
  | _, _ => []
  end.

(** The relationships a person offers: the detail list, then the edges of
    the composite records. *)
Definition personCandidates (person : EnhancedPerson) : list Relationship :=
  orEmpty (opt (fullDetails person) details_relationships)
  +++ flat_map capEdges
        (orEmpty (opt (fullDetails person) childAndParentsRelationships)).

(** Merging by identifier, the first occurrence winning: the candidates
    whose identifier is not among [seen] nor carried by an earlier
    candidate. *)
Fixpoint firstWins (seen : list string) (candidates : list Relationship)
  : list Relationship :=
  match candidates with
  | [] => []
  | r :: rest =>
      if existsb (fun id => String.eqb id (rel_id r)) seen
      then firstWins seen rest
      else r :: firstWins (seen +++ [rel_id r]) rest
  end.

Definition hasId (id : string) (r : Relationship) : bool :=
  String.eqb (rel_id r) id.

(** The source records [emitSources] pushes, numbered from [n]. *)
Fixpoint sourceRecords (n : nat) (sourceMap : JsMap SourceDescription)
  : list string :=
  match sourceMap with
  | [] => []
  | entry :: rest =>
      (sourceHeader n :: sourceBody (snd entry)) +++ sourceRecords (S n) rest
  end.

(** A line that opens a record. *)
Definition isLevel0 (line : string) : bool := Js.startsWith line "0 ".

(** The tags of the fact mapper: the values of [typeMap] and the default. *)
Definition gedcomTags : list string :=
  ["BURI"; "CHR"; "BAPM"; "MARR"; "DIV"; "RESI"; "OCCU"; "IMMI"; "EMIG";
   "NATU"; "CENS"; "EVEN"].

(** How the lines inside a record start, the links between records
    (SOUR citations, HUSB, WIFE, CHIL, FAMC, FAMS) apart. *)
Definition bodyPrefixes : list string :=
  ["1 _FS_ID "; "1 _FS_LINK "; "1 NAME "; "1 SEX "; "1 BIRT"; "1 DEAT";
   "2 DATE "; "2 PLAC "; "2 NOTE "; "1 NOTE "; "2 _FS_LINK ";
   "1 TITL "; "1 TEXT "; "1 WWW "; "1 _IS_ORPHAN_FAMILY Y"]
  +++ map (fun tag => "1 " ++ tag) gedcomTags.

Definition isBodyLine (line : string) : bool :=
  existsb (Js.startsWith line) bodyPrefixes.

(** No body line starts with [pattern]: it neither begins a prefix nor
    extends one. *)
Definition avoidsBody (pattern : string) : bool :=
  forallb (fun p => negb (Js.startsWith p pattern)
                    && negb (Js.startsWith pattern p))
          bodyPrefixes.

(** The lines of a FAM record that name a spouse, and those that name a
    child. *)
Definition isSpouseLine (line : string) : bool :=
  Js.startsWith line "1 HUSB " || Js.startsWith line "1 WIFE ".

Definition isChildLine (line : string) : bool :=
  Js.startsWith line "1 CHIL ".

Definition countLines (f : string -> bool) (block : list string) : nat :=
  List.length (filter f block).

(** A line that cites a source record. *)
Definition isCitation (line : string) : bool :=
  Js.startsWith line "1 SOUR @".

(** A line that neither opens a record nor cites a source. *)
Definition isPlain (line : string) : bool :=
  negb (isLevel0 line) && negb (isCitation line).

(** The back-references spliced into INDI records. *)
Definition isLinkLine (line : string) : bool :=
  Js.startsWith line "1 FAMC " || Js.startsWith line "1 FAMS ".

(** The lines that name a member of a family. *)
Definition isMemberLine (line : string) : bool :=
  isSpouseLine line || isChildLine line.

(** Does [line] start with one of [prefixes]? *)
Definition startsWithAny (prefixes : list string) (line : string) : bool :=
  existsb (Js.startsWith line) prefixes.

(** No line that starts with one of [prefixes] starts with [pattern]. *)
Definition avoids (prefixes : list string) (pattern : string) : bool :=
  forallb (fun p => negb (Js.startsWith p pattern)
                    && negb (Js.startsWith pattern p))
          prefixes.

(** How the lines of the fact mapper start. *)
Definition factPrefixes : list string :=
  ["1 OCCU "; "2 _FS_LINK "; "2 DATE "; "2 PLAC "; "2 NOTE "]
  +++ map (fun tag => "1 " ++ tag) gedcomTags.

(** How the lines of an INDI or FAM record start, the BIRT, DEAT and
    orphan tags apart. *)
Definition untaggedPrefixes : list string :=
  ["0 "; "1 _FS_ID "; "1 _FS_LINK "; "1 NAME "; "1 SEX "; "1 NOTE ";
   "1 SOUR @S"; "1 HUSB "; "1 WIFE "; "1 CHIL "]
  +++ factPrefixes.

(** A FAMC or FAMS line, the former as the FAMS step recognises it. *)
Definition isBackLink (line : string) : bool :=
  Js.startsWith line "1 FAMC" || Js.startsWith line "1 FAMS ".

(** The last line of [lines] that is no FAMC or FAMS line; [last] when
    there is none. *)
Fixpoint lastOther (last : string) (lines : list string) : string :=
  match lines with
  | [] => last
  | line :: rest => lastOther (if isBackLink line then last else line) rest
  end.

(** Every FAMC or FAMS line of [lines], paired with the nearest line
    above it that is no FAMC or FAMS line; [last] stands for the line
    above [lines]. *)
Fixpoint linkOwners (last : string) (lines : list string)
  : list (string * string) :=
  match lines with
  | [] => []
  | line :: rest =>
      if isBackLink line then (last, line) :: linkOwners last rest
      else linkOwners line rest
  end.

(** [after] is [before] with lines that satisfy [allowed] inserted, none
    of them at the very start. *)
Inductive Spliced (allowed : string -> Prop)
  : list string -> list string -> Prop :=
| spliced_done lines : Spliced allowed lines lines
| spliced_step lines i x after :
    allowed x -> 0 < i ->
    Spliced allowed (splice i x lines) after ->
    Spliced allowed lines after.

(** A FAMC or FAMS line for an identifier of [familyIdMap]. *)
Definition LinkTo (familyIdMap : JsMap string) (line : string) : Prop :=
  exists key famId,
    mapGet familyIdMap key = Some famId
    /\ (line = "1 FAMC " ++ famId \/ line = "1 FAMS " ++ famId).

(** Every citation of [lines] names one of the first [n] sources, and the
    header of that source is in [seen] or comes before the citation. *)
Fixpoint Resolved (n : nat) (seen lines : list string) : Prop :=
  match lines with
  | [] => True
  | line :: rest =>
      (isCitation line = true ->
       exists i, i < n /\ line = citation i
                 /\ In (sourceHeader (i + 1)) seen)
      /\ Resolved n (seen +++ [line]) rest
  end.

(** The views of the pipeline the properties speak of. *)
Definition familyRecordsOf (people : list EnhancedPerson)
  (options : GedcomConversionOptions) (g : Graph) (connectable : JsSet)
  : list FamRecord :=
  familyRecords people (allowOrphansOf options) (g_personIdMap g)
                (g_allRelationships g) connectable 1 (g_families g).

Definition personHeadersOf (options : GedcomConversionOptions) (g : Graph)
  (connectable : JsSet) (person : EnhancedPerson) : list string :=
  personHeaders (allowOrphansOf options) (g_personIdMap g)
                (fst (indexFamilies connectable (g_families g)))
                (snd (indexFamilies connectable (g_families g))) person.

(** The options with [allowOrphanFamilies] set. *)
Definition withAllowOrphans (options : GedcomConversionOptions) (allow : bool)
  : GedcomConversionOptions :=
  {| treeName := treeName options;
     includeLinks := includeLinks options;
     includeNotes := includeNotes options;
     environment := environment options;
     allowOrphanFamilies := Some allow;
     ancestryPersonIds := ancestryPersonIds options |}.

(** Is the person at position [i] of the input emitted? *)
Definition keptAt (people : list EnhancedPerson)
  (options : GedcomConversionOptions) (g : Graph) (connectable : JsSet)
  (i : nat) : bool :=
  match nth_error people i with
  | Some person =>
      negb (isOrphanPerson (allowOrphansOf options)
              (fst (indexFamilies connectable (g_families g)))
              (snd (indexFamilies connectable (g_families g))) person)
  | None => false
  end.

Definition personBlockOf (options : GedcomConversionOptions) (g : Graph)
  (connectable : JsSet) (person : EnhancedPerson) : list string :=
  personBlock (orTrue (includeLinks options)) (orTrue (includeNotes options))
              (allowOrphansOf options) (environmentOf options)
              (g_sourceMap g) (g_personIdMap g)
              (fst (indexFamilies connectable (g_families g)))
              (snd (indexFamilies connectable (g_families g))) person.

(** The invariant of the family graph: a family has one or two spouses,
    and its spouses and children are persons of the input. *)
Definition FamiliesOk (valid : JsSet) (families : JsMap Family) : Prop :=
  forall key family,
    In (key, family) families ->
    spouses family <> []
    /\ List.length (spouses family) <= 2
    /\ incl (spouses family) valid
    /\ incl (children family) valid.

Definition ParentsOk (valid : JsSet) (childToParents : JsMap (list string))
  : Prop :=
  forall child parents,
    In (child, parents) childToParents ->
    In child valid /\ incl parents valid.

(** [person.fullDetails?.sourceDescriptions], nothing when absent. *)
Definition sourceDescriptionsOf (person : EnhancedPerson)
  : list SourceDescription :=
  orEmpty (opt (fullDetails person) sourceDescriptions).

(** Is [source] a description with the identifier [id]? *)
Definition hasSourceId (id : string) (source : SourceDescription) : bool :=
  optEqb (source_id source) id.

(** The three web hosts. *)
Definition webHosts : list string :=
  ["https://www.familysearch.org"; "https://beta.familysearch.org";
   "https://integration.familysearch.org"].

(** How a family is keyed: by its two spouses in sorted order, or by its
    only spouse; the spouses are distinct. *)
Definition FamilyShape (key : string) (family : Family) : Prop :=
  NoDup (spouses family)
  /\ ((exists a b, key = Js.sortJoin a b
                   /\ spouses family = setOfList [a; b])
      \/ (exists a, key = "single-" ++ a /\ spouses family = [a])).

(** The children recorded under [key]. *)
Definition childrenAt (families : JsMap Family) (key : string)
  : list string :=
  match mapGet families key with
  | Some family => children family
  | None => []
  end.

(** The identifiers a pass has yet to reach. *)
Definition missing (universe : list string) (connectable : JsSet) : nat :=
  List.length (filter (fun u => negb (setHas connectable u)) universe).

(** Every member of [c] is justified by [J]. *)
Definition Sound (J : string -> Prop) (c : JsSet) : Prop :=
  forall x, In x c -> J x.

(** What a pass that started from [c] keeps true of its state: nothing
    was removed, the flag is raised only when a person of the universe
    was added, and every member is justified. *)
Definition Good (universe : list string) (J : string -> Prop) (c : JsSet)
  (st : JsSet * bool) : Prop :=
  incl c (fst st)
  /\ (snd st = true -> exists u, In u universe /\ ~ In u c /\ In u (fst st))
  /\ Sound J (fst st).

(** The two rules of the loop hold in [c]: nothing is left to add. *)
Definition Closed (families : JsMap Family)
  (childToParents : JsMap (list string)) (c : JsSet) : Prop :=
  (forall child parents,
      In (child, parents) childToParents ->
      anyIn c parents = true -> In child c)
  /\ (forall key family,
         In (key, family) families ->
         anyIn c (spouses family) || anyIn c (children family) = true ->
         forall x, In x (spouses family) -> In x c).

(* ================================================================= *)
(** ** Sample inputs *)

Module Sample.

Definition data (id : string) (sex : option string) : PersonData :=
  {| person_id := id; display := None; names := None;
     gender := option_map (fun t => {| gender_type := Some t |}) sex;
     facts := None; links := None; identifiers := None; sources := None |}.

Definition person (id : string) (sex : option string) : EnhancedPerson :=
  {| base := data id sex; fullDetails := None; notes := None |}.

Definition ref (id : string) : ResourceRef :=
  {| resourceId := Some id; resource := None |}.

Definition couple (id a b : string) : Relationship :=
  {| rel_id := id; rel_type := Some "http://gedcomx.org/Couple";
     person1 := Some (ref a); person2 := Some (ref b); parent2 := None;
     rel_facts := None; details := None |}.

Definition parentChild (id parent child : string) (other : option string)
  : Relationship :=
  {| rel_id := id; rel_type := Some parentChildType;
     person1 := Some (ref parent); person2 := Some (ref child);
     parent2 := option_map ref other;
     rel_facts := None; details := None |}.

Definition pedigree (people : list EnhancedPerson)
  (rels : list Relationship) : EnhancedPedigreeData :=
  {| persons := Some people; relationships := Some rels;
     data_environment := None |}.

(** 15 January 2024 and 16 January 2024, at noon. *)
Definition date : JsDate :=
  {| getFullYear := 2024; getMonth := 0; getDate := 15;
     getHours := 12; getMinutes := 0; getSeconds := 0;
     getMilliseconds := 0 |}.

Definition nextDay : JsDate :=
  {| getFullYear := 2024; getMonth := 0; getDate := 16;
     getHours := 12; getMinutes := 0; getSeconds := 0;
     getMilliseconds := 0 |}.

Definition options (seeds : option JsSet) (allowOrphans : bool)
  : GedcomConversionOptions :=
  {| treeName := None; includeLinks := None; includeNotes := None;
     environment := None; allowOrphanFamilies := Some allowOrphans;
     ancestryPersonIds := seeds |}.

(** A person list that is present and empty:
    [{ persons: [], relationships: [] }]. *)
Definition nobody : ReceivedPedigreeData :=
  {| received_persons := Some []; received_relationships := Some [];
     received_environment := None |}.

(** One person whose notes hold a text where the array of notes is
    expected: [{ persons: [{ notes: "see the parish register" }] }]. *)
Definition textForNotes : JsValue :=
  JsObject
    [("persons",
      JsArray [JsObject [("notes", JsString "see the parish register")]])].

(** [{ persons: [{ notes: [{ text: "born at home
in winter" }] }] }] *)
Definition twoLineNote : JsValue :=
  JsObject
    [("persons",
      JsArray
        [JsObject
           [("notes",
             JsArray
               [JsObject
                  [("text",
                    JsString ("born at home" ++ Js.newline
                              ++ "in winter"))]])]])].

Definition received (id : string) (notes : JsValue) : ReceivedPerson :=
  {| received_base := data id None; received_fullDetails := None;
     received_notes := notes |}.

Definition annotated (notes : JsValue) : ReceivedPedigreeData :=
  {| received_persons := Some [received "A" notes];
     received_relationships := Some [];
     received_environment := None |}.

(** Two relationships of the pedigree list under one identifier. *)
Definition twicePeople : list EnhancedPerson :=
  [person "A" None; person "B" None; person "C" None].

Definition twice : EnhancedPedigreeData :=
  pedigree twicePeople [couple "R1" "A" "B"; couple "R1" "A" "C"].

(** A parent [P] and its child [C], the child being the seed. *)
Definition parentAndChildPeople : list EnhancedPerson :=
  [person "P" None; person "C" None].

Definition parentAndChild : EnhancedPedigreeData :=
  pedigree parentAndChildPeople [parentChild "r1" "P" "C" None].

(** Scenario B of the specification, the unconnected couple listed first:
    [P4] and [P5] are a couple apart from the family of [P1], [P2] and
    their child [P3]. *)
Definition scenarioBPeople : list EnhancedPerson :=
  [person "P4" None; person "P5" None;
   person "P1" (Some "http://gedcomx.org/Male");
   person "P2" (Some "http://gedcomx.org/Female");
   person "P3" None].

Definition scenarioB : EnhancedPedigreeData :=
  pedigree scenarioBPeople
    [couple "c1" "P1" "P2"; parentChild "pc1" "P1" "P3" (Some "P2");
     couple "c2" "P4" "P5"].

End Sample.

(* ================================================================= *)
(** * Properties *)

(** ** Strings *)

Module JsFacts.
Import Js.

Lemma append_assoc (a b c : string) : (a ++ b) ++ c = a ++ b ++ c.
Proof. induction a as [|x a IH]; simpl; [reflexivity | now rewrite IH]. Qed.

Lemma append_nil_r (s : string) : s ++ "" = s.
Proof. induction s as [|x s IH]; simpl; [reflexivity | now rewrite IH]. Qed.

Lemma isEmpty_true (s : string) : isEmpty s = true <-> s = "".
Proof. destruct s; simpl; split; congruence. Qed.

Lemma startsWith_refl (s : string) : startsWith s s = true.
Proof.
  induction s as [|x s IH]; simpl; [reflexivity|].
  now rewrite Ascii.eqb_refl, IH.
Qed.

Lemma startsWith_append (p r : string) : startsWith (p ++ r) p = true.
Proof.
  induction p as [|x p IH]; simpl; [reflexivity|].
  now rewrite Ascii.eqb_refl, IH.
Qed.

Lemma startsWith_spec (s p : string) :
  startsWith s p = true -> exists r, s = p ++ r.
Proof.
  revert s; induction p as [|b p IH]; intros s H; simpl in *.
  - now exists s.
  - destruct s as [|a s]; [discriminate|].
    apply andb_true_iff in H as [Hab Hs].
    apply Ascii.eqb_eq in Hab; subst b.
    destruct (IH _ Hs) as [r ->]. now exists r.
Qed.

Lemma startsWith_app (s p t : string) :
  startsWith s p = true -> startsWith (s ++ t) p = true.
Proof.
  intros H. destruct (startsWith_spec _ _ H) as [r ->].
  rewrite append_assoc. apply startsWith_append.
Qed.

Lemma includes_app_l (s n t : string) :
  includes s n = true -> includes (s ++ t) n = true.
Proof.
  induction s as [|x s IH]; simpl; intros H.
  - rewrite orb_false_r in H.
    destruct n; [|discriminate]. destruct t; reflexivity.
  - apply orb_true_iff in H as [H|H].
    + apply (startsWith_app _ _ t) in H. simpl in H. now rewrite H.
    + rewrite (IH H). apply orb_true_r.
Qed.

Lemma includes_app_r (s n p : string) :
  includes s n = true -> includes (p ++ s) n = true.
Proof.
  intros H. induction p as [|x p IH]; simpl; [exact H|].
  rewrite IH. apply orb_true_r.
Qed.

Lemma includes_refl (s : string) : includes s s = true.
Proof. destruct s; simpl; [reflexivity|]. now rewrite Ascii.eqb_refl, startsWith_refl. Qed.

Lemma includes_trans (s m n : string) :
  includes s m = true -> includes m n = true -> includes s n = true.
Proof.
  intros Hsm Hmn. induction s as [|x s IH].
  - simpl in Hsm. rewrite orb_false_r in Hsm.
    destruct m; [exact Hmn | discriminate].
  - change (includes (String x s) m)
      with (startsWith (String x s) m || includes s m) in Hsm.
    apply orb_true_iff in Hsm as [H|H].
    + destruct (startsWith_spec _ _ H) as [r Hr]. rewrite Hr.
      now apply includes_app_l.
    + change (includes (String x s) n)
        with (startsWith (String x s) n || includes s n).
      rewrite (IH H). apply orb_true_r.
Qed.

Lemma startsWith_hasChar (c : ascii) (s p : string) :
  startsWith s p = true -> hasChar c p = true -> hasChar c s = true.
Proof.
  intros H. destruct (startsWith_spec _ _ H) as [r ->]. clear H.
  induction p as [|b p IH]; simpl; [discriminate|].
  intros Hc. apply orb_true_iff in Hc as [Hc|Hc].
  - now rewrite Hc.
  - rewrite (IH Hc). apply orb_true_r.
Qed.

Lemma includes_hasChar (c : ascii) (s n : string) :
  includes s n = true -> hasChar c n = true -> hasChar c s = true.
Proof.
  intros H Hc. induction s as [|x s IH].
  - simpl in H. rewrite orb_false_r in H.
    destruct n; [discriminate Hc | discriminate H].
  - change (includes (String x s) n)
      with (startsWith (String x s) n || includes s n) in H.
    apply orb_true_iff in H as [H|H].
    + exact (startsWith_hasChar _ _ _ H Hc).
    + simpl. rewrite (IH H). apply orb_true_r.
Qed.

Lemma lastChar_hasChar (c : ascii) (n : string) :
  lastChar n = Some c -> hasChar c n = true.
Proof.
  induction n as [|b n IH]; simpl; [discriminate|].
  destruct n as [|b' n].
  - intros [= ->]. now rewrite Ascii.eqb_refl.
  - intros H. rewrite (IH H). apply orb_true_r.
Qed.

(** A needle that ends with [c] cannot reach into a tail without [c]. *)
Lemma startsWith_cut (c : ascii) (p t n : string) :
  lastChar n = Some c -> hasChar c t = false ->
  startsWith (p ++ t) n = true -> startsWith p n = true.
Proof.
  intros Hlast Ht. revert p.
  induction n as [|b n IH]; intros p H; [discriminate Hlast|].
  destruct p as [|a p].
  - change ("" ++ t) with t in H.
    pose proof (startsWith_hasChar c _ _ H (lastChar_hasChar _ _ Hlast)).
    congruence.
  - simpl in H |- *. apply andb_true_iff in H as [Hab H]. rewrite Hab. simpl.
    destruct n as [|b' n]; [reflexivity|].
    apply IH; [exact Hlast | exact H].
Qed.

Lemma includes_cut (c : ascii) (p t n : string) :
  lastChar n = Some c -> hasChar c t = false ->
  includes (p ++ t) n = true -> includes p n = true.
Proof.
  intros Hlast Ht. induction p as [|a p IH]; intros H.
  - simpl in H.
    pose proof (includes_hasChar c _ _ H (lastChar_hasChar _ _ Hlast)).
    congruence.
  - change (includes (String a p ++ t) n)
      with (startsWith (String a p ++ t) n || includes (p ++ t) n) in H.
    change (includes (String a p) n)
      with (startsWith (String a p) n || includes p n).
    apply orb_true_iff in H as [H|H].
    + now rewrite (startsWith_cut c _ _ _ Hlast Ht H).
    + rewrite (IH H). apply orb_true_r.
Qed.

(** A needle without [c] lies on one side of a separator [c]. *)
Lemma startsWith_sep (c : ascii) (p a n : string) :
  hasChar c n = false ->
  startsWith (p ++ String c a) n = true -> startsWith p n = true.
Proof.
  revert p. induction n as [|b n IH]; intros p Hn H; [reflexivity|].
  simpl in Hn. apply orb_false_iff in Hn as [Hbc Hn].
  destruct p as [|x p]; simpl in H |- *.
  - apply andb_true_iff in H as [H _].
    apply Ascii.eqb_eq in H. subst b. now rewrite Ascii.eqb_refl in Hbc.
  - apply andb_true_iff in H as [Hxb H]. rewrite Hxb. simpl.
    now apply IH.
Qed.

Lemma includes_sep (c : ascii) (p a n : string) :
  hasChar c n = false ->
  includes (p ++ String c a) n = true ->
  includes p n = true \/ includes a n = true.
Proof.
  intros Hn. induction p as [|x p IH]; intros H.
  - change (includes ("" ++ String c a) n)
      with (startsWith (String c a) n || includes a n) in H.
    apply orb_true_iff in H as [H|H]; [|now right].
    left. apply (startsWith_sep c "" a n Hn) in H.
    simpl. now rewrite H.
  - change (includes (String x p ++ String c a) n)
      with (startsWith (String x p ++ String c a) n
            || includes (p ++ String c a) n) in H.
    change (includes (String x p) n)
      with (startsWith (String x p) n || includes p n).
    apply orb_true_iff in H as [H|H].
    + left. now rewrite (startsWith_sep c _ _ _ Hn H).
    + destruct (IH H) as [H'|H']; [left | now right].
      rewrite H'. apply orb_true_r.
Qed.

Lemma allChars_takeWhile (f : ascii -> bool) (s : string) :
  allChars f (takeWhile f s) = true.
Proof.
  induction s as [|x s IH]; simpl; [reflexivity|].
  destruct (f x) eqn:E; simpl; [now rewrite E|reflexivity].
Qed.

Lemma takeWhile_dropWhile (f : ascii -> bool) (s : string) :
  takeWhile f s ++ dropWhile f s = s.
Proof.
  induction s as [|x s IH]; simpl; [reflexivity|].
  destruct (f x); simpl; [now rewrite IH | reflexivity].
Qed.

Lemma takeWhile_all (f : ascii -> bool) (s : string) :
  allChars f s = true -> takeWhile f s = s.
Proof.
  induction s as [|x s IH]; simpl; [reflexivity|].
  intros H. apply andb_true_iff in H as [Hx H]. now rewrite Hx, IH.
Qed.

Lemma takeWhile_stop (f : ascii -> bool) (s t : string) (c : ascii) :
  allChars f s = true -> f c = false ->
  takeWhile f (s ++ String c t) = s.
Proof.
  intros Hs Hc. induction s as [|x s IH]; simpl in *.
  - now rewrite Hc.
  - apply andb_true_iff in Hs as [Hx Hs]. now rewrite Hx, IH.
Qed.

Lemma dropWhile_stop (f : ascii -> bool) (s t : string) (c : ascii) :
  allChars f s = true -> f c = false ->
  dropWhile f (s ++ String c t) = String c t.
Proof.
  intros Hs Hc. induction s as [|x s IH]; simpl in *.
  - now rewrite Hc.
  - apply andb_true_iff in Hs as [Hx Hs]. now rewrite Hx, IH.
Qed.

Lemma allChars_hasChar (f : ascii -> bool) (c : ascii) (s : string) :
  allChars f s = true -> f c = false -> hasChar c s = false.
Proof.
  intros Hs Hc. induction s as [|x s IH]; simpl in *; [reflexivity|].
  apply andb_true_iff in Hs as [Hx Hs]. rewrite (IH Hs), orb_false_r.
  destruct (Ascii.eqb x c) eqn:E; [|reflexivity].
  apply Ascii.eqb_eq in E. congruence.
Qed.

End JsFacts.

(** ** URL rewriting *)

Section UrlRewriting.
Import Js JsFacts.

Lemma detectBaseUrl_cases (url : string) :
  detectBaseUrl url = "https://integration.familysearch.org"
  \/ detectBaseUrl url = "https://beta.familysearch.org"
  \/ detectBaseUrl url = "https://www.familysearch.org".
Proof.
  unfold detectBaseUrl.
  destruct (_ || _); [now left|].
  destruct (_ || _); [right; now left | right; now right].
Qed.

Lemma matchPersonId_eq (s : string) :
  matchPersonId s =
  match personIdAt s with
  | Some id => Some id
  | None =>
      match s with
      | EmptyString => None
      | String _ s' => matchPersonId s'
      end
  end.
Proof. destruct s; reflexivity. Qed.

Lemma matchArk_eq (s : string) :
  matchArk s =
  match arkAt s with
  | Some m => Some m
  | None =>
      match s with
      | EmptyString => None
      | String _ s' => matchArk s'
      end
  end.
Proof. destruct s; reflexivity. Qed.

Lemma matchPersonId_noSlash (s id : string) :
  matchPersonId s = Some id -> hasChar "/" id = false.
Proof.
  induction s as [|a s IH]; rewrite matchPersonId_eq;
    unfold personIdAt;
    destruct (startsWith _ "persons/");
    try destruct (isEmpty (takeWhile _ _)) eqn:E;
    try discriminate; try exact IH;
    intros [= <-];
    (apply allChars_hasChar with (f := notSlashQuery);
     [apply allChars_takeWhile | reflexivity]).
Qed.

(** The rewritten person URL is no API URL any more. *)
Lemma person_url_not_api (url id : string) :
  hasChar "/" id = false ->
  includes (detectBaseUrl url ++ "/tree/person/" ++ id)
           "/platform/tree/persons/" = false.
Proof.
  intros Hid.
  destruct (includes _ _) eqn:E; [exfalso | reflexivity].
  rewrite <- append_assoc in E.
  apply (includes_cut "/") in E; [| reflexivity | exact Hid].
  destruct (detectBaseUrl_cases url) as [H|[H|H]]; rewrite H in E;
    vm_compute in E; discriminate E.
Qed.

Lemma transformFamilySearchUrl_shape (url : string) :
  transformFamilySearchUrl url = url
  \/ exists id, hasChar "/" id = false
       /\ transformFamilySearchUrl url
          = detectBaseUrl url ++ "/tree/person/" ++ id.
Proof.
  unfold transformFamilySearchUrl.
  destruct (includes url _); simpl; [|now left].
  destruct (matchPersonId url) as [id|] eqn:E; [|now left].
  destruct (isEmpty id); [now left|].
  right. exists id. split; [exact (matchPersonId_noSlash _ _ E) | reflexivity].
Qed.

Lemma transformFamilySearchUrl_idempotent (url : string) :
  transformFamilySearchUrl (transformFamilySearchUrl url)
  = transformFamilySearchUrl url.
Proof.
  destruct (transformFamilySearchUrl_shape url) as [H|[id [Hid H]]].
  - rewrite H. exact H.
  - rewrite H. unfold transformFamilySearchUrl at 1.
    now rewrite person_url_not_api.
Qed.

Lemma arkAt_spec (s m : string) :
  arkAt s = Some m -> isArk m /\ startsWith s m = true.
Proof.
  unfold arkAt.
  destruct (startsWith s "ark:/") eqn:Hs; [|discriminate].
  destruct (startsWith_spec _ _ Hs) as [r ->].
  change (drop 5 ("ark:/" ++ r)) with r.
  destruct (isEmpty (takeWhile notSlashQuery r)) eqn:Hx; [discriminate|].
  destruct (dropWhile notSlashQuery r) as [|c rest] eqn:Hd; [discriminate|].
  destruct (Ascii.eqb c "/") eqn:Hc; [|discriminate].
  apply Ascii.eqb_eq in Hc. subst c.
  destruct (isEmpty (takeWhile notSlashQuery rest)) eqn:Hy; [discriminate|].
  intros [= <-]. split.
  - exists (takeWhile notSlashQuery r), (takeWhile notSlashQuery rest).
    repeat split; auto using allChars_takeWhile.
  - rewrite <- (takeWhile_dropWhile notSlashQuery r) at 1. rewrite Hd.
    rewrite <- (takeWhile_dropWhile notSlashQuery rest) at 1.
    set (x := takeWhile notSlashQuery r).
    set (y := takeWhile notSlashQuery rest).
    replace ("ark:/" ++ x ++ String "/" (y ++ dropWhile notSlashQuery rest))
      with (("ark:/" ++ x ++ "/" ++ y) ++ dropWhile notSlashQuery rest).
    + apply startsWith_append.
    + simpl. do 5 f_equal. rewrite append_assoc. reflexivity.
Qed.

Lemma matchArk_spec (s m : string) :
  matchArk s = Some m -> isArk m /\ includes s m = true.
Proof.
  induction s as [|a s IH]; [discriminate|].
  rewrite matchArk_eq.
  change (includes (String a s) m)
    with (startsWith (String a s) m || includes s m).
  destruct (arkAt (String a s)) as [m'|] eqn:E.
  - intros [= <-]. destruct (arkAt_spec _ _ E) as [H1 H2].
    split; [exact H1 | now rewrite H2].
  - intros H. destruct (IH H) as [H1 H2]. split; [exact H1|].
    rewrite H2. apply orb_true_r.
Qed.

Lemma arkAt_exact (m : string) : isArk m -> arkAt m = Some m.
Proof.
  intros (x & y & -> & Hx & Hy & Hax & Hay).
  unfold arkAt.
  rewrite startsWith_append.
  change (drop 5 ("ark:/" ++ x ++ "/" ++ y)) with (x ++ String "/" y).
  rewrite (takeWhile_stop notSlashQuery x y "/" Hax eq_refl), Hx.
  rewrite (dropWhile_stop notSlashQuery x y "/" Hax eq_refl).
  rewrite Ascii.eqb_refl, (takeWhile_all _ _ Hay), Hy.
  reflexivity.
Qed.

Lemma startsWith_append_false (p n m : string) :
  startsWith p n = false -> startsWith n p = false ->
  startsWith (p ++ m) n = false.
Proof.
  revert p. induction n as [|b n IH]; intros p H1 H2; [discriminate H1|].
  destruct p as [|a p]; [discriminate H2|].
  simpl in *. destruct (Ascii.eqb a b) eqn:E; [|reflexivity].
  simpl in *. apply Ascii.eqb_eq in E. subst b.
  rewrite Ascii.eqb_refl in H2. simpl in H2. now apply IH.
Qed.

Lemma matchArk_skip (p m : string) :
  clearOf "ark:/" p = true -> matchArk (p ++ m) = matchArk m.
Proof.
  induction p as [|a p IH]; intros H; [reflexivity|].
  change (clearOf "ark:/" (String a p))
    with (negb (startsWith (String a p) "ark:/")
          && negb (startsWith "ark:/" (String a p))
          && clearOf "ark:/" p) in H.
  apply andb_true_iff in H as [H H3]. apply andb_true_iff in H as [H1 H2].
  apply negb_true_iff in H1, H2.
  rewrite matchArk_eq. unfold arkAt.
  rewrite (startsWith_append_false _ _ m H1 H2).
  exact (IH H3).
Qed.

(** The environment detected in a rewritten source URL is the one
    detected in the URL it was made from. *)
Lemma detectBaseUrl_stable (url ark : string) :
  includes url ark = true ->
  detectBaseUrl (detectBaseUrl url ++ "/" ++ ark) = detectBaseUrl url.
Proof.
  intros Hark.
  assert (Hfalse : forall n, includes url n = false ->
             forall base,
             hasChar "/" n = false -> includes base n = false ->
             includes (base ++ "/" ++ ark) n = false).
  { intros n Hu base Hn Hb.
    destruct (includes (base ++ "/" ++ ark) n) eqn:E; [|reflexivity].
    destruct (includes_sep "/" _ _ _ Hn E) as [H|H]; [congruence|].
    rewrite (includes_trans _ _ _ Hark H) in Hu. discriminate. }
  unfold detectBaseUrl at 2 3.
  destruct (includes url "integration.familysearch.org"
            || includes url "api-integ.familysearch.org") eqn:Hi.
  { unfold detectBaseUrl.
    rewrite (includes_app_l "https://integration.familysearch.org"
               "integration.familysearch.org" ("/" ++ ark) eq_refl).
    reflexivity. }
  apply orb_false_iff in Hi as [Hi1 Hi2].
  destruct (includes url "beta.familysearch.org"
            || includes url "apibeta.familysearch.org") eqn:Hb.
  { unfold detectBaseUrl.
    rewrite !Hfalse by first [assumption | reflexivity].
    rewrite (includes_app_l "https://beta.familysearch.org"
               "beta.familysearch.org" ("/" ++ ark) eq_refl).
    reflexivity. }
  apply orb_false_iff in Hb as [Hb1 Hb2].
  unfold detectBaseUrl.
  rewrite !Hfalse by first [assumption | reflexivity].
  reflexivity.
Qed.

Lemma matchArk_rewritten (url ark : string) :
  isArk ark -> matchArk (detectBaseUrl url ++ "/" ++ ark) = Some ark.
Proof.
  intros Hark. rewrite <- append_assoc.
  rewrite matchArk_skip.
  - rewrite matchArk_eq, (arkAt_exact _ Hark). reflexivity.
  - destruct (detectBaseUrl_cases url) as [H|[H|H]]; rewrite H; reflexivity.
Qed.

Lemma transformSourceUrl_idempotent (url : string) :
  transformSourceUrl (transformSourceUrl url) = transformSourceUrl url.
Proof.
  assert (H : transformSourceUrl url = url
              \/ exists ark, isArk ark /\ includes url ark = true
                   /\ transformSourceUrl url
                      = detectBaseUrl url ++ "/" ++ ark).
  { unfold transformSourceUrl.
    destruct (isEmpty url); [now left|].
    destruct (_ && _); [now left|].
    destruct (matchArk url) as [ark|] eqn:E; [|now left].
    right. exists ark. destruct (matchArk_spec _ _ E). auto. }
  destruct H as [H|(ark & Hark & Hin & H)].
  - rewrite H. exact H.
  - rewrite H. unfold transformSourceUrl at 1.
    rewrite (matchArk_rewritten url ark Hark),
      (detectBaseUrl_stable url ark Hin).
    destruct (isEmpty _); [reflexivity|].
    destruct (_ && _); reflexivity.
Qed.

End UrlRewriting.

(** C10. Both URL rewriting functions are idempotent: rewriting a URL that
    was already rewritten gives it back unchanged, for every input string. *)
Theorem url_rewriting_idempotent (url : string) :
  transformFamilySearchUrl (transformFamilySearchUrl url)
  = transformFamilySearchUrl url
  /\ transformSourceUrl (transformSourceUrl url) = transformSourceUrl url.
Proof.
  split.
  - apply transformFamilySearchUrl_idempotent.
  - apply transformSourceUrl_idempotent.
Qed.

(** ** Maps, sets and folds *)

Section ContainerFacts.

Lemma fold_left_invariant {A B : Type} (P : A -> Prop) (f : A -> B -> A)
  (l : list B) (a : A) :
  P a -> (forall a b, In b l -> P a -> P (f a b)) -> P (fold_left f l a).
Proof.
  revert a. induction l as [|b l IH]; intros a Ha Hstep; simpl; [exact Ha|].
  apply IH.
  - apply Hstep; [now left | exact Ha].
  - intros a' b' Hb'. apply Hstep. now right.
Qed.

Lemma setHas_In (s : JsSet) (k : string) : setHas s k = true <-> In k s.
Proof.
  unfold setHas. rewrite existsb_exists. split.
  - intros (x & Hx & E). apply String.eqb_eq in E. now subst.
  - intros H. exists k. split; [exact H | apply String.eqb_refl].
Qed.

Lemma setHas_false (s : JsSet) (k : string) : setHas s k = false <-> ~ In k s.
Proof.
  rewrite <- setHas_In. destruct (setHas s k); split; congruence.
Qed.

Lemma In_push {A : Type} (l : list A) (x y : A) :
  In y (push l x) <-> In y l \/ y = x.
Proof.
  unfold push. rewrite in_app_iff. simpl. intuition.
Qed.

Lemma In_setAdd (s : JsSet) (k x : string) :
  In x (setAdd s k) <-> In x s \/ x = k.
Proof.
  unfold setAdd. destruct (setHas s k) eqn:E.
  - apply setHas_In in E. split; [now left|]. intros [H| ->]; assumption.
  - apply In_push.
Qed.

Lemma In_fold_setAdd (l : list string) (s : JsSet) (x : string) :
  In x (fold_left setAdd l s) <-> In x s \/ In x l.
Proof.
  revert s. induction l as [|k l IH]; intros s; simpl.
  - intuition.
  - rewrite IH, In_setAdd. intuition.
Qed.

Lemma In_setOfList (l : list string) (x : string) :
  In x (setOfList l) <-> In x l.
Proof. unfold setOfList. rewrite In_fold_setAdd. simpl. intuition. Qed.

Lemma anyIn_spec (c : JsSet) (ids : list string) :
  anyIn c ids = true <-> exists y, In y ids /\ In y c.
Proof.
  unfold anyIn. rewrite existsb_exists.
  split; intros (y & H1 & H2); exists y; split; auto; now apply setHas_In.
Qed.

Lemma mapGet_In {V : Type} (m : JsMap V) (k : string) (v : V) :
  mapGet m k = Some v -> In (k, v) m.
Proof.
  induction m as [|[k' v'] m IH]; simpl; [discriminate|].
  destruct (String.eqb k' k) eqn:E.
  - apply String.eqb_eq in E. intros [= ->]. subst. now left.
  - intros H. right. now apply IH.
Qed.

Lemma mapHas_keys {V : Type} (m : JsMap V) (k : string) :
  mapHas m k = true <-> In k (mapKeys m).
Proof.
  unfold mapHas, mapKeys.
  induction m as [|[k' v'] m IH]; simpl; [split; [discriminate | tauto]|].
  destruct (String.eqb k' k) eqn:E.
  - apply String.eqb_eq in E. split; auto.
  - apply String.eqb_neq in E. rewrite IH. split; [auto | intros [H|H]; congruence].
Qed.

Lemma mapKeys_mapSet {V : Type} (m : JsMap V) (k : string) (v : V) :
  mapKeys (mapSet m k v)
  = if mapHas m k then mapKeys m else push (mapKeys m) k.
Proof.
  unfold mapHas, mapKeys, push.
  induction m as [|[k' v'] m IH]; simpl; [reflexivity|].
  destruct (String.eqb k' k) eqn:E; simpl.
  - apply String.eqb_eq in E. now subst.
  - rewrite IH. now destruct (mapGet m k).
Qed.

Lemma mapGet_mapSet {V : Type} (m : JsMap V) (k k' : string) (v : V) :
  mapGet (mapSet m k v) k' = if String.eqb k k' then Some v else mapGet m k'.
Proof.
  induction m as [|[k0 v0] m IH]; simpl.
  - reflexivity.
  - destruct (String.eqb k0 k) eqn:E; simpl.
    + apply String.eqb_eq in E. subst k0. now destruct (String.eqb k k').
    + rewrite IH. destruct (String.eqb k0 k') eqn:E'; [|reflexivity].
      apply String.eqb_eq in E'. subst k0. now rewrite String.eqb_sym, E.
Qed.

(** The entries of [mapSet m k v]: those of [m] under other keys, and
    [(k, v)]. *)
Lemma In_mapSet {V : Type} (m : JsMap V) (k : string) (v : V)
  (e : string * V) :
  In e (mapSet m k v) -> e = (k, v) \/ In e m.
Proof.
  induction m as [|[k0 v0] m IH]; simpl.
  - intuition.
  - destruct (String.eqb k0 k); simpl; intuition.
Qed.

End ContainerFacts.

(** ** The connectivity resolver *)

Section Resolver.
Variable seeds : JsSet.
Variable families : JsMap Family.
Variable childToParents : JsMap (list string).

Local Abbreviation universe := (resolverUniverse families childToParents).
Local Abbreviation Justified := (Reachable seeds families childToParents).
Local Abbreviation Sound := (Sound Justified).
Local Abbreviation Good := (Good universe Justified).
Local Abbreviation Closed := (Closed families childToParents).


Lemma child_in_universe child parents :
  In (child, parents) childToParents -> In child universe.
Proof.
  intros H. apply in_or_app. left.
  change child with (fst (child, parents)). now apply in_map.
Qed.

Lemma spouse_in_universe key family x :
  In (key, family) families -> In x (spouses family) -> In x universe.
Proof.
  intros H Hx. apply in_or_app. right. apply in_flat_map.
  now exists (key, family).
Qed.

Lemma addIfNew_good c st id :
  In id universe -> Justified id -> Good c st -> Good c (addIfNew st id).
Proof.
  intros Hu Hj (Hincl & Hflag & Hsound). unfold addIfNew.
  destruct (setHas (fst st) id) eqn:E; simpl; [now repeat split|].
  apply setHas_false in E. repeat split; simpl.
  - intros x Hx. apply In_setAdd. left. now apply Hincl.
  - intros _. exists id. repeat split; auto.
    apply In_setAdd. now right.
  - intros x Hx. apply In_setAdd in Hx as [Hx| ->]; [now apply Hsound | exact Hj].
Qed.

Lemma addIfNew_stable st id :
  snd (addIfNew st id) = false -> addIfNew st id = st.
Proof.
  unfold addIfNew. destruct (setHas (fst st) id); simpl; [reflexivity | discriminate].
Qed.

Lemma addIfNew_fixed st id : addIfNew st id = st -> In id (fst st).
Proof.
  unfold addIfNew. destruct (setHas (fst st) id) eqn:E.
  - intros _. now apply setHas_In.
  - intros H. apply (f_equal fst) in H. simpl in H.
    apply setHas_false in E. exfalso. apply E. rewrite <- H.
    apply In_setAdd. now right.
Qed.

Lemma fold_stable {E : Type} (step : JsSet * bool -> E -> JsSet * bool)
  (l : list E) (st : JsSet * bool) :
  (forall st e, snd (step st e) = false -> step st e = st) ->
  snd (fold_left step l st) = false ->
  fold_left step l st = st /\ forall e, In e l -> step st e = st.
Proof.
  intros Hstep. revert st.
  induction l as [|e l IH]; intros st H; simpl in *;
    [split; [reflexivity | intros e []]|].
  destruct (IH _ H) as [H1 H2].
  assert (Hst : step st e = st).
  { apply Hstep. rewrite <- H1. exact H. }
  rewrite Hst in *. split; [exact H1|].
  intros e' [<-|He']; auto.
Qed.

(** *** Rule 3a *)

Lemma addChildren_fold st :
  addChildren childToParents st = fold_left childStep childToParents st.
Proof. reflexivity. Qed.

Lemma childStep_stable st e :
  snd (childStep st e) = false -> childStep st e = st.
Proof.
  destruct e as [child parents]. simpl.
  destruct (anyIn _ _); [apply addIfNew_stable | reflexivity].
Qed.

Lemma addChildren_good c st :
  Good c st -> Good c (addChildren childToParents st).
Proof.
  intros H. rewrite addChildren_fold.
  apply fold_left_invariant; [exact H|].
  intros st' [child parents] Hin Hgood. simpl.
  destruct (anyIn (fst st') parents) eqn:E; [|exact Hgood].
  apply anyIn_spec in E as (p & Hp & Hpc).
  apply addIfNew_good; [now apply (child_in_universe child parents) | | exact Hgood].
  apply (reach_child _ _ _ child parents p); auto.
  destruct Hgood as (_ & _ & Hs). now apply Hs.
Qed.

(** *** Rule 3b *)

Lemma addSpouses_fold st :
  addSpouses families st = fold_left spouseStep families st.
Proof.
  unfold addSpouses. f_equal.
Qed.

Lemma spouseStep_stable st e :
  snd (spouseStep st e) = false -> spouseStep st e = st.
Proof.
  destruct e as [key family]. simpl.
  destruct (_ || _); [|reflexivity].
  intros H. now apply (fold_stable addIfNew _ _ addIfNew_stable).
Qed.

Lemma addSpouses_good c st :
  Good c st -> Good c (addSpouses families st).
Proof.
  intros H. rewrite addSpouses_fold.
  apply fold_left_invariant; [exact H|].
  intros st' [key family] Hin Hgood. simpl.
  destruct (_ || _) eqn:E; [|exact Hgood].
  assert (Hy : exists y, In y (spouses family +++ children family)
                         /\ Justified y).
  { destruct Hgood as (_ & _ & Hs).
    apply orb_true_iff in E as [E|E];
      apply anyIn_spec in E as (y & Hy & Hyc);
      exists y; (split; [apply in_or_app; auto | now apply Hs]). }
  destruct Hy as (y & Hy & Hjy).
  apply fold_left_invariant; [exact Hgood|].
  intros st'' x Hx Hgood'.
  apply addIfNew_good; [now apply (spouse_in_universe key family) | | exact Hgood'].
  now apply (reach_spouse _ _ _ key family x y).
Qed.

(** *** One pass *)

Lemma Good_start c : Sound c -> Good c (c, false).
Proof.
  intros H. repeat split; simpl; [apply incl_refl | discriminate | exact H].
Qed.

Lemma pass_state_good c :
  Sound c ->
  Good c (addSpouses families (addChildren childToParents (c, false))).
Proof.
  intros H. now apply addSpouses_good, addChildren_good, Good_start.
Qed.

Lemma pass_state_stable c :
  snd (addSpouses families (addChildren childToParents (c, false))) = false ->
  addSpouses families (addChildren childToParents (c, false)) = (c, false)
  /\ Closed c.
Proof.
  intros H. rewrite addSpouses_fold in H |- *.
  destruct (fold_stable spouseStep _ _ spouseStep_stable H) as [H1 H2].
  rewrite H1 in H |- *.
  rewrite addChildren_fold in H, H2 |- *.
  destruct (fold_stable childStep _ _ childStep_stable H) as [H3 H4].
  rewrite H3 in H2. split; [exact H3|]. split.
  - intros child parents Hin Hany.
    specialize (H4 _ Hin). simpl in H4. rewrite Hany in H4.
    exact (addIfNew_fixed _ _ H4).
  - intros key family Hin Hany x Hx.
    specialize (H2 _ Hin). simpl in H2. rewrite Hany in H2.
    assert (Hs : snd (fold_left addIfNew (spouses family) (c, false)) = false)
      by now rewrite H2.
    destruct (fold_stable addIfNew _ _ addIfNew_stable Hs) as [_ H5].
    exact (addIfNew_fixed _ _ (H5 _ Hx)).
Qed.

Lemma missing_le c : missing universe c <= List.length universe.
Proof. apply filter_length_le. Qed.

Lemma missing_decreases (l : list string) c c' u :
  incl c c' -> In u l -> ~ In u c -> In u c' ->
  missing l c' < missing l c.
Proof.
  intros Hincl Hu Hc Hc'. unfold missing.
  induction l as [|v l IH]; [destruct Hu|]. simpl.
  assert (Hle : List.length (filter (fun u => negb (setHas c' u)) l)
                <= List.length (filter (fun u => negb (setHas c u)) l)).
  { clear -Hincl. induction l as [|w l IHl]; simpl; [lia|].
    destruct (setHas c' w) eqn:E'; destruct (setHas c w) eqn:E; simpl; try lia.
    apply setHas_In in E. apply setHas_false in E'. elim E'. now apply Hincl. }
  destruct Hu as [->|Hu].
  - apply setHas_In in Hc'. apply setHas_false in Hc.
    rewrite Hc, Hc'. simpl. lia.
  - specialize (IH Hu).
    destruct (setHas c' v) eqn:E'; destruct (setHas c v) eqn:E; simpl; try lia.
    apply setHas_In in E. apply setHas_false in E'. elim E'. now apply Hincl.
Qed.

(** A pass never removes, keeps every member justified, and either
    adds a person of the universe or leaves a closed set. *)
Lemma resolverPass_spec c :
  Sound c ->
  let '(c', added) := resolverPass families childToParents c in
  incl c c' /\ Sound c'
  /\ (added = true -> missing universe c' < missing universe c)
  /\ (added = false -> c' = c /\ Closed c).
Proof.
  intros Hs. unfold resolverPass.
  set (st := addSpouses families (addChildren childToParents (c, false))).
  destruct (pass_state_good c Hs) as (Hincl & Hflag & Hsound).
  fold st in Hincl, Hflag, Hsound.
  assert (Hst : snd st = false -> st = (c, false) /\ Closed c)
    by apply pass_state_stable.
  assert (Hflag' :
            (if Nat.ltb (List.length c) (List.length (fst st))
             then negb (Nat.eqb (List.length (fst st)) (List.length c))
             else snd st) = snd st).
  { destruct (Nat.ltb _ _) eqn:E; [|reflexivity].
    apply Nat.ltb_lt in E.
    destruct (snd st) eqn:Eb.
    - apply negb_true_iff, Nat.eqb_neq. lia.
    - destruct (Hst eq_refl) as [H _]. rewrite H in E. simpl in E. lia. }
  rewrite Hflag'. split; [exact Hincl|]. split; [exact Hsound|]. split.
  - intros Hb. destruct (Hflag Hb) as (u & Hu & Huc & Hust).
    now apply (missing_decreases universe c (fst st) u).
  - intros Hb. destruct (Hst Hb) as [H Hc]. now rewrite H.
Qed.

(** *** The loop *)

Lemma resolverLoop_spec fuel c :
  Sound c -> missing universe c < fuel ->
  exists final,
    resolverLoop fuel families childToParents c = Some final
    /\ incl c final /\ Sound final /\ Closed final.
Proof.
  revert c. induction fuel as [|fuel IH]; intros c Hs Hm; [lia|].
  cbn [resolverLoop]. pose proof (resolverPass_spec c Hs) as H.
  destruct (resolverPass families childToParents c) as [c' added].
  destruct H as (Hincl & Hs' & Hadd & Hstop).
  destruct added.
  - specialize (Hadd eq_refl).
    destruct (IH c' Hs') as (final & Hf & Hi & Hsf & Hcl); [lia|].
    exists final. split; [exact Hf|]. split; [|now split].
    intros x Hx. now apply Hi, Hincl.
  - destruct (Hstop eq_refl) as [-> Hcl].
    exists c. split; [reflexivity|]. split; [apply incl_refl | now split].
Qed.

Lemma addSeeds_spec x : In x (addSeeds seeds) <-> In x seeds.
Proof. unfold addSeeds. rewrite In_fold_setAdd. simpl. intuition. Qed.

Lemma addAncestrySpouses_spec c :
  Sound c ->
  incl c (addAncestrySpouses families c)
  /\ Sound (addAncestrySpouses families c).
Proof.
  intros Hs. unfold addAncestrySpouses.
  apply (fold_left_invariant (fun s => incl c s /\ Sound s)).
  - split; [apply incl_refl | exact Hs].
  - intros s [key family] Hin [Hincl Hsound]. simpl.
    destruct (anyIn s (spouses family)) eqn:E; [|now split].
    apply anyIn_spec in E as (y & Hy & Hyc). split.
    + intros x Hx. apply In_fold_setAdd. left. now apply Hincl.
    + intros x Hx. apply In_fold_setAdd in Hx as [Hx|Hx]; [now apply Hsound|].
      apply (reach_spouse _ _ _ key family x y);
        [exact Hin | exact Hx | apply in_or_app; now left | now apply Hsound].
Qed.

(** The seeded resolver finishes, and its result is exactly the set of
    justified persons. *)
Lemma resolveFrom_spec :
  exists final,
    resolveFrom seeds families childToParents = Some final
    /\ forall x, In x final <-> Justified x.
Proof.
  assert (H0 : Sound (addSeeds seeds)).
  { intros x Hx. apply reach_seed. now apply addSeeds_spec. }
  destruct (addAncestrySpouses_spec _ H0) as [Hincl Hsound].
  destruct (resolverLoop_spec (resolverFuel families childToParents)
              _ Hsound) as (final & Hf & Hi & Hs & Hc).
  { unfold resolverFuel. fold universe.
    pose proof (missing_le (addAncestrySpouses families (addSeeds seeds))).
    lia. }
  exists final. split; [exact Hf|]. intros x. split; [apply Hs|].
  induction 1 as [x Hx | key family x y Hin Hx Hy _ IH
                 | child parents p Hin Hp _ IH].
  - apply Hi, Hincl. now apply addSeeds_spec.
  - destruct Hc as [_ Hc]. apply (Hc key family Hin); [|exact Hx].
    apply in_app_or in Hy. apply orb_true_iff.
    destruct Hy as [Hy|Hy]; [left|right]; apply anyIn_spec; now exists y.
  - destruct Hc as [Hc _]. apply (Hc child parents Hin).
    apply anyIn_spec. now exists p.
Qed.

(** Outside the loop, rule 3a is the only one that reads the
    parent-child edges, and it adds children only. *)
Lemma addChildren_only_children st x :
  In x (fst (addChildren childToParents st)) ->
  In x (fst st) \/ exists parents, In (x, parents) childToParents.
Proof.
  rewrite addChildren_fold.
  apply (fold_left_invariant
           (fun s => In x (fst s) ->
                     In x (fst st) \/ exists parents, In (x, parents) childToParents)).
  - now left.
  - intros s [child parents] Hin IH. simpl.
    destruct (anyIn _ parents); [|exact IH].
    unfold addIfNew. destruct (setHas _ child); simpl; [exact IH|].
    intros Hx. apply In_setAdd in Hx as [Hx| ->]; [now apply IH|].
    right. now exists parents.
Qed.

End Resolver.

(** *** Monotonicity, pass by pass *)

Lemma addIfNew_incl (st : JsSet * bool) (id : string) :
  incl (fst st) (fst (addIfNew st id)).
Proof.
  unfold addIfNew. destruct (setHas (fst st) id); simpl; [apply incl_refl|].
  intros x Hx. apply In_setAdd. now left.
Qed.

Lemma resolverPass_incl (families : JsMap Family)
  (childToParents : JsMap (list string)) (c : JsSet) :
  incl c (fst (resolverPass families childToParents c)).
Proof.
  unfold resolverPass. simpl. unfold addSpouses, addChildren.
  apply (fold_left_invariant (fun st => incl c (fst st))).
  - apply (fold_left_invariant (fun st => incl c (fst st))).
    + apply incl_refl.
    + intros st [child parents] _ H. simpl.
      destruct (anyIn _ parents); [|exact H].
      eapply incl_tran; [exact H | apply addIfNew_incl].
  - intros st [key family] _ H. simpl.
    destruct (_ || _); [|exact H].
    apply (fold_left_invariant (fun st => incl c (fst st))); [exact H|].
    intros st' x _ H'. eapply incl_tran; [exact H' | apply addIfNew_incl].
Qed.

Lemma connectablePersons_total (seeds : option JsSet)
  (families : JsMap Family) (childToParents : JsMap (list string)) :
  exists c, connectablePersons seeds families childToParents = Some c.
Proof.
  unfold connectablePersons.
  destruct seeds as [ids|]; [|eauto].
  destruct (Nat.ltb 0 (List.length ids)); [|eauto].
  destruct (resolveFrom_spec ids families childToParents) as (final & H & _).
  eauto.
Qed.

(** ** The conversion on the persons as received *)

(** Whether the notes stop the call does not depend on the lines pushed
    before them. *)
Lemma forEachNote_stops (items : list JsValue) (lines lines' : list string) :
  forEachNote items lines = TypeError ->
  forEachNote items lines' = TypeError.
Proof.
  revert lines lines'.
  induction items as [|note rest IH]; intros lines lines'; [discriminate|].
  cbn [forEachNote]. unfold pushNote.
  destruct (Unknown.nullish note); [reflexivity|].
  destruct (Unknown.field "text" note) as [| |b|n|text|items|properties];
    cbn [Unknown.truthy]; try apply IH.
  - destruct b; [reflexivity | apply IH].
  - destruct (negb (Z.eqb n 0)); [reflexivity | apply IH].
  - reflexivity.
  - reflexivity.
Qed.

Lemma pushNotes_stops (includeNotes : bool) (notes : JsValue)
  (lines lines' : list string) :
  pushNotes includeNotes notes lines = TypeError ->
  includeNotes = true /\ pushNotes true notes lines' = TypeError.
Proof.
  unfold pushNotes. destruct includeNotes; [|discriminate].
  cbn [andb]. destruct (Unknown.truthy (notesOf notes)); [|discriminate].
  intros H. split; [reflexivity|].
  destruct (notesOf notes); try reflexivity.
  eapply forEachNote_stops, H.
Qed.

(** Where the notes do not stop the call, they push the lines of the
    notes of the checked person. *)
Lemma forEachNote_checked (items : list JsValue) (lines out : list string) :
  forEachNote items lines = Normal out ->
  out = lines +++ noteLines true
                    {| base := Sample.data "" None; fullDetails := None;
                       notes :=
                         Some {| notes_persons :=
                                   Some [ {| person_notes :=
                                               Some (map checkedNote items)
                                          |} ] |} |}.
Proof.
  unfold noteLines. cbn [notes opt first notes_persons hd_error person_notes
                         orEmpty].
  revert lines.
  induction items as [|note rest IH]; intros lines; cbn [forEachNote map flat_map].
  - intros [= <-]. now rewrite app_nil_r.
  - unfold pushNote at 1.
    destruct (Unknown.nullish note); [discriminate|].
    change (note_text (checkedNote note))
      with (match Unknown.field "text" note with
            | JsString text => Some text
            | _ => None
            end).
    destruct (Unknown.field "text" note) as [| |b|n|text|items|properties];
      cbn [Unknown.truthy Js.truthy pushIf app];
      try (intros H; exact (IH _ H)); try discriminate.
    + destruct b; [discriminate | intros H; exact (IH _ H)].
    + destruct (negb (Z.eqb n 0)); [discriminate | intros H; exact (IH _ H)].
    + intros H. apply IH in H. rewrite H, <- app_assoc. f_equal.
      destruct text as [|c text]; reflexivity.
Qed.

Lemma pushNotes_checked (includeNotes : bool) (received : ReceivedPerson)
  (lines out : list string) :
  pushNotes includeNotes (received_notes received) lines = Normal out ->
  out = lines +++ noteLines includeNotes (checked received).
Proof.
  unfold pushNotes, noteLines, checked, checkedNotes. cbn [notes].
  destruct includeNotes; cbn [andb].
  - destruct (notesOf (received_notes received))
      as [| |b|n|text|items|properties];
      cbn [Unknown.truthy opt first notes_persons hd_error person_notes
           orEmpty flat_map];
      try (intros [= <-]; now rewrite app_nil_r); try discriminate.
    + destruct b; [discriminate | intros [= <-]; now rewrite app_nil_r].
    + destruct (negb (Z.eqb n 0));
        [discriminate | intros [= <-]; now rewrite app_nil_r].
    + destruct (negb (Js.isEmpty text));
        [discriminate | intros [= <-]; now rewrite app_nil_r].
    + intros H. apply forEachNote_checked in H. exact H.
  - intros [= <-]. now rewrite app_nil_r.
Qed.

Section Received.
Variables includeLinks includeNotes allowOrphans : bool.
Variable env : Environment.
Variable sourceMap : JsMap SourceDescription.
Variable personIdMap : JsMap string.
Variable orphanFamKeys : JsSet.
Variable personToFamKeys : JsMap JsSet.

Local Abbreviation emitOne :=
  (emitReceivedPerson includeLinks includeNotes allowOrphans env sourceMap
                      personIdMap orphanFamKeys personToFamKeys).

Lemma receivedRecord_checked (gedcomId : string) (received : ReceivedPerson)
  (record : list string) :
  receivedRecord includeLinks includeNotes env sourceMap gedcomId received
  = Normal record ->
  record = indiRecord includeLinks includeNotes env sourceMap gedcomId
                      (checked received).
Proof.
  unfold receivedRecord, indiRecord. cbv zeta.
  destruct (pushNotes includeNotes (received_notes received) _) as [lines|]
    eqn:E; [|discriminate].
  intros [= <-]. apply pushNotes_checked in E. rewrite E.
  now rewrite <- !app_assoc.
Qed.

Lemma receivedRecord_stops (gedcomId : string) (received : ReceivedPerson) :
  receivedRecord includeLinks includeNotes env sourceMap gedcomId received
  = TypeError ->
  includeNotes = true
  /\ pushNotes true (received_notes received) [] = TypeError.
Proof.
  unfold receivedRecord. cbv zeta.
  destruct (pushNotes includeNotes (received_notes received) _) as [lines|]
    eqn:E; [discriminate|].
  intros _. eapply pushNotes_stops, E.
Qed.

Lemma emitReceived_stopped (received : list ReceivedPerson) :
  fold_left emitOne received TypeError = TypeError.
Proof. induction received as [|p rest IH]; [reflexivity | exact IH]. Qed.

(** Step 5 on the persons as received: stopped by the notes of one of
    them, or the lines of step 5 on the checked persons. *)
Lemma emitReceivedPersons_spec (received : list ReceivedPerson)
  (lines : list string) :
  (fold_left emitOne received (Normal lines) = TypeError
   /\ includeNotes = true
   /\ exists p, In p received
                /\ pushNotes true (received_notes p) [] = TypeError)
  \/ fold_left emitOne received (Normal lines)
     = Normal (fold_left
                 (emitPerson includeLinks includeNotes allowOrphans env
                             sourceMap personIdMap orphanFamKeys
                             personToFamKeys)
                 (map checked received) lines).
Proof.
  revert lines.
  induction received as [|p rest IH]; intros lines; [now right|].
  cbn [fold_left map].
  assert (Hstep :
    (emitOne (Normal lines) p = TypeError
     /\ includeNotes = true
     /\ pushNotes true (received_notes p) [] = TypeError)
    \/ emitOne (Normal lines) p
       = Normal (emitPerson includeLinks includeNotes allowOrphans env
                            sourceMap personIdMap orphanFamKeys
                            personToFamKeys lines (checked p))).
  { unfold emitReceivedPerson, emitPerson, personBlock.
    destruct (mapGet personIdMap (personId (checked p))) as [gedcomId|];
      [|right; now rewrite app_nil_r].
    destruct (Js.isEmpty gedcomId); [right; now rewrite app_nil_r|].
    destruct (isOrphanPerson _ _ _ _); [right; now rewrite app_nil_r|].
    destruct (receivedRecord _ _ _ _ gedcomId p) as [record|] eqn:E.
    - right. apply receivedRecord_checked in E. now rewrite E.
    - left. split; [reflexivity|]. now apply receivedRecord_stops in E. }
  destruct Hstep as [(Hs & Hi & Hp) | Hs]; rewrite Hs.
  - left. split; [apply emitReceived_stopped|].
    split; [exact Hi|]. exists p. split; [now left | exact Hp].
  - destruct (IH (emitPerson includeLinks includeNotes allowOrphans env
                    sourceMap personIdMap orphanFamKeys personToFamKeys
                    lines (checked p))) as [(Hs' & Hi & q & Hq & Hp) | Hs'].
    + left. split; [exact Hs'|]. split; [exact Hi|].
      exists q. split; [now right | exact Hp].
    + now right.
Qed.

End Received.

Lemma emitReceived_spec (received : list ReceivedPerson)
  (options : GedcomConversionOptions) (now : JsDate) (g : Graph)
  (connectable : JsSet) :
  (emitReceived received options now g connectable = TypeError
   /\ orTrue (includeNotes options) = true
   /\ exists p, In p received
                /\ pushNotes true (received_notes p) [] = TypeError)
  \/ emitReceived received options now g connectable
     = Normal (emitRecords (map checked received) options now g connectable).
Proof.
  unfold emitReceived, emitRecords. cbv zeta.
  destruct (emitReceivedPersons_spec
              (orTrue (includeLinks options)) (orTrue (includeNotes options))
              (allowOrphansOf options) (environmentOf options)
              (g_sourceMap g) (g_personIdMap g)
              (fst (indexFamilies connectable (g_families g)))
              (snd (indexFamilies connectable (g_families g)))
              received
              (fst (emitSources (g_sourceMap g)
                      (headerLines (treeNameOf options) now))))
    as [(Hs & Hi & Hp) | Hs]; rewrite Hs.
  - left. auto.
  - now right.
Qed.

(** The outcomes of a call.  It throws its own error exactly when the
    pedigree data or its person list is missing.  With a person list it
    is stopped by a [TypeError] only where notes are included and the
    notes of a received person are no array of notes; otherwise it
    returns the lines of [convertLines] on the checked persons, joined. *)
Theorem convertToGedcom_outcome (pedigreeData : option ReceivedPedigreeData)
  (options : GedcomConversionOptions) (now : JsDate) :
  (opt pedigreeData received_persons = None
   /\ convertToGedcom pedigreeData options now
      = Threw "Invalid FamilySearch data: no persons found")
  \/ (exists data received,
         pedigreeData = Some data
         /\ received_persons data = Some received
         /\ ((convertToGedcom pedigreeData options now = ThrewTypeError
              /\ orTrue (includeNotes options) = true
              /\ exists p, In p received
                           /\ pushNotes true (received_notes p) []
                              = TypeError)
             \/ exists lines,
                  convertLines (checkedData data) (map checked received)
                               options now = Some lines
                  /\ convertToGedcom pedigreeData options now
                     = Returned (Js.join Js.newline lines))).
Proof.
  destruct pedigreeData as [data|]; cbn [opt]; [|now left].
  unfold convertToGedcom.
  destruct (received_persons data) as [received|] eqn:E; [|now left].
  right. exists data, received. split; [reflexivity|]. split; [exact E|].
  unfold convertLines, emitAll. cbv zeta.
  destruct (connectablePersons_total (ancestryPersonIds options)
              (g_families (buildGraph (checkedData data)
                                      (map checked received)))
              (g_childToParents (buildGraph (checkedData data)
                                            (map checked received))))
    as [c Hc].
  rewrite Hc.
  destruct (emitReceived_spec received options now
              (buildGraph (checkedData data) (map checked received)) c)
    as [(Hs & Hi & Hp) | Hs]; rewrite Hs.
  - left. auto.
  - right. eexists. split; reflexivity.
Qed.

(** With a person list the call returns when the notes of every received
    person can be read, or notes are left out. *)
Corollary convertToGedcom_returns (data : ReceivedPedigreeData)
  (received : list ReceivedPerson) (options : GedcomConversionOptions)
  (now : JsDate) :
  received_persons data = Some received ->
  (orTrue (includeNotes options) = true ->
   forall p, In p received ->
             pushNotes true (received_notes p) [] <> TypeError) ->
  exists lines,
    convertLines (checkedData data) (map checked received) options now
    = Some lines
    /\ convertToGedcom (Some data) options now
       = Returned (Js.join Js.newline lines).
Proof.
  intros E Hread.
  destruct (convertToGedcom_outcome (Some data) options now)
    as [[Hnone _] | (data' & received' & [= <-] & E' & H)].
  - cbn [opt] in Hnone. congruence.
  - assert (received' = received) as -> by congruence.
    destruct H as [(_ & Hi & p & Hp & Hstop) | H]; [|exact H].
    elim (Hread Hi p Hp Hstop).
Qed.

(** A person received without notes is the person of the samples. *)
Example received_without_notes :
  checked (Sample.received "A" JsUndefined) = Sample.person "A" None.
Proof. reflexivity. Qed.

(** ** C1: when the conversion aborts *)

(** C1. The claim has the conversion abort on a person list that is
    missing or empty.  On [{ persons: [], relationships: [] }] the guard
    [!pedigreeData || !pedigreeData.persons] lets the empty array pass,
    and the call returns the header, the submitter and the trailer. *)
Lemma empty_person_list_returns :
  received_persons Sample.nobody = Some []
  /\ convertToGedcom (Some Sample.nobody) noOptions Sample.date
     = Returned
         (Js.join Js.newline
            (headerLines "FamilySearch Import" Sample.date +++ ["0 TRLR"])).
Proof. split; reflexivity. Qed.

(** A person list that is present and not empty does not make the call
    return either, when the notes of a person hold a text where the
    array of notes is expected: [forEach] is called on the text. *)
Example text_for_notes_stops_the_call :
  convertToGedcom (Some (Sample.annotated Sample.textForNotes)) noOptions
                  Sample.date
  = ThrewTypeError.
Proof. vm_compute. reflexivity. Qed.

(** Notes of the expected shape are written, a line feed as a space. *)
Example two_line_note_written :
  exists before after,
    convertToGedcom (Some (Sample.annotated Sample.twoLineNote)) noOptions
                    Sample.date
    = Returned
        (Js.join Js.newline
           (before +++ ["1 NOTE born at home in winter"] +++ after)).
Proof.
  exists (headerLines "FamilySearch Import" Sample.date
          +++ ["0 @I1@ INDI"; "1 _FS_ID A";
               "1 _FS_LINK https://www.familysearch.org/tree/person/A"]).
  exists ["0 TRLR"].
  vm_compute. reflexivity.
Qed.

(** ** C3: the connectable set *)



(** The second case of the list at work.  [P] is the only parent of the
    seed [C]: the graph builder makes [P] the spouse of the family of [C],
    and the family rule adds [P] because that family has a connectable
    child. *)
Example family_rule_adds_parent :
  let g := buildGraph Sample.parentAndChild Sample.parentAndChildPeople in
  g_families g = [("single-P", {| spouses := ["P"]; children := ["C"] |})]
  /\ g_childToParents g = [("C", ["P"])]
  /\ connectablePersons (Some ["C"]) (g_families g) (g_childToParents g)
     = Some ["C"; "P"].
Proof. repeat split; reflexivity. Qed.

(** ** C6: the relationship aggregator *)

Section Aggregator.

Lemma fold_left_flat_map {A B C : Type} (f : A -> C -> A) (g : B -> list C)
  (l : list B) (a : A) :
  fold_left f (flat_map g l) a
  = fold_left (fun a x => fold_left f (g x) a) l a.
Proof.
  revert a. induction l as [|x l IH]; intros a; simpl; [reflexivity|].
  now rewrite fold_left_app, IH.
Qed.

Lemma fold_left_ext {A B : Type} (f g : A -> B -> A) (l : list B) (a : A) :
  (forall a b, f a b = g a b) -> fold_left f l a = fold_left g l a.
Proof.
  intros H. revert a. induction l as [|x l IH]; intros a; simpl; [reflexivity|].
  now rewrite H, IH.
Qed.

Lemma existsb_ids (all : list Relationship) (id : string) :
  existsb (fun r => String.eqb (rel_id r) id) all
  = existsb (fun i => String.eqb i id) (map rel_id all).
Proof. induction all as [|r all IH]; simpl; [reflexivity | now rewrite IH]. Qed.

Lemma pushIfNew_firstWins (candidates all : list Relationship) :
  fold_left pushIfNew candidates all
  = all +++ firstWins (map rel_id all) candidates.
Proof.
  revert all. induction candidates as [|r rest IH]; intros all; simpl.
  - now rewrite app_nil_r.
  - unfold pushIfNew at 2. rewrite existsb_ids.
    destruct (existsb _ (map rel_id all)); [apply IH|].
    rewrite IH. unfold push. rewrite map_app, <- app_assoc. reflexivity.
Qed.

Lemma addComposite_candidates (all : list Relationship)
  (capRel : ChildAndParentsRelationship) :
  addComposite all capRel = fold_left pushIfNew (capEdges capRel) all.
Proof.
  unfold addComposite, capEdges.
  destruct (cap_parent1 capRel), (cap_parent2 capRel), (cap_child capRel);
    reflexivity.
Qed.

Lemma addPersonRelationships_candidates (all : list Relationship)
  (person : EnhancedPerson) :
  addPersonRelationships all person
  = fold_left pushIfNew (personCandidates person) all.
Proof.
  unfold addPersonRelationships, personCandidates.
  rewrite fold_left_app, fold_left_flat_map.
  apply fold_left_ext. intros. apply addComposite_candidates.
Qed.

Lemma collectRelationships_candidates (data : EnhancedPedigreeData)
  (people : list EnhancedPerson) :
  collectRelationships data people
  = fold_left pushIfNew (flat_map personCandidates people)
              (orEmpty (relationships data)).
Proof.
  unfold collectRelationships. rewrite fold_left_flat_map.
  apply fold_left_ext. intros. apply addPersonRelationships_candidates.
Qed.

Lemma existsb_id_In (seen : list string) (id : string) :
  existsb (fun i => String.eqb i id) seen = true <-> In id seen.
Proof.
  rewrite existsb_exists. split.
  - intros (x & Hx & E). apply String.eqb_eq in E. now subst.
  - intros H. exists id. split; [exact H | apply String.eqb_refl].
Qed.

Lemma firstWins_fresh (candidates : list Relationship) (seen : list string)
  (r : Relationship) :
  In r (firstWins seen candidates) ->
  In r candidates /\ ~ In (rel_id r) seen.
Proof.
  revert seen. induction candidates as [|c rest IH]; intros seen; simpl; [tauto|].
  destruct (existsb _ seen) eqn:E.
  - intros H. destruct (IH _ H). auto.
  - intros [<-|H].
    + split; [now left|]. intros Hin. apply existsb_id_In in Hin. congruence.
    + destruct (IH _ H) as [H1 H2]. split; [now right|].
      intros Hin. apply H2. apply in_or_app. now left.
Qed.

Lemma firstWins_NoDup (candidates : list Relationship) (seen : list string) :
  NoDup (map rel_id (firstWins seen candidates)).
Proof.
  revert seen. induction candidates as [|c rest IH]; intros seen; simpl.
  - constructor.
  - destruct (existsb _ seen); [apply IH|]. simpl. constructor; [|apply IH].
    intros Hin. apply in_map_iff in Hin as (r & Hr & Hin).
    apply firstWins_fresh in Hin as [_ Hin]. apply Hin.
    apply in_or_app. right. now left.
Qed.

Lemma firstWins_covers (candidates : list Relationship) (seen : list string)
  (r : Relationship) :
  In r candidates ->
  In (rel_id r) seen \/ In (rel_id r) (map rel_id (firstWins seen candidates)).
Proof.
  revert seen. induction candidates as [|c rest IH]; intros seen; simpl; [tauto|].
  intros [->|H].
  - destruct (existsb _ seen) eqn:E.
    + left. now apply existsb_id_In.
    + right. now left.
  - destruct (existsb _ seen) eqn:E; [now apply IH|].
    destruct (IH (seen +++ [rel_id c]) H) as [H'|H'].
    + apply in_app_or in H' as [H'|[H'|[]]]; [now left|].
      right. left. exact H'.
    + right. now right.
Qed.

Lemma find_firstWins (id : string) (candidates : list Relationship)
  (seen : list string) :
  ~ In id seen ->
  find (hasId id) (firstWins seen candidates) = find (hasId id) candidates.
Proof.
  revert seen. induction candidates as [|c rest IH]; intros seen Hid; simpl;
    [reflexivity|].
  destruct (existsb _ seen) eqn:E.
  - apply existsb_id_In in E.
    unfold hasId at 2. destruct (String.eqb (rel_id c) id) eqn:E'.
    + apply String.eqb_eq in E'. congruence.
    + now apply IH.
  - simpl. unfold hasId at 1 3. destruct (String.eqb (rel_id c) id) eqn:E';
      [reflexivity|].
    apply IH. intros Hin. apply in_app_or in Hin as [Hin|[Hin|[]]]; [auto|].
    apply String.eqb_neq in E'. congruence.
Qed.

Lemma find_hasId_none (id : string) (l : list Relationship) :
  find (hasId id) l = None <-> ~ In id (map rel_id l).
Proof.
  induction l as [|r l IH]; simpl; [tauto|].
  unfold hasId at 1. destruct (String.eqb (rel_id r) id) eqn:E.
  - apply String.eqb_eq in E. split; [discriminate | intros H; elim H; now left].
  - apply String.eqb_neq in E. rewrite IH. tauto.
Qed.

Lemma find_app {A : Type} (f : A -> bool) (l1 l2 : list A) :
  find f (l1 +++ l2)
  = match find f l1 with Some x => Some x | None => find f l2 end.
Proof.
  induction l1 as [|x l1 IH]; simpl; [reflexivity|].
  now destruct (f x).
Qed.

End Aggregator.

(** C6 (as amended). The pedigree list is taken over whole; the
    relationships of the persons' detail lists and the edges of the
    composite records follow it, each kept only if no relationship before
    it carries its identifier.  So the identifiers added are pairwise
    distinct and new, the first relationship under an identifier in the
    merged list is the first one offered under it, and a composite record
    with parent1 (parent2) and child offers the edge [<id>-p1] ([<id>-p2])
    with that parent as primary parent and the other as co-parent, so that
    the merged list has a relationship under that identifier. *)
Theorem relationships_merged (data : EnhancedPedigreeData)
  (people : list EnhancedPerson) :
  let base := orEmpty (relationships data) in
  let candidates := flat_map personCandidates people in
  let merged := collectRelationships data people in
  merged = base +++ firstWins (map rel_id base) candidates
  /\ NoDup (map rel_id (firstWins (map rel_id base) candidates))
  /\ (forall r, In r (firstWins (map rel_id base) candidates) ->
        ~ In (rel_id r) (map rel_id base))
  /\ (forall id, find (hasId id) merged = find (hasId id) (base +++ candidates))
  /\ (forall person capRel parent child,
        In person people ->
        In capRel
           (orEmpty (opt (fullDetails person) childAndParentsRelationships)) ->
        cap_child capRel = Some child ->
        (cap_parent1 capRel = Some parent ->
         In (capEdge "-p1" capRel parent child (cap_parent2 capRel)) candidates
         /\ In (cap_id capRel ++ "-p1") (map rel_id merged))
        /\ (cap_parent2 capRel = Some parent ->
            In (capEdge "-p2" capRel parent child (cap_parent1 capRel))
               candidates
            /\ In (cap_id capRel ++ "-p2") (map rel_id merged))).
Proof.
  intros base candidates merged.
  assert (Hm : merged = base +++ firstWins (map rel_id base) candidates).
  { unfold merged. rewrite collectRelationships_candidates.
    apply pushIfNew_firstWins. }
  split; [exact Hm|].
  split; [apply firstWins_NoDup|].
  split; [intros r Hr; now apply firstWins_fresh in Hr|].
  split.
  { intros id. rewrite Hm, !find_app.
    destruct (find (hasId id) base) eqn:E; [reflexivity|].
    apply find_firstWins. now apply find_hasId_none. }
  assert (Hcov : forall r, In r candidates -> In (rel_id r) (map rel_id merged)).
  { intros r Hr. rewrite Hm, map_app. apply in_or_app.
    now apply firstWins_covers. }
  intros person capRel parent child Hperson Hcap Hchild.
  assert (Hedges : forall r, In r (capEdges capRel) -> In r candidates).
  { intros r Hr. apply in_flat_map. exists person. split; [exact Hperson|].
    apply in_or_app. right. apply in_flat_map. now exists capRel. }
  split; intros Hparent.
  - assert (H : In (capEdge "-p1" capRel parent child (cap_parent2 capRel))
                   candidates).
    { apply Hedges. unfold capEdges. rewrite Hparent, Hchild.
      apply in_or_app. left. now left. }
    split; [exact H | exact (Hcov _ H)].
  - assert (H : In (capEdge "-p2" capRel parent child (cap_parent1 capRel))
                   candidates).
    { apply Hedges. unfold capEdges. rewrite Hparent, Hchild.
      apply in_or_app. right. now left. }
    split; [exact H | exact (Hcov _ H)].
Qed.

(** C6 (as stated) fails for duplicates inside the pedigree list: both
    relationships under the identifier [R1] are kept, none is dropped. *)
Lemma pedigree_duplicates_kept :
  map rel_id (collectRelationships Sample.twice Sample.twicePeople) = ["R1"; "R1"]
  /\ ~ NoDup (map rel_id (collectRelationships Sample.twice Sample.twicePeople)).
Proof.
  split; [reflexivity|].
  intros H. inversion H as [|x l Hnot _]. apply Hnot. now left.
Qed.

(** ** The emitter, stage by stage *)

Section Stages.

Lemma emitSources_fold (sourceMap : JsMap SourceDescription)
  (lines : list string) (n : nat) :
  fold_left
    (fun '(lines, sourceCounter) '(_, source) =>
       (lines +++ sourceHeader sourceCounter :: sourceBody source,
        S sourceCounter))
    sourceMap (lines, n)
  = (lines +++ sourceRecords n sourceMap, n + List.length sourceMap).
Proof.
  revert lines n. induction sourceMap as [|[k source] rest IH];
    intros lines n; simpl.
  - now rewrite app_nil_r, Nat.add_0_r.
  - rewrite IH, <- app_assoc. simpl. f_equal. lia.
Qed.

Lemma emitSources_eq (sourceMap : JsMap SourceDescription)
  (lines : list string) :
  emitSources sourceMap lines
  = (lines +++ sourceRecords 1 sourceMap, 1 + List.length sourceMap).
Proof. apply emitSources_fold. Qed.

Lemma fold_left_blocks {A : Type} (block : A -> list string) (l : list A)
  (lines : list string) :
  fold_left (fun lines x => lines +++ block x) l lines
  = lines +++ flat_map block l.
Proof.
  revert lines. induction l as [|x l IH]; intros lines; simpl.
  - now rewrite app_nil_r.
  - now rewrite IH, <- app_assoc.
Qed.

Variable people : list EnhancedPerson.
Variable allowOrphans : bool.
Variable personIdMap : JsMap string.
Variable allRelationships : list Relationship.
Variable connectable : JsSet.

Local Abbreviation records :=
  (familyRecords people allowOrphans personIdMap allRelationships connectable).
Local Abbreviation emit :=
  (emitFamily people allowOrphans personIdMap allRelationships connectable).

Lemma emitFamily_fold (families : JsMap Family) (lines : list string)
  (n : nat) (idMap : JsMap string) :
  fold_left emit families (lines, n, idMap)
  = (lines +++ flat_map fr_lines (records n families),
     n + List.length (records n families),
     fold_left (fun m r => mapSet m (fr_key r) (fr_id r))
               (records n families) idMap).
Proof.
  revert lines n idMap. induction families as [|[key family] rest IH];
    intros lines n idMap; simpl.
  - now rewrite app_nil_r, Nat.add_0_r.
  - destruct (familySkipped _ _ _ family) eqn:E; simpl.
    + apply IH.
    + rewrite IH, <- app_assoc.
      f_equal. f_equal. lia.
Qed.

Lemma records_ids (families : JsMap Family) (n : nat) :
  map fr_id (records n families)
  = map famGedcomId (seq n (List.length (records n families))).
Proof.
  revert n. induction families as [|[key family] rest IH]; intros n; simpl;
    [reflexivity|].
  destruct (familySkipped _ _ _ family); simpl; [apply IH|].
  now rewrite IH.
Qed.

Lemma records_spec (families : JsMap Family) (n : nat) (r : FamRecord) :
  In r (records n families) ->
  In (fr_key r, fr_family r) families
  /\ familySkipped allowOrphans personIdMap connectable (fr_family r)
     = false
  /\ fr_lines r
     = famRecord people allowOrphans personIdMap allRelationships connectable
                 (fr_id r) (fr_family r).
Proof.
  revert n. induction families as [|[key family] rest IH]; intros n; simpl;
    [tauto|].
  destruct (familySkipped _ _ _ family) eqn:E.
  - intros H. destruct (IH _ H) as (H1 & H2 & H3). auto.
  - intros [<-|H]; simpl.
    + auto.
    + destruct (IH _ H) as (H1 & H2 & H3). auto.
Qed.

Lemma records_complete (families : JsMap Family) (n : nat)
  (key : string) (family : Family) :
  In (key, family) families ->
  familySkipped allowOrphans personIdMap connectable family = false ->
  exists r, In r (records n families)
            /\ fr_key r = key /\ fr_family r = family.
Proof.
  revert n. induction families as [|[k f] rest IH]; intros n; simpl; [tauto|].
  intros [[= -> ->]|H] Hs.
  - rewrite Hs. eexists. split; [now left | split; reflexivity].
  - destruct (familySkipped _ _ _ f).
    + now apply IH.
    + destruct (IH (S n) H Hs) as (r & Hr & H1 & H2).
      exists r. split; [now right | auto].
Qed.

End Stages.

Lemma emitRecords_eq (people : list EnhancedPerson)
  (options : GedcomConversionOptions) (now : JsDate) (g : Graph)
  (connectable : JsSet) :
  emitRecords people options now g connectable
  = (headerLines (treeNameOf options) now
     +++ sourceRecords 1 (g_sourceMap g)
     +++ flat_map (personBlockOf options g connectable) people
     +++ flat_map fr_lines (familyRecordsOf people options g connectable),
     fold_left (fun m r => mapSet m (fr_key r) (fr_id r))
               (familyRecordsOf people options g connectable) []).
Proof.
  unfold emitRecords. rewrite emitSources_eq. simpl fst.
  unfold emitPerson. rewrite fold_left_blocks.
  rewrite emitFamily_fold. simpl.
  unfold familyRecordsOf, personBlockOf.
  now rewrite <- !app_assoc.
Qed.

(** ** The family graph *)

Section GraphInvariants.

Variable valid : JsSet.

Lemma setOfList_pair (a b : string) :
  setOfList [a; b] = [a] \/ setOfList [a; b] = [a; b].
Proof.
  unfold setOfList, setAdd, setHas, push. simpl.
  destruct (String.eqb b a); simpl; auto.
Qed.

Lemma pair_family_ok (a b : string) :
  In a valid -> In b valid ->
  setOfList [a; b] <> []
  /\ List.length (setOfList [a; b]) <= 2
  /\ incl (setOfList [a; b]) valid.
Proof.
  intros Ha Hb.
  destruct (setOfList_pair a b) as [-> | ->]; simpl;
    (split; [discriminate | split; [lia|]]);
    intros x Hx; simpl in Hx; intuition (subst; auto).
Qed.

Lemma addParents_incl (validParents parents : list string) :
  incl parents valid -> incl validParents valid ->
  incl (addParents parents validParents) valid.
Proof.
  intros Hp Hv x Hx. unfold addParents in Hx.
  apply In_fold_setAdd in Hx as [Hx|Hx]; auto.
Qed.

Lemma processRelationship_ok (st : JsMap Family * JsMap (list string))
  (rel : Relationship) :
  FamiliesOk valid (fst st) /\ ParentsOk valid (snd st) ->
  FamiliesOk valid (fst (processRelationship valid st rel))
  /\ ParentsOk valid (snd (processRelationship valid st rel)).
Proof.
  destruct st as [families childToParents]. intros [Hf Hc].
  unfold processRelationship.
  destruct (optIncludes (rel_type rel) "ParentChild").
  - destruct (refId (person1 rel)) as [parentId|]; [|now split].
    destruct (refId (person2 rel)) as [childId|]; [|now split].
    destruct (Js.isEmpty parentId || Js.isEmpty childId); [now split|].
    destruct (setHas valid childId) eqn:Hchild; [|now split]. simpl negb.
    cbv iota.
    match goal with
    | |- context [Nat.ltb 0 (List.length ?v)] => set (vp := v)
    end.
    destruct (Nat.ltb 0 (List.length vp)); [|now split].
    split; [exact Hf|]. simpl.
    intros child parents Hin.
    apply In_mapSet in Hin as [[= -> ->]|Hin]; [|exact (Hc _ _ Hin)].
    split; [now apply setHas_In|].
    apply addParents_incl.
    + destruct (mapGet childToParents childId) as [ps|] eqn:E; simpl.
      * apply mapGet_In in E. now apply (Hc _ _ E).
      * intros x [].
    + subst vp. intros x Hx. apply in_app_or in Hx as [Hx|Hx].
      * destruct (setHas valid parentId) eqn:E; [|destruct Hx].
        destruct Hx as [<-|[]]. now apply setHas_In.
      * destruct (Js.truthy (refId (parent2 rel))); simpl in Hx; [|destruct Hx].
        destruct (setHas valid (Js.orDefault _ _)) eqn:E; [|destruct Hx].
        destruct Hx as [<-|[]]. now apply setHas_In.
  - destruct (optIncludes (rel_type rel) "Couple"); [|now split].
    destruct (refId (person1 rel)) as [p1|]; [|now split].
    destruct (refId (person2 rel)) as [p2|]; [|now split].
    destruct (Js.isEmpty p1 || Js.isEmpty p2); [now split|].
    destruct (setHas valid p1) eqn:H1; [|now split].
    destruct (setHas valid p2) eqn:H2; [|now split]. simpl andb. cbv iota.
    destruct (negb (mapHas families (Js.sortJoin p1 p2))); [|now split].
    split; [|exact Hc]. simpl.
    intros key family Hin.
    apply In_mapSet in Hin as [[= -> ->]|Hin]; [|exact (Hf _ _ Hin)].
    apply setHas_In in H1, H2. simpl.
    destruct (pair_family_ok p1 p2 H1 H2) as (Ha & Hb & Hc').
    repeat split; auto. intros x [].
Qed.

Lemma attachTo_ok (families : JsMap Family) (famKey : string)
  (spousesIfNew : JsSet) (childId : string) :
  FamiliesOk valid families ->
  spousesIfNew <> [] -> List.length spousesIfNew <= 2 ->
  incl spousesIfNew valid -> In childId valid ->
  FamiliesOk valid (attachTo families famKey spousesIfNew childId).
Proof.
  intros Hf Hne Hlen Hincl Hchild key family Hin.
  unfold attachTo in Hin.
  apply In_mapSet in Hin as [[= -> ->]|Hin]; [|exact (Hf _ _ Hin)].
  simpl.
  assert (Hpush : forall l, incl l valid -> incl (push l childId) valid).
  { intros l Hl x Hx. apply In_push in Hx as [Hx| ->]; auto. }
  destruct (mapGet families famKey) as [f|] eqn:E; simpl.
  - apply mapGet_In in E. destruct (Hf _ _ E) as (H1 & H2 & H3 & H4).
    repeat split; auto.
  - repeat split; auto. apply Hpush. intros x [].
Qed.

Lemma attachChild_ok (families : JsMap Family)
  (entry : string * list string) :
  FamiliesOk valid families ->
  In (fst entry) valid -> incl (snd entry) valid ->
  FamiliesOk valid (attachChild families entry).
Proof.
  destruct entry as [childId parents]. simpl. intros Hf Hchild Hparents.
  destruct parents as [|a [|b rest]]; [exact Hf | |].
  - apply attachTo_ok; auto; simpl; try lia; try discriminate.
  - assert (Ha : In a valid) by (apply Hparents; now left).
    assert (Hb : In b valid) by (apply Hparents; right; now left).
    destruct (pair_family_ok a b Ha Hb) as (H1 & H2 & H3).
    now apply attachTo_ok.
Qed.

Lemma buildFamilies_ok (allRelationships : list Relationship) :
  FamiliesOk valid (fst (buildFamilies valid allRelationships))
  /\ ParentsOk valid (snd (buildFamilies valid allRelationships)).
Proof.
  unfold buildFamilies.
  assert (H : FamiliesOk valid
                (fst (fold_left (processRelationship valid)
                                allRelationships ([], [])))
              /\ ParentsOk valid
                   (snd (fold_left (processRelationship valid)
                                   allRelationships ([], [])))).
  { apply (fold_left_invariant
             (fun st => FamiliesOk valid (fst st) /\ ParentsOk valid (snd st))).
    - split; intros ? ? [].
    - intros st rel _. apply processRelationship_ok. }
  destruct (fold_left _ allRelationships _) as [families childToParents].
  simpl in *. destruct H as [Hf Hc]. split; [|exact Hc].
  apply (fold_left_invariant (FamiliesOk valid)); [exact Hf|].
  intros fams [child parents] Hin Hok.
  destruct (Hc _ _ Hin). now apply attachChild_ok.
Qed.

End GraphInvariants.

(** *** Person identifiers *)

Lemma personIdMap_fold_other (people : list EnhancedPerson)
  (m : JsMap string) (n : nat) (id : string) :
  ~ In id (map personId people) ->
  mapGet (fst (fold_left
                 (fun '(personIdMap, index) person =>
                    (mapSet personIdMap (personId person)
                            (personGedcomId index), S index))
                 people (m, n))) id
  = mapGet m id.
Proof.
  revert m n. induction people as [|p rest IH]; intros m n Hid; simpl;
    [reflexivity|].
  rewrite IH, mapGet_mapSet.
  - destruct (String.eqb (personId p) id) eqn:E; [|reflexivity].
    apply String.eqb_eq in E. elim Hid. now left.
  - intros H. apply Hid. now right.
Qed.

Lemma personIdMap_fold_nth (people : list EnhancedPerson)
  (m : JsMap string) (n i : nat) (p : EnhancedPerson) :
  NoDup (map personId people) ->
  nth_error people i = Some p ->
  mapGet (fst (fold_left
                 (fun '(personIdMap, index) person =>
                    (mapSet personIdMap (personId person)
                            (personGedcomId index), S index))
                 people (m, n))) (personId p)
  = Some (personGedcomId (n + i)).
Proof.
  revert m n i. induction people as [|q rest IH]; intros m n i Hnd Hi.
  - destruct i; discriminate.
  - inversion Hnd as [|x l Hq Hrest]; subst. simpl.
    destruct i as [|i]; simpl in Hi.
    + injection Hi as ->.
      rewrite personIdMap_fold_other by exact Hq.
      now rewrite mapGet_mapSet, String.eqb_refl, Nat.add_0_r.
    + rewrite (IH _ (S n) i Hrest Hi). f_equal. f_equal. lia.
Qed.

Lemma personIdMap_fold_some (people : list EnhancedPerson)
  (m : JsMap string) (n : nat) (id : string) :
  In id (map personId people) ->
  exists i,
    mapGet (fst (fold_left
                   (fun '(personIdMap, index) person =>
                      (mapSet personIdMap (personId person)
                              (personGedcomId index), S index))
                   people (m, n))) id
    = Some (personGedcomId i).
Proof.
  revert m n. induction people as [|p rest IH]; intros m n Hid; [destruct Hid|].
  simpl. destruct (in_dec string_dec id (map personId rest)) as [H|H].
  - now apply IH.
  - rewrite personIdMap_fold_other by exact H.
    destruct Hid as [<-|Hid]; [|contradiction].
    exists n. now rewrite mapGet_mapSet, String.eqb_refl.
Qed.

(** Every person of the input has an identifier, and it is not empty. *)
Lemma personIdMap_get (people : list EnhancedPerson) (id : string) :
  In id (map personId people) ->
  exists gedcomId,
    mapGet (buildPersonIdMap people) id = Some gedcomId
    /\ Js.isEmpty gedcomId = false.
Proof.
  intros H. destruct (personIdMap_fold_some people [] 0 id H) as [i Hi].
  exists (personGedcomId i). split; [exact Hi | reflexivity].
Qed.

(** With distinct identifiers in the input, the person at position [i] is
    [@I<i+1>@]. *)
Lemma personIdMap_nth (people : list EnhancedPerson) (i : nat)
  (p : EnhancedPerson) :
  NoDup (map personId people) ->
  nth_error people i = Some p ->
  mapGet (buildPersonIdMap people) (personId p) = Some (personGedcomId i).
Proof.
  intros Hnd Hi. exact (personIdMap_fold_nth people [] 0 i p Hnd Hi).
Qed.

(** The graph of the pipeline satisfies the invariant. *)
Lemma buildGraph_ok (data : EnhancedPedigreeData)
  (people : list EnhancedPerson) :
  FamiliesOk (map personId people) (g_families (buildGraph data people))
  /\ ParentsOk (map personId people)
               (g_childToParents (buildGraph data people))
  /\ g_personIdMap (buildGraph data people) = buildPersonIdMap people
  /\ g_sourceMap (buildGraph data people) = collectSources people
  /\ g_allRelationships (buildGraph data people)
     = collectRelationships data people.
Proof.
  unfold buildGraph.
  pose proof (buildFamilies_ok (setOfList (map personId people))
                (collectRelationships data people)) as [Hf Hc].
  destruct (buildFamilies _ _) as [families childToParents]. simpl in *.
  repeat split; try reflexivity.
  - destruct (Hf _ _ H) as (H1 & _). exact H1.
  - destruct (Hf _ _ H) as (_ & H2 & _). exact H2.
  - destruct (Hf _ _ H) as (_ & _ & H3 & _).
    intros x Hx. apply In_setOfList. now apply H3.
  - destruct (Hf _ _ H) as (_ & _ & _ & H4).
    intros x Hx. apply In_setOfList. now apply H4.
  - destruct (Hc _ _ H) as [H1 _]. now apply In_setOfList.
  - destruct (Hc _ _ H) as [_ H2].
    intros x Hx. apply In_setOfList. now apply H2.
Qed.

(** ** The lines of a record *)

Lemma Forall_pushIf (P : string -> Prop) (cond : bool) (line : string) :
  P line -> Forall P (pushIf cond line).
Proof. intros H. destruct cond; simpl; auto. Qed.

Lemma Forall_flat_map {A : Type} (P : string -> Prop) (f : A -> list string)
  (l : list A) :
  (forall x, In x l -> Forall P (f x)) -> Forall P (flat_map f l).
Proof.
  induction l as [|x l IH]; intros H; simpl; [constructor|].
  apply Forall_app. split; [apply H; now left|].
  apply IH. intros y Hy. apply H. now right.
Qed.

(** Splits a goal about a block of lines along the block's structure. *)
Ltac split_blocks :=
  repeat match goal with
         | |- Forall _ (_ +++ _) => apply Forall_app; split
         | |- Forall _ (_ :: _) => apply Forall_cons
         | |- Forall _ [] => apply Forall_nil
         | |- Forall _ (pushIf _ _) => apply Forall_pushIf
         end.

Section Lines.

Lemma In_eqb (x : string) (l : list string) :
  existsb (String.eqb x) l = true -> In x l.
Proof.
  intros H. apply existsb_exists in H as (y & Hy & E).
  apply String.eqb_eq in E. now subst.
Qed.

Lemma gedcomTag_in (type : string) :
  In (Js.orDefault (mapGet typeMap type) "EVEN") gedcomTags.
Proof.
  unfold typeMap. cbn [mapGet].
  do 11 (match goal with
         | |- context [if String.eqb ?k type then _ else _] =>
             destruct (String.eqb k type)
         end; [apply In_eqb; vm_compute; reflexivity|]).
  apply In_eqb; vm_compute; reflexivity.
Qed.

Lemma body_line (p rest : string) :
  isBodyLine p = true -> isBodyLine (p ++ rest) = true.
Proof.
  intros H. apply existsb_exists in H as (q & Hq & E).
  apply existsb_exists. exists q. split; [exact Hq|].
  now apply JsFacts.startsWith_app.
Qed.

Lemma body_tag (tag : string) :
  In tag gedcomTags -> isBodyLine ("1 " ++ tag) = true.
Proof.
  intros H. apply existsb_exists. exists ("1 " ++ tag). split.
  - apply in_or_app. right.
    exact (in_map (fun t => "1 " ++ t) gedcomTags tag H).
  - apply JsFacts.startsWith_refl.
Qed.

(** A pattern that avoids the body prefixes starts no body line. *)
Lemma body_avoids (pattern line : string) :
  avoidsBody pattern = true -> isBodyLine line = true ->
  Js.startsWith line pattern = false.
Proof.
  intros Ha Hl. apply existsb_exists in Hl as (p & Hp & Hl).
  destruct (JsFacts.startsWith_spec _ _ Hl) as [r ->].
  unfold avoidsBody in Ha. rewrite forallb_forall in Ha.
  specialize (Ha p Hp). apply andb_true_iff in Ha as [H1 H2].
  apply negb_true_iff in H1, H2.
  now apply startsWith_append_false.
Qed.

Local Abbreviation Body := (Forall (fun l => isBodyLine l = true)).

Lemma convertFactToGedcom_body (fact : PersonFact) :
  Body (convertFactToGedcom fact).
Proof.
  unfold convertFactToGedcom.
  destruct (fact_type fact) as [type|]; [|constructor].
  destruct (Js.isEmpty type); [constructor|].
  split_blocks; try (apply body_line; vm_compute; reflexivity).
  match goal with
  | |- Forall _ (if ?c then _ else _) => destruct c
  end; split_blocks.
  - apply body_line; vm_compute; reflexivity.
  - apply body_tag, gedcomTag_in.
Qed.

Lemma sourceBody_body (source : SourceDescription) : Body (sourceBody source).
Proof.
  unfold sourceBody.
  split_blocks; apply body_line; vm_compute; reflexivity.
Qed.

Lemma addMarriageFacts_body (allRelationships : list Relationship)
  (a b : string) : Body (addMarriageFacts allRelationships a b).
Proof.
  unfold addMarriageFacts. destruct (find _ _); [|constructor].
  apply Forall_flat_map. intros. apply convertFactToGedcom_body.
Qed.

Lemma idLine_body (tag : string) (id : option string) :
  isBodyLine tag = true -> Body (idLine tag id).
Proof. intros H. apply Forall_pushIf. apply body_line. exact H. Qed.

Lemma vitalLines_body (tag : string) (fact : option FactSummary) :
  isBodyLine tag = true -> Body (vitalLines tag fact).
Proof.
  intros H. unfold vitalLines. destruct fact; [|constructor].
  constructor; [exact H|].
  apply Forall_app; split; apply Forall_pushIf; apply body_line; vm_compute; reflexivity.
Qed.

Lemma linkLines_body (includeLinks : bool) (env : Environment)
  (person : EnhancedPerson) : Body (linkLines includeLinks env person).
Proof.
  unfold linkLines. destruct includeLinks; [|constructor].
  destruct (Js.truthy _).
  - constructor; [apply body_line; vm_compute; reflexivity | constructor].
  - apply Forall_pushIf. apply body_line; vm_compute; reflexivity.
Qed.

Lemma noteLines_body (includeNotes : bool) (person : EnhancedPerson) :
  Body (noteLines includeNotes person).
Proof.
  unfold noteLines. destruct includeNotes; [|constructor].
  apply Forall_flat_map. intros. apply Forall_pushIf. apply body_line; vm_compute; reflexivity.
Qed.

Lemma qualifierLines_body (sourceRef : SourceReference) :
  Body (qualifierLines sourceRef).
Proof.
  unfold qualifierLines.
  apply Forall_flat_map. intros. apply Forall_pushIf. apply body_line; vm_compute; reflexivity.
Qed.

Lemma otherFactLines_body (fact : PersonFact) : Body (otherFactLines fact).
Proof.
  unfold otherFactLines. destruct (_ && _); [|constructor].
  apply convertFactToGedcom_body.
Qed.

End Lines.

(** ** FAM records *)

Section FamRecords.

Lemma countLines_app (f : string -> bool) (a b : list string) :
  countLines f (a +++ b) = countLines f a + countLines f b.
Proof. unfold countLines. now rewrite filter_app, length_app. Qed.

Lemma countLines_none (f : string -> bool) (block : list string) :
  Forall (fun l => f l = false) block -> countLines f block = 0.
Proof.
  unfold countLines. induction 1 as [|l block Hl _ IH]; simpl; [reflexivity|].
  now rewrite Hl.
Qed.

Lemma body_no_spouse (block : list string) :
  Forall (fun l => isBodyLine l = true) block ->
  countLines isSpouseLine block = 0.
Proof.
  intros H. apply countLines_none.
  eapply Forall_impl; [|exact H]. intros l Hl. unfold isSpouseLine.
  rewrite (body_avoids "1 HUSB " l), (body_avoids "1 WIFE " l);
    [reflexivity | vm_compute; reflexivity | exact Hl
    | vm_compute; reflexivity | exact Hl].
Qed.

Lemma body_no_child (block : list string) :
  Forall (fun l => isBodyLine l = true) block ->
  countLines isChildLine block = 0.
Proof.
  intros H. apply countLines_none.
  eapply Forall_impl; [|exact H]. intros l Hl. unfold isChildLine.
  rewrite (body_avoids "1 CHIL " l);
    [reflexivity | vm_compute; reflexivity | exact Hl].
Qed.

Lemma idLine_some (tag gedcomId : string) :
  Js.isEmpty gedcomId = false -> idLine tag (Some gedcomId) = [tag ++ gedcomId].
Proof.
  intros H. unfold idLine, pushIf. simpl. now rewrite H.
Qed.

Variable data : EnhancedPedigreeData.
Variable people : list EnhancedPerson.
Variable options : GedcomConversionOptions.
Variable connectable : JsSet.

Local Abbreviation g := (buildGraph data people).
Local Abbreviation allow := (allowOrphansOf options).
Local Abbreviation record :=
  (famRecord people allow (g_personIdMap g) (g_allRelationships g)
             connectable).
Local Abbreviation skipped :=
  (familySkipped allow (g_personIdMap g) connectable).

(** The members of a family have identifiers. *)
Lemma member_id (key : string) (family : Family) (x : string) :
  In (key, family) (g_families g) ->
  In x (spouses family +++ children family) ->
  exists gedcomId,
    mapGet (g_personIdMap g) x = Some gedcomId
    /\ Js.isEmpty gedcomId = false.
Proof.
  intros Hin Hx.
  destruct (buildGraph_ok data people) as (Hf & _ & -> & _).
  destruct (Hf _ _ Hin) as (_ & _ & Hs & Hc).
  apply personIdMap_get.
  apply in_app_or in Hx as [Hx|Hx]; auto.
Qed.

Lemma parentsInMap_all (key : string) (family : Family) :
  In (key, family) (g_families g) ->
  filter (mapHas (g_personIdMap g)) (spouses family) = spouses family.
Proof.
  intros Hin.
  assert (H : forall x, In x (spouses family) ->
                        mapHas (g_personIdMap g) x = true).
  { intros x Hx.
    destruct (member_id key family x Hin) as (gid & Hg & _).
    - apply in_or_app. now left.
    - unfold mapHas. now rewrite Hg. }
  induction (spouses family) as [|s l IH]; simpl; [reflexivity|].
  rewrite (H s) by now left. f_equal. apply IH.
  intros x Hx. apply H. now right.
Qed.

Lemma childLines_count (key : string) (family : Family) :
  In (key, family) (g_families g) ->
  countLines isChildLine (childLines (g_personIdMap g) family)
  = List.length (children family)
  /\ countLines isSpouseLine (childLines (g_personIdMap g) family) = 0.
Proof.
  intros Hin. unfold childLines.
  assert (H : forall x, In x (children family) ->
                        exists gid, mapGet (g_personIdMap g) x = Some gid
                                    /\ Js.isEmpty gid = false).
  { intros x Hx. apply (member_id key family x Hin).
    apply in_or_app. now right. }
  induction (children family) as [|c l IH]; simpl; [split; reflexivity|].
  destruct (H c) as (gid & Hg & He); [now left|].
  rewrite Hg, (idLine_some _ _ He), !countLines_app.
  destruct IH as [IH1 IH2]; [intros x Hx; apply H; now right|].
  rewrite IH1, IH2. split; reflexivity.
Qed.

(** The spouse lines of a family of the graph: one per spouse, oriented
    by the genders as the source tests them. *)
Lemma spouseLines_shape (key : string) (family : Family) :
  In (key, family) (g_families g) ->
  (exists only id,
      spouses family = [only]
      /\ mapGet (g_personIdMap g) only = Some id
      /\ spouseLines people (g_personIdMap g) (g_allRelationships g) family
         = [(if optEqb (genderOf people only) "M"
             then "1 HUSB " else "1 WIFE ") ++ id])
  \/ (exists spouse1 spouse2 id1 id2,
         spouses family = [spouse1; spouse2]
         /\ mapGet (g_personIdMap g) spouse1 = Some id1
         /\ mapGet (g_personIdMap g) spouse2 = Some id2
         /\ spouseLines people (g_personIdMap g) (g_allRelationships g) family
            = (if optEqb (genderOf people spouse1) "M"
                  || optEqb (genderOf people spouse2) "F"
               then ["1 HUSB " ++ id1; "1 WIFE " ++ id2]
               else ["1 HUSB " ++ id2; "1 WIFE " ++ id1])
              +++ addMarriageFacts (g_allRelationships g) spouse1 spouse2).
Proof.
  intros Hin.
  destruct (buildGraph_ok data people) as (Hf & _ & _).
  destruct (Hf _ _ Hin) as (Hne & Hlen & _ & _).
  assert (Hid : forall x, In x (spouses family) ->
                  exists gid, mapGet (g_personIdMap g) x = Some gid
                              /\ Js.isEmpty gid = false).
  { intros x Hx. apply (member_id key family x Hin).
    apply in_or_app. now left. }
  unfold spouseLines.
  destruct (spouses family) as [|s1 [|s2 [|s3 rest]]];
    [congruence | | | simpl in Hlen; lia].
  - left. destruct (Hid s1) as (id & Hg & He); [now left|].
    exists s1, id. rewrite Hg. simpl.
    split; [reflexivity|]. split; [reflexivity|].
    destruct (optEqb (genderOf people s1) "M"); reflexivity.
  - right.
    destruct (Hid s1) as (id1 & Hg1 & He1); [now left|].
    destruct (Hid s2) as (id2 & Hg2 & He2); [right; now left|].
    exists s1, s2, id1, id2. rewrite Hg1, Hg2, !idLine_some by assumption.
    split; [reflexivity|]. split; [reflexivity|]. split; [reflexivity|].
    destruct (optEqb (genderOf people s1) "M"
              || optEqb (genderOf people s2) "F"); reflexivity.
Qed.

Lemma spouseLines_count (key : string) (family : Family) :
  In (key, family) (g_families g) ->
  countLines isSpouseLine
    (spouseLines people (g_personIdMap g) (g_allRelationships g) family)
  = List.length (spouses family)
  /\ countLines isChildLine
       (spouseLines people (g_personIdMap g) (g_allRelationships g) family)
     = 0.
Proof.
  intros Hin.
  destruct (spouseLines_shape key family Hin)
    as [(s & id & -> & _ & ->) | (s1 & s2 & id1 & id2 & -> & _ & _ & ->)].
  - destruct (optEqb _ _); split; reflexivity.
  - rewrite !countLines_app,
      (body_no_spouse _ (addMarriageFacts_body _ _ _)),
      (body_no_child _ (addMarriageFacts_body _ _ _)).
    destruct (_ || _); split; reflexivity.
Qed.

Lemma famRecord_counts (key famId : string) (family : Family) :
  In (key, family) (g_families g) ->
  countLines isSpouseLine (record famId family) = List.length (spouses family)
  /\ countLines isChildLine (record famId family)
     = List.length (children family).
Proof.
  intros Hin. unfold famRecord.
  rewrite !countLines_app.
  destruct (spouseLines_count key family Hin) as [-> ->].
  destruct (childLines_count key family Hin) as [-> ->].
  assert (Htag : forall c, countLines isSpouseLine
                             (pushIf c "1 _IS_ORPHAN_FAMILY Y") = 0
                           /\ countLines isChildLine
                                (pushIf c "1 _IS_ORPHAN_FAMILY Y") = 0)
    by (intros []; split; reflexivity).
  destruct (Htag (isOrphanFamily connectable family && allow)) as [-> ->].
  split; unfold countLines; simpl; lia.
Qed.

(** A family that is not skipped has a spouse, and children if it has one
    spouse only. *)
Lemma not_skipped_valid (key : string) (family : Family) :
  In (key, family) (g_families g) ->
  skipped family = false ->
  1 <= List.length (spouses family)
  /\ (List.length (spouses family) = 1 ->
      1 <= List.length (children family)).
Proof.
  intros Hin. unfold familySkipped.
  rewrite (parentsInMap_all key family Hin).
  destruct (Nat.eqb (List.length (spouses family)) 0) eqn:E0; [discriminate|].
  apply Nat.eqb_neq in E0.
  destruct (Nat.eqb (List.length (spouses family)) 1 && _) eqn:E1;
    [discriminate|].
  intros _. split; [lia|]. intros H1. rewrite H1 in E1. simpl in E1.
  apply Nat.eqb_neq in E1. lia.
Qed.

End FamRecords.

(** ** Splicing back-references *)

Section Splicing.

Lemma filter_splice {A : Type} (f : A -> bool) (i : nat) (x : A)
  (l : list A) :
  f x = false -> filter f (splice i x l) = filter f l.
Proof.
  intros H. unfold splice. rewrite filter_app. simpl. rewrite H.
  now rewrite <- filter_app, firstn_skipn.
Qed.

Lemma In_splice {A : Type} (y : A) (i : nat) (x : A) (l : list A) :
  In y (splice i x l) <-> y = x \/ In y l.
Proof.
  assert (Hl : In y l <-> In y (firstn i l) \/ In y (skipn i l))
    by (rewrite <- in_app_iff, firstn_skipn; reflexivity).
  unfold splice. rewrite in_app_iff, Hl. simpl. intuition.
Qed.

Lemma Spliced_filter (P : string -> Prop) (f : string -> bool)
  (a b : list string) :
  (forall x, P x -> f x = false) ->
  Spliced P a b -> filter f b = filter f a.
Proof.
  intros Hf. induction 1 as [|lines i x after Hx _ _ IH]; [reflexivity|].
  rewrite IH. apply filter_splice. now apply Hf.
Qed.

Lemma Spliced_In (P : string -> Prop) (a b : list string) (y : string) :
  Spliced P a b -> In y a -> In y b.
Proof.
  induction 1 as [|lines i x after Hx _ _ IH]; [auto|].
  intros Hy. apply IH. apply In_splice. now right.
Qed.

Lemma Spliced_In_inv (P : string -> Prop) (a b : list string) (y : string) :
  Spliced P a b -> In y b -> In y a \/ P y.
Proof.
  induction 1 as [|lines i x after Hx _ _ IH]; [auto|].
  intros Hy. destruct (IH Hy) as [H|H]; [|now right].
  apply In_splice in H as [->|H]; auto.
Qed.

Lemma Spliced_trans (P : string -> Prop) (a b c : list string) :
  Spliced P a b -> Spliced P b c -> Spliced P a c.
Proof.
  induction 1 as [|lines i x after Hx Hi _ IH]; [auto|].
  intros H. eapply spliced_step; [exact Hx | exact Hi | now apply IH].
Qed.

Lemma Spliced_fold {A : Type} (P : string -> Prop)
  (f : list string -> A -> list string) (l : list A) (lines : list string) :
  (forall lines x, Spliced P lines (f lines x)) ->
  Spliced P lines (fold_left f l lines).
Proof.
  intros Hf. revert lines. induction l as [|x l IH]; intros lines.
  - constructor.
  - apply (Spliced_trans P _ (f lines x)); [apply Hf | apply IH].
Qed.

(** Splicing after the start keeps the first line. *)
Lemma Spliced_head (P : string -> Prop) (a b : list string) (first : string) :
  Spliced P a b -> hd_error a = Some first -> hd_error b = Some first.
Proof.
  induction 1 as [|lines i x after Hx Hi _ IH]; [auto|].
  intros H. apply IH. unfold splice.
  destruct lines as [|l lines]; [discriminate|].
  destruct i as [|i]; [lia|]. exact H.
Qed.

Variable personIdMap : JsMap string.
Variable familyIdMap : JsMap string.

Local Abbreviation Link := (LinkTo familyIdMap).

Lemma spliceFamc_spliced (lines : list string)
  (entry : string * list string) :
  Spliced Link lines (spliceFamc personIdMap familyIdMap lines entry).
Proof.
  unfold spliceFamc.
  destruct (mapGet personIdMap (fst entry)) as [gid|]; [|apply spliced_done].
  destruct (Js.isEmpty gid); [apply spliced_done|].
  destruct (famKeyOfParents (snd entry)) as [key|]; [|apply spliced_done].
  cbn [opt].
  destruct (mapGet familyIdMap key) as [famId|] eqn:E; [|apply spliced_done].
  destruct famId as [|c famId]; [apply spliced_done|].
  cbn [Js.truthy Js.orDefault Js.isEmpty negb].
  destruct (findIndex _ lines) as [i|]; [|apply spliced_done].
  apply (spliced_step Link lines (i + 1) ("1 FAMC " ++ String c famId));
    [|lia|apply spliced_done].
  exists key, (String c famId). split; [exact E | now left].
Qed.

Lemma spliceFams_spliced (key famId : string) (lines : list string)
  (spouseId : string) :
  mapGet familyIdMap key = Some famId ->
  Spliced Link lines (spliceFams personIdMap famId lines spouseId).
Proof.
  intros E. unfold spliceFams.
  destruct (mapGet personIdMap spouseId) as [gid|]; [|apply spliced_done].
  destruct (Js.isEmpty gid); [apply spliced_done|].
  destruct (findIndex _ lines) as [i|]; [|apply spliced_done].
  cbv zeta.
  apply (spliced_step Link lines
           (i + 1 + countWhile (fun line => Js.startsWith line "1 FAMC")
                               (skipn (i + 1) lines))
           ("1 FAMS " ++ famId)); [|lia|apply spliced_done].
  exists key, famId. split; [exact E | now right].
Qed.

Lemma addFams_spliced (lines : list string) (entry : string * Family) :
  Spliced Link lines (addFams personIdMap familyIdMap lines entry).
Proof.
  unfold addFams.
  destruct (mapGet familyIdMap (fst entry)) as [famId|] eqn:E; [|apply spliced_done].
  destruct (Js.isEmpty famId); [apply spliced_done|].
  apply Spliced_fold. intros. now apply (spliceFams_spliced (fst entry)).
Qed.

End Splicing.

Lemma spliceLinks_spliced (g : Graph) (familyIdMap : JsMap string)
  (lines : list string) :
  Spliced (LinkTo familyIdMap) lines (spliceLinks g familyIdMap lines).
Proof.
  unfold spliceLinks.
  apply (Spliced_trans _ _
           (fold_left (spliceFamc (g_personIdMap g) familyIdMap)
                      (g_childToParents g) lines)).
  - apply Spliced_fold. intros. apply spliceFamc_spliced.
  - apply Spliced_fold. intros. apply addFams_spliced.
Qed.

Lemma LinkTo_isLinkLine (familyIdMap : JsMap string) (line : string) :
  LinkTo familyIdMap line -> isLinkLine line = true.
Proof.
  intros (key & famId & _ & [-> | ->]); vm_compute; reflexivity.
Qed.

(** ** Citations *)

Section Citations.

Variable n : nat.

Lemma Resolved_mono (lines seen seen' : list string) :
  incl seen seen' -> Resolved n seen lines -> Resolved n seen' lines.
Proof.
  revert seen seen'. induction lines as [|l rest IH]; intros seen seen' Hi;
    simpl; [auto|].
  intros [H1 H2]. split.
  - intros Hc. destruct (H1 Hc) as (i & Hlt & -> & Hin). eauto.
  - apply (IH (seen +++ [l])); [|exact H2].
    intros x Hx. apply in_app_or in Hx as [Hx|Hx]; apply in_or_app; auto.
Qed.

Lemma Resolved_app (a b seen : list string) :
  Resolved n seen (a +++ b)
  <-> Resolved n seen a /\ Resolved n (seen +++ a) b.
Proof.
  revert seen. induction a as [|l a IH]; intros seen; simpl.
  - rewrite app_nil_r. tauto.
  - rewrite IH, <- app_assoc. simpl. tauto.
Qed.

Lemma Resolved_all (lines seen : list string) :
  (forall l, In l lines -> isCitation l = true ->
     exists i, i < n /\ l = citation i /\ In (sourceHeader (i + 1)) seen) ->
  Resolved n seen lines.
Proof.
  revert seen. induction lines as [|l rest IH]; intros seen H; simpl; [auto|].
  split; [apply H; now left|].
  apply IH. intros l' Hl' Hc.
  destruct (H l' (or_intror Hl') Hc) as (i & Hlt & -> & Hin).
  exists i. repeat split; auto. apply in_or_app. now left.
Qed.

Lemma Resolved_splice (i : nat) (x : string) (lines seen : list string) :
  isCitation x = false ->
  Resolved n seen lines -> Resolved n seen (splice i x lines).
Proof.
  intros Hx H. rewrite <- (firstn_skipn i lines) in H.
  apply Resolved_app in H as [H1 H2].
  unfold splice. apply Resolved_app. split; [exact H1|]. simpl. split.
  - rewrite Hx. discriminate.
  - apply (Resolved_mono _ (seen +++ firstn i lines)); [|exact H2].
    intros y Hy. apply in_or_app. now left.
Qed.

Lemma Resolved_Spliced (P : string -> Prop) (a b seen : list string) :
  (forall x, P x -> isCitation x = false) ->
  Spliced P a b -> Resolved n seen a -> Resolved n seen b.
Proof.
  intros HP. induction 1 as [|lines i x after Hx _ _ IH]; [auto|].
  intros H. apply IH. apply Resolved_splice; [now apply HP | exact H].
Qed.

Lemma Resolved_split (before after : list string) (line : string) :
  Resolved n [] (before +++ line :: after) -> isCitation line = true ->
  exists i, i < n /\ line = citation i /\ In (sourceHeader (i + 1)) before.
Proof.
  intros H Hc. apply Resolved_app in H as [_ [H _]]. exact (H Hc).
Qed.

End Citations.

(** ** Plain lines *)

Section PlainLines.

Lemma body_plain (line : string) : isBodyLine line = true -> isPlain line = true.
Proof.
  intros H. unfold isPlain, isLevel0, isCitation.
  rewrite (body_avoids "0 " line), (body_avoids "1 SOUR @" line);
    [reflexivity | vm_compute; reflexivity | exact H
    | vm_compute; reflexivity | exact H].
Qed.

Lemma Body_Plain (block : list string) :
  Forall (fun l => isBodyLine l = true) block ->
  Forall (fun l => isPlain l = true) block.
Proof. apply Forall_impl. exact body_plain. Qed.

Lemma findIndex_lt {A : Type} (f : A -> bool) (l : list A) (i : nat) :
  findIndex f l = Some i -> i < List.length l.
Proof.
  revert i. induction l as [|x l IH]; intros i; simpl; [discriminate|].
  destruct (f x); [intros [= <-]; lia|].
  destruct (findIndex f l) as [j|]; [|discriminate].
  intros [= <-]. specialize (IH j eq_refl). lia.
Qed.

Local Abbreviation Plain := (Forall (fun l => isPlain l = true)).

Lemma spouseLines_plain (people : list EnhancedPerson)
  (personIdMap : JsMap string) (allRelationships : list Relationship)
  (family : Family) :
  Plain (spouseLines people personIdMap allRelationships family).
Proof.
  unfold spouseLines.
  destruct (spouses family) as [|s1 [|s2 [|s3 rest]]].
  - constructor.
  - destruct (optEqb (genderOf people s1) "M");
      (constructor; [vm_compute; reflexivity | constructor]).
  - apply Forall_app. split.
    + destruct (optEqb (genderOf people s1) "M"
                || optEqb (genderOf people s2) "F");
        apply Forall_app; split; apply Forall_pushIf; vm_compute; reflexivity.
    + apply Body_Plain, addMarriageFacts_body.
  - constructor.
Qed.

Lemma famRecord_lines (people : list EnhancedPerson) (allowOrphans : bool)
  (personIdMap : JsMap string) (allRelationships : list Relationship)
  (connectable : JsSet) (famId : string) (family : Family) :
  exists rest,
    famRecord people allowOrphans personIdMap allRelationships connectable
              famId family
    = famHeader famId :: rest
    /\ Plain rest.
Proof.
  eexists. split; [reflexivity|].
  split_blocks.
  - vm_compute; reflexivity.
  - apply spouseLines_plain.
  - unfold childLines. apply Forall_flat_map. intros.
    apply Forall_pushIf. vm_compute; reflexivity.
Qed.

Variables includeLinks includeNotes allowOrphans : bool.
Variable env : Environment.
Variable sourceMap : JsMap SourceDescription.
Variable personIdMap : JsMap string.
Variable orphanFamKeys : JsSet.
Variable personToFamKeys : JsMap JsSet.

(** A line inside an INDI record: a body line, or a citation of a source
    of the map. *)
Local Abbreviation Inside :=
  (Forall (fun l => isBodyLine l = true
                    \/ exists i, i < List.length sourceMap /\ l = citation i)).

Lemma Body_Inside (block : list string) :
  Forall (fun l => isBodyLine l = true) block -> Inside block.
Proof. apply Forall_impl. auto. Qed.

Lemma citationLines_inside (sourceRef : SourceReference) :
  Inside (citationLines sourceMap sourceRef).
Proof.
  unfold citationLines.
  destruct (descriptionId sourceRef) as [sourceId|]; [|constructor].
  destruct (Js.isEmpty sourceId); [constructor|].
  destruct (indexOf (mapKeys sourceMap) sourceId) as [i|] eqn:E; [|constructor].
  constructor.
  - right. exists i. split; [|reflexivity].
    apply findIndex_lt in E. unfold mapKeys in E. now rewrite length_map in E.
  - apply Body_Inside, qualifierLines_body.
Qed.

Lemma indiRecord_lines (gedcomId : string) (person : EnhancedPerson) :
  exists rest,
    indiRecord includeLinks includeNotes env sourceMap gedcomId person
    = indiHeader gedcomId :: rest
    /\ Inside rest.
Proof.
  eexists. split; [reflexivity|].
  repeat match goal with
         | |- Forall _ (_ +++ _) => apply Forall_app; split
         end.
  - apply Body_Inside, Forall_pushIf. apply body_line. vm_compute; reflexivity.
  - apply Body_Inside, linkLines_body.
  - apply Body_Inside, idLine_body. vm_compute; reflexivity.
  - apply Body_Inside, idLine_body. vm_compute; reflexivity.
  - apply Body_Inside, vitalLines_body. vm_compute; reflexivity.
  - apply Body_Inside, vitalLines_body. vm_compute; reflexivity.
  - apply Body_Inside, Forall_flat_map.
    intros. apply otherFactLines_body.
  - apply Body_Inside, noteLines_body.
  - apply Forall_flat_map. intros. apply citationLines_inside.
Qed.

Local Abbreviation block :=
  (personBlock includeLinks includeNotes allowOrphans env sourceMap
               personIdMap orphanFamKeys personToFamKeys).
Local Abbreviation headers :=
  (personHeaders allowOrphans personIdMap orphanFamKeys personToFamKeys).

Lemma personBlock_lines (person : EnhancedPerson) :
  exists rest,
    block person = headers person +++ rest /\ Inside rest.
Proof.
  unfold personBlock, personHeaders.
  destruct (mapGet personIdMap (personId person)) as [gid|];
    [|exists []; split; [reflexivity | constructor]].
  destruct (Js.isEmpty gid); [exists []; split; [reflexivity | constructor]|].
  destruct (isOrphanPerson allowOrphans orphanFamKeys personToFamKeys person);
    [exists []; split; [reflexivity | constructor]|].
  apply indiRecord_lines.
Qed.

Lemma personHeaders_level0 (person : EnhancedPerson) :
  Forall (fun l => isLevel0 l = true /\ isCitation l = false)
         (headers person).
Proof.
  unfold personHeaders.
  destruct (mapGet personIdMap (personId person)) as [gid|]; [|constructor].
  destruct (Js.isEmpty gid); [constructor|].
  destruct (isOrphanPerson allowOrphans orphanFamKeys personToFamKeys person); [constructor|].
  constructor; [split; vm_compute; reflexivity | constructor].
Qed.

End PlainLines.

(** ** The records of the document *)

Section Skeleton.

Lemma filter_none {A : Type} (f : A -> bool) (l : list A) :
  Forall (fun x => f x = false) l -> filter f l = [].
Proof.
  induction 1 as [|x l Hx _ IH]; simpl; [reflexivity|]. now rewrite Hx.
Qed.

Lemma filter_all {A : Type} (f : A -> bool) (l : list A) :
  Forall (fun x => f x = true) l -> filter f l = l.
Proof.
  induction 1 as [|x l Hx _ IH]; simpl; [reflexivity|]. now rewrite Hx, IH.
Qed.

Lemma plain_not_level0 (line : string) :
  isPlain line = true -> isLevel0 line = false.
Proof.
  unfold isPlain. intros H. apply andb_true_iff in H as [H _].
  now apply negb_true_iff in H.
Qed.

Lemma plain_not_citation (line : string) :
  isPlain line = true -> isCitation line = false.
Proof.
  unfold isPlain. intros H. apply andb_true_iff in H as [_ H].
  now apply negb_true_iff in H.
Qed.

Lemma inside_not_level0 (n : nat) (line : string) :
  isBodyLine line = true \/ (exists i, i < n /\ line = citation i) ->
  isLevel0 line = false.
Proof.
  intros [H|(i & _ & ->)];
    [apply plain_not_level0, body_plain, H | vm_compute; reflexivity].
Qed.

Lemma sourceHeader_level0 (n : nat) :
  isLevel0 (sourceHeader n) = true /\ isCitation (sourceHeader n) = false.
Proof. split; vm_compute; reflexivity. Qed.

Lemma sourceRecords_cons (n : nat) (k : string) (source : SourceDescription)
  (rest : JsMap SourceDescription) :
  sourceRecords n ((k, source) :: rest)
  = (sourceHeader n :: sourceBody source) +++ sourceRecords (S n) rest.
Proof. reflexivity. Qed.

Lemma sourceRecords_level0 (sourceMap : JsMap SourceDescription) (n : nat) :
  filter isLevel0 (sourceRecords n sourceMap)
  = map sourceHeader (seq n (List.length sourceMap)).
Proof.
  revert n. induction sourceMap as [|[k source] rest IH]; intros n;
    [reflexivity|].
  rewrite sourceRecords_cons, filter_app, IH.
  cbn [filter List.length seq map].
  rewrite (proj1 (sourceHeader_level0 n)), filter_none; [reflexivity|].
  eapply Forall_impl; [|apply (Body_Plain _ (sourceBody_body source))].
  intros l. apply plain_not_level0.
Qed.

Lemma sourceRecords_no_citation (sourceMap : JsMap SourceDescription)
  (n : nat) :
  Forall (fun l => isCitation l = false) (sourceRecords n sourceMap).
Proof.
  revert n. induction sourceMap as [|[k source] rest IH]; intros n;
    [constructor|].
  rewrite sourceRecords_cons.
  apply Forall_app. split; [|apply IH].
  constructor; [apply sourceHeader_level0|].
  eapply Forall_impl; [|apply (Body_Plain _ (sourceBody_body source))].
  intros l. apply plain_not_citation.
Qed.

Lemma sourceRecords_header (sourceMap : JsMap SourceDescription) (n i : nat) :
  i < List.length sourceMap ->
  In (sourceHeader (n + i)) (sourceRecords n sourceMap).
Proof.
  revert n i. induction sourceMap as [|[k source] rest IH]; intros n i Hi;
    [simpl in Hi; lia|].
  rewrite sourceRecords_cons. cbn [List.length] in Hi.
  destruct i as [|i].
  - left. now rewrite Nat.add_0_r.
  - apply in_or_app. right.
    replace (n + S i) with (S n + i) by lia. apply IH. lia.
Qed.

Lemma headerLines_level0 (name : string) (now : JsDate) :
  filter isLevel0 (headerLines name now) = ["0 HEAD"; "0 @SUBM1@ SUBM"].
Proof. vm_compute. reflexivity. Qed.

Lemma headerLines_no_citation (name : string) (now : JsDate) :
  Forall (fun l => isCitation l = false) (headerLines name now).
Proof.
  unfold headerLines.
  repeat (apply Forall_cons; [vm_compute; reflexivity|]). apply Forall_nil.
Qed.

Variable people : list EnhancedPerson.
Variable options : GedcomConversionOptions.
Variable now : JsDate.
Variable g : Graph.
Variable connectable : JsSet.

Local Abbreviation records := (familyRecordsOf people options g connectable).
Local Abbreviation numSources := (List.length (g_sourceMap g)).

Lemma personBlockOf_lines (person : EnhancedPerson) :
  exists rest,
    personBlockOf options g connectable person
    = personHeadersOf options g connectable person +++ rest
    /\ Forall (fun l => isBodyLine l = true
                        \/ exists i, i < numSources /\ l = citation i) rest.
Proof. apply personBlock_lines. Qed.

Lemma personBlocks_level0 (l : list EnhancedPerson) :
  filter isLevel0 (flat_map (personBlockOf options g connectable) l)
  = flat_map (personHeadersOf options g connectable) l.
Proof.
  induction l as [|p l IH]; simpl; [reflexivity|].
  destruct (personBlockOf_lines p) as (rest & -> & Hrest).
  rewrite !filter_app, IH. f_equal.
  rewrite (filter_none isLevel0 rest).
  - rewrite app_nil_r. apply filter_all.
    eapply Forall_impl; [|apply personHeaders_level0]. now intros x [H _].
  - eapply Forall_impl; [|exact Hrest]. intros x. apply inside_not_level0.
Qed.

Lemma familyRecords_level0 (rs : list FamRecord) :
  (forall r, In r rs ->
     exists rest, fr_lines r = famHeader (fr_id r) :: rest
                  /\ Forall (fun l => isPlain l = true) rest) ->
  filter isLevel0 (flat_map fr_lines rs)
  = map (fun r => famHeader (fr_id r)) rs.
Proof.
  induction rs as [|r rs IH]; intros H; simpl; [reflexivity|].
  destruct (H r (or_introl eq_refl)) as (rest & -> & Hrest).
  rewrite filter_app, IH by (intros; apply H; now right).
  simpl. rewrite (filter_none isLevel0 rest); [reflexivity|].
  eapply Forall_impl; [|exact Hrest]. intros x. apply plain_not_level0.
Qed.

Lemma records_lines (r : FamRecord) :
  In r records ->
  exists rest, fr_lines r = famHeader (fr_id r) :: rest
               /\ Forall (fun l => isPlain l = true) rest.
Proof.
  intros H. apply records_spec in H as (_ & _ & ->). apply famRecord_lines.
Qed.

(** The record headers of the document, in order. *)
Lemma document_skeleton :
  filter isLevel0 (push (fst (emitAll people options now g connectable))
                        "0 TRLR")
  = ["0 HEAD"; "0 @SUBM1@ SUBM"]
    +++ map sourceHeader (seq 1 numSources)
    +++ flat_map (personHeadersOf options g connectable) people
    +++ map (fun r => famHeader (fr_id r)) records
    +++ ["0 TRLR"].
Proof.
  assert (Hlink : forall x,
             LinkTo (snd (emitRecords people options now g connectable)) x ->
             isLevel0 x = false).
  { intros x (key & famId & _ & [-> | ->]); vm_compute; reflexivity. }
  unfold push, emitAll. cbn [fst snd]. rewrite filter_app.
  rewrite (Spliced_filter _ isLevel0 _ _ Hlink (spliceLinks_spliced _ _ _)).
  rewrite emitRecords_eq. cbn [fst snd].
  rewrite !filter_app, headerLines_level0, sourceRecords_level0,
    personBlocks_level0, (familyRecords_level0 _ records_lines).
  cbn [filter]. replace (isLevel0 "0 TRLR") with true by reflexivity.
  now rewrite <- !app_assoc.
Qed.

(** Every citation of the document names a source record above it. *)
Lemma document_citations :
  Resolved numSources []
    (push (fst (emitAll people options now g connectable)) "0 TRLR").
Proof.
  unfold push, emitAll. cbn [fst snd].
  apply Resolved_app. split.
  - apply (Resolved_Spliced _
             (LinkTo (snd (emitRecords people options now g connectable)))
             (fst (emitRecords people options now g connectable))).
    { intros x (key & famId & _ & [-> | ->]); vm_compute; reflexivity. }
    { apply spliceLinks_spliced. }
    rewrite emitRecords_eq. cbn [fst snd].
    rewrite app_assoc. apply Resolved_app. split.
    + apply Resolved_all. intros l Hl Hc.
      apply in_app_or in Hl as [Hl|Hl].
      * pose proof (headerLines_no_citation (treeNameOf options) now) as H.
        rewrite Forall_forall in H. rewrite (H l Hl) in Hc. discriminate.
      * pose proof (sourceRecords_no_citation (g_sourceMap g) 1) as H.
        rewrite Forall_forall in H. rewrite (H l Hl) in Hc. discriminate.
    + apply Resolved_all. intros l Hl Hc.
      assert (Hi : exists i, i < numSources /\ l = citation i).
      { apply in_app_or in Hl as [Hl|Hl].
        - apply in_flat_map in Hl as (p & _ & Hl).
          destruct (personBlockOf_lines p) as (rest & Hp & Hrest).
          rewrite Hp in Hl. apply in_app_or in Hl as [Hl|Hl].
          + pose proof (personHeaders_level0 (allowOrphansOf options)
                          (g_personIdMap g)
                          (fst (indexFamilies connectable (g_families g)))
                          (snd (indexFamilies connectable (g_families g))) p)
              as H.
            rewrite Forall_forall in H. destruct (H l Hl) as [_ H'].
            rewrite H' in Hc. discriminate.
          + rewrite Forall_forall in Hrest.
            destruct (Hrest l Hl) as [H|H]; [|exact H].
            rewrite (plain_not_citation _ (body_plain _ H)) in Hc.
            discriminate.
        - apply in_flat_map in Hl as (r & Hr & Hl).
          destruct (records_lines r Hr) as (rest & Hp & Hrest).
          rewrite Hp in Hl. destruct Hl as [<-|Hl];
            [vm_compute in Hc; discriminate Hc|].
          rewrite Forall_forall in Hrest.
          rewrite (plain_not_citation _ (Hrest l Hl)) in Hc. discriminate. }
      destruct Hi as (i & Hlt & ->). exists i. repeat split; auto.
      apply in_or_app. right. apply in_or_app. right.
      replace (i + 1) with (1 + i) by lia.
      now apply sourceRecords_header.
  - cbn [Resolved]. split; [|exact I].
    intros H. vm_compute in H. discriminate H.
Qed.

End Skeleton.

Lemma personIdMap_values (people : list EnhancedPerson) (id gedcomId : string) :
  mapGet (buildPersonIdMap people) id = Some gedcomId ->
  exists i, gedcomId = personGedcomId i.
Proof.
  intros H. destruct (in_dec string_dec id (map personId people)) as [Hin|Hin].
  - destruct (personIdMap_fold_some people [] 0 id Hin) as [i Hi].
    exists i.
    change (mapGet (buildPersonIdMap people) id = Some (personGedcomId i))
      in Hi.
    rewrite Hi in H. injection H as <-. reflexivity.
  - pose proof (personIdMap_fold_other people [] 0 id Hin) as Hn.
    change (mapGet (buildPersonIdMap people) id = None) in Hn.
    rewrite Hn in H. discriminate H.
Qed.

Lemma personHeadersOf_shape (data : EnhancedPedigreeData)
  (people : list EnhancedPerson) (options : GedcomConversionOptions)
  (connectable : JsSet) (person : EnhancedPerson) (line : string) :
  In line (personHeadersOf options (buildGraph data people) connectable person)
  -> exists i, line = indiHeader (personGedcomId i).
Proof.
  unfold personHeadersOf, personHeaders.
  destruct (buildGraph_ok data people) as (_ & _ & -> & _).
  destruct (mapGet (buildPersonIdMap people) (personId person)) as [gid|] eqn:E;
    [|intros []].
  destruct (Js.isEmpty gid); [intros []|].
  destruct (isOrphanPerson _ _ _ person); [intros []|].
  intros [<-|[]]. destruct (personIdMap_values _ _ _ E) as [i ->]. now exists i.
Qed.

(** The FAM headers of the document are the headers of the family
    records. *)
Lemma fam_headers (data : EnhancedPedigreeData)
  (people : list EnhancedPerson) (options : GedcomConversionOptions)
  (now : JsDate) (connectable : JsSet) (line : string) :
  In line (fst (emitAll people options now (buildGraph data people)
                        connectable)) ->
  Js.startsWith line "0 @F" = true ->
  exists r,
    In r (familyRecordsOf people options (buildGraph data people) connectable)
    /\ line = famHeader (fr_id r).
Proof.
  intros Hin Hf.
  assert (H0 : isLevel0 line = true).
  { destruct (JsFacts.startsWith_spec _ _ Hf) as [r ->].
    vm_compute. reflexivity. }
  assert (H : In line
                (filter isLevel0
                   (push (fst (emitAll people options now
                                       (buildGraph data people) connectable))
                         "0 TRLR"))).
  { apply filter_In. split; [|exact H0]. apply In_push. now left. }
  rewrite document_skeleton in H.
  apply in_app_or in H as [H|H].
  { destruct H as [<-|[<-|[]]]; vm_compute in Hf; discriminate Hf. }
  apply in_app_or in H as [H|H].
  { apply in_map_iff in H as (n & <- & _).
    vm_compute in Hf. discriminate Hf. }
  apply in_app_or in H as [H|H].
  { apply in_flat_map in H as (p & _ & H).
    apply personHeadersOf_shape in H as [i ->].
    vm_compute in Hf. discriminate Hf. }
  apply in_app_or in H as [H|H].
  - apply in_map_iff in H as (r & <- & Hr). now exists r.
  - destruct H as [<-|[]]. vm_compute in Hf. discriminate Hf.
Qed.

Lemma flat_map_segment {A : Type} (f : A -> list string) (l : list A) (x : A) :
  In x l -> exists before after, flat_map f l = before +++ f x +++ after.
Proof.
  intros H. apply in_split in H as (l1 & l2 & ->).
  exists (flat_map f l1), (flat_map f l2).
  now rewrite flat_map_app.
Qed.

(** ** Structural validity of FAM records *)

(** X3. Every FAM header of the lines a conversion builds opens one of
    the records of step 6; each such record has as many HUSB and WIFE
    lines as its family has spouses and as many CHIL lines as it has
    children, at least one spouse, and at least one child when it has
    exactly one spouse; and a family with no spouse, or with one spouse
    and no child, has no record at all. *)
Theorem emitted_families_valid (data : EnhancedPedigreeData)
  (people : list EnhancedPerson) (options : GedcomConversionOptions)
  (now : JsDate) (connectable : JsSet) :
  let g := buildGraph data people in
  let records := familyRecordsOf people options g connectable in
  (forall line,
      In line (fst (emitAll people options now g connectable)) ->
      Js.startsWith line "0 @F" = true ->
      exists r, In r records /\ line = famHeader (fr_id r))
  /\ (forall r,
         In r records ->
         (exists before after,
             fst (emitRecords people options now g connectable)
             = before +++ fr_lines r +++ after)
         /\ hd_error (fr_lines r) = Some (famHeader (fr_id r))
         /\ countLines isSpouseLine (fr_lines r)
            = List.length (spouses (fr_family r))
         /\ countLines isChildLine (fr_lines r)
            = List.length (children (fr_family r))
         /\ 1 <= countLines isSpouseLine (fr_lines r)
         /\ (countLines isSpouseLine (fr_lines r) = 1 ->
             1 <= countLines isChildLine (fr_lines r)))
  /\ (forall key family,
         In (key, family) (g_families g) ->
         spouses family = []
         \/ (List.length (spouses family) = 1 /\ children family = []) ->
         forall r, In r records ->
                   ~ (fr_key r = key /\ fr_family r = family)).
Proof.
  cbv zeta. split; [|split].
  - intros line. apply fam_headers.
  - intros r Hr.
    destruct (records_spec _ _ _ _ _ _ _ _ Hr) as (Hin & Hskip & Hlines).
    destruct (famRecord_counts data people options connectable
                (fr_key r) (fr_id r) (fr_family r) Hin) as [Hs Hc].
    destruct (not_skipped_valid data people options connectable
                (fr_key r) (fr_family r) Hin Hskip) as [H1 H2].
    rewrite <- Hlines in Hs, Hc.
    split; [|split; [|split; [exact Hs | split; [exact Hc | split]]]].
    + rewrite emitRecords_eq. cbn [fst snd].
      destruct (flat_map_segment fr_lines _ r Hr) as (before & after & Hseg).
      rewrite Hseg.
      exists (headerLines (treeNameOf options) now
              +++ sourceRecords 1 (g_sourceMap (buildGraph data people))
              +++ flat_map (personBlockOf options (buildGraph data people)
                                          connectable) people
              +++ before), after.
      rewrite <- !app_assoc. reflexivity.
    + rewrite Hlines. reflexivity.
    + rewrite Hs. exact H1.
    + rewrite Hs, Hc. exact H2.
  - intros key family Hin Hbad r Hr [Hk Hf].
    destruct (records_spec _ _ _ _ _ _ _ _ Hr) as (Hin' & Hskip & _).
    rewrite Hf in *.
    destruct (not_skipped_valid data people options connectable
                (fr_key r) family Hin' Hskip) as [H1 H2].
    destruct Hbad as [Hbad|[Hone Hnone]].
    + rewrite Hbad in H1. simpl in H1. lia.
    + specialize (H2 Hone). rewrite Hnone in H2. simpl in H2. lia.
Qed.

(** ** HUSB and WIFE *)

(** X4. In the FAM record of a family with two spouses, the first spouse
    is HUSB and the second WIFE exactly when the first spouse's gender is
    male or the second spouse's gender is female; otherwise, and so when
    both genders are unknown, the second spouse is HUSB and the first
    WIFE.  These are the only HUSB and WIFE lines of the record. *)
Theorem spouse_orientation (data : EnhancedPedigreeData)
  (people : list EnhancedPerson) (options : GedcomConversionOptions)
  (connectable : JsSet) (r : FamRecord) (spouse1 spouse2 : string) :
  In r (familyRecordsOf people options (buildGraph data people) connectable) ->
  spouses (fr_family r) = [spouse1; spouse2] ->
  exists id1 id2 before after,
    mapGet (g_personIdMap (buildGraph data people)) spouse1 = Some id1
    /\ mapGet (g_personIdMap (buildGraph data people)) spouse2 = Some id2
    /\ fr_lines r
       = before
         +++ (if optEqb (genderOf people spouse1) "M"
                 || optEqb (genderOf people spouse2) "F"
              then ["1 HUSB " ++ id1; "1 WIFE " ++ id2]
              else ["1 HUSB " ++ id2; "1 WIFE " ++ id1])
         +++ after
    /\ countLines isSpouseLine before = 0
    /\ countLines isSpouseLine after = 0.
Proof.
  intros Hr Hsp.
  destruct (records_spec _ _ _ _ _ _ _ _ Hr) as (Hin & _ & Hlines).
  destruct (spouseLines_shape data people (fr_key r) (fr_family r) Hin)
    as [(s & id & Hs & _) | (s1 & s2 & id1 & id2 & Hs & H1 & H2 & Hl)];
    [congruence|].
  rewrite Hsp in Hs. injection Hs as <- <-.
  exists id1, id2.
  exists (famHeader (fr_id r)
          :: pushIf (isOrphanFamily connectable (fr_family r)
                     && allowOrphansOf options) "1 _IS_ORPHAN_FAMILY Y").
  exists (addMarriageFacts (g_allRelationships (buildGraph data people))
                           spouse1 spouse2
          +++ childLines (g_personIdMap (buildGraph data people))
                (fr_family r)).
  split; [exact H1|]. split; [exact H2|]. split; [|split].
  - rewrite Hlines. unfold famRecord. rewrite Hl.
    cbn [app]. now rewrite <- !app_assoc.
  - destruct (isOrphanFamily connectable (fr_family r)
              && allowOrphansOf options); reflexivity.
  - rewrite countLines_app.
    rewrite (body_no_spouse _ (addMarriageFacts_body _ _ _)).
    now destruct (childLines_count data people (fr_key r) (fr_family r) Hin)
      as [_ ->].
Qed.

Lemma spouse_orientation_witness :
  exists r,
    In r (familyRecordsOf Sample.scenarioBPeople
            (Sample.options (Some ["P1"]) true)
            (buildGraph Sample.scenarioB Sample.scenarioBPeople)
            ["P1"; "P2"; "P3"])
    /\ spouses (fr_family r) = ["P4"; "P5"]
    /\ exists before after,
         fr_lines r = before +++ ["1 HUSB @I2@"; "1 WIFE @I1@"] +++ after.
Proof.
  exists {| fr_key := "P4-P5"; fr_id := "@F2@";
            fr_family := {| spouses := ["P4"; "P5"]; children := [] |};
            fr_lines := ["0 @F2@ FAM"; "1 _IS_ORPHAN_FAMILY Y";
                         "1 HUSB @I2@"; "1 WIFE @I1@"] |}.
  assert (Hin : In {| fr_key := "P4-P5"; fr_id := "@F2@";
                      fr_family := {| spouses := ["P4"; "P5"];
                                      children := [] |};
                      fr_lines := ["0 @F2@ FAM"; "1 _IS_ORPHAN_FAMILY Y";
                                   "1 HUSB @I2@"; "1 WIFE @I1@"] |}
                   (familyRecordsOf Sample.scenarioBPeople
                      (Sample.options (Some ["P1"]) true)
                      (buildGraph Sample.scenarioB Sample.scenarioBPeople)
                      ["P1"; "P2"; "P3"]))
    by (vm_compute; auto).
  split; [exact Hin|]. split; [reflexivity|].
  destruct (spouse_orientation Sample.scenarioB Sample.scenarioBPeople
              (Sample.options (Some ["P1"]) true) ["P1"; "P2"; "P3"]
              _ "P4" "P5" Hin eq_refl)
    as (id1 & id2 & before & after & H1 & H2 & Hl & _).
  vm_compute in H1, H2. injection H1 as <-. injection H2 as <-.
  exists before, after. exact Hl.
Defined.

(** ** Maps with distinct keys *)

Section DistinctKeys.

Lemma NoDup_push {A : Type} (l : list A) (x : A) :
  NoDup l -> ~ In x l -> NoDup (push l x).
Proof.
  unfold push. induction 1 as [|y l Hy Hl IH]; intros Hx; simpl.
  - constructor; [intros [] | constructor].
  - constructor.
    + rewrite in_app_iff. simpl. intros [H|[H|[]]]; [contradiction|].
      apply Hx. now left.
    + apply IH. intros H. apply Hx. now right.
Qed.

Lemma mapSet_NoDup {V : Type} (m : JsMap V) (k : string) (v : V) :
  NoDup (mapKeys m) -> NoDup (mapKeys (mapSet m k v)).
Proof.
  intros H. rewrite mapKeys_mapSet. destruct (mapHas m k) eqn:E; [exact H|].
  apply NoDup_push; [exact H|]. intros Hin.
  apply mapHas_keys in Hin. congruence.
Qed.

Lemma NoDup_mapGet {V : Type} (m : JsMap V) (k : string) (v : V) :
  NoDup (mapKeys m) -> In (k, v) m -> mapGet m k = Some v.
Proof.
  unfold mapKeys. induction m as [|[k' v'] m IH]; simpl; [tauto|].
  intros Hnd Hin. inversion Hnd as [|? ? Hk Hm]; subst.
  destruct Hin as [[= -> ->]|Hin]; [now rewrite String.eqb_refl|].
  destruct (String.eqb k' k) eqn:E; [|now apply IH].
  apply String.eqb_eq in E. subst k'. exfalso. apply Hk.
  apply in_map_iff. now exists (k, v).
Qed.

Lemma setAdd_NoDup (s : JsSet) (k : string) : NoDup s -> NoDup (setAdd s k).
Proof.
  intros H. unfold setAdd. destruct (setHas s k) eqn:E; [exact H|].
  apply NoDup_push; [exact H|]. now apply setHas_false.
Qed.

Lemma fold_setAdd_NoDup (l : list string) (s : JsSet) :
  NoDup s -> NoDup (fold_left setAdd l s).
Proof.
  intros H. apply fold_left_invariant; [exact H|].
  intros a b _. apply setAdd_NoDup.
Qed.

Lemma setOfList_NoDup (l : list string) : NoDup (setOfList l).
Proof. apply fold_setAdd_NoDup. constructor. Qed.

(** A step of the graph builder leaves a map alone or sets one key. *)
Lemma processRelationship_sets (valid : JsSet)
  (st : JsMap Family * JsMap (list string)) (rel : Relationship) :
  (fst (processRelationship valid st rel) = fst st
   \/ exists k v, fst (processRelationship valid st rel) = mapSet (fst st) k v)
  /\ (snd (processRelationship valid st rel) = snd st
      \/ exists k v,
           snd (processRelationship valid st rel) = mapSet (snd st) k v).
Proof.
  destruct st as [families childToParents]. unfold processRelationship.
  destruct (optIncludes (rel_type rel) "ParentChild").
  - destruct (refId (person1 rel)) as [parentId|]; [|split; now left].
    destruct (refId (person2 rel)) as [childId|]; [|split; now left].
    destruct (Js.isEmpty parentId || Js.isEmpty childId); [split; now left|].
    destruct (negb (setHas valid childId)); [split; now left|].
    match goal with
    | |- context [Nat.ltb 0 (List.length ?v)] => set (vp := v)
    end.
    destruct (Nat.ltb 0 (List.length vp)); [|split; now left].
    split; [now left|]. right. cbn [fst snd]. eauto.
  - destruct (optIncludes (rel_type rel) "Couple"); [|split; now left].
    destruct (refId (person1 rel)) as [p1|]; [|split; now left].
    destruct (refId (person2 rel)) as [p2|]; [|split; now left].
    destruct (Js.isEmpty p1 || Js.isEmpty p2); [split; now left|].
    destruct (setHas valid p1 && setHas valid p2); [|split; now left].
    destruct (negb (mapHas families (Js.sortJoin p1 p2)));
      [|split; now left].
    split; [|now left]. right. cbn [fst snd]. eauto.
Qed.

Lemma attachChild_sets (families : JsMap Family)
  (entry : string * list string) :
  attachChild families entry = families
  \/ exists k v, attachChild families entry = mapSet families k v.
Proof.
  destruct entry as [childId parents]. unfold attachChild, attachTo.
  destruct parents as [|a [|b rest]]; [now left | right | right]; eauto.
Qed.

(** The keys of the family map and of the child-to-parents map are
    distinct. *)
Lemma buildFamilies_keys (valid : JsSet)
  (allRelationships : list Relationship) :
  NoDup (mapKeys (fst (buildFamilies valid allRelationships)))
  /\ NoDup (mapKeys (snd (buildFamilies valid allRelationships))).
Proof.
  unfold buildFamilies.
  assert (H : NoDup (mapKeys (fst (fold_left (processRelationship valid)
                                             allRelationships ([], []))))
              /\ NoDup (mapKeys (snd (fold_left (processRelationship valid)
                                                allRelationships ([], []))))).
  { apply (fold_left_invariant
             (fun st => NoDup (mapKeys (fst st))
                        /\ NoDup (mapKeys (snd st)))).
    - split; constructor.
    - intros st rel _ [Hf Hc].
      destruct (processRelationship_sets valid st rel)
        as [[-> | (k & v & ->)] [-> | (k' & v' & ->)]];
        split; auto using mapSet_NoDup. }
  destruct (fold_left _ allRelationships _) as [families childToParents].
  cbn [fst snd] in *. destruct H as [Hf Hc]. split; [|exact Hc].
  apply (fold_left_invariant (fun m => NoDup (mapKeys m))); [exact Hf|].
  intros m entry _ Hm.
  destruct (attachChild_sets m entry) as [-> | (k & v & ->)];
    auto using mapSet_NoDup.
Qed.

Lemma buildGraph_keys (data : EnhancedPedigreeData)
  (people : list EnhancedPerson) :
  NoDup (mapKeys (g_families (buildGraph data people)))
  /\ NoDup (mapKeys (g_childToParents (buildGraph data people))).
Proof.
  unfold buildGraph.
  pose proof (buildFamilies_keys (setOfList (map personId people))
                (collectRelationships data people)) as H.
  destruct (buildFamilies _ _) as [families childToParents]. exact H.
Qed.

End DistinctKeys.

(** ** Orphan families and the person-to-family index *)

Section FamilyIndex.

Variable connectable : JsSet.

Local Abbreviation orphanStep :=
  (fun (orphanFamKeys : JsSet) (entry : string * Family) =>
     if isOrphanFamily connectable (snd entry)
     then setAdd orphanFamKeys (fst entry) else orphanFamKeys).

Local Abbreviation memberStep :=
  (fun (personToFamKeys : JsMap JsSet) (entry : string * Family) =>
     fold_left (addFamKey (fst entry)) (children (snd entry))
       (fold_left (addFamKey (fst entry)) (spouses (snd entry))
                  personToFamKeys)).

Lemma indexFamilies_fold (families : JsMap Family) (orphanFamKeys : JsSet)
  (personToFamKeys : JsMap JsSet) :
  fold_left
    (fun '(orphanFamKeys, personToFamKeys) '(key, family) =>
       (if isOrphanFamily connectable family
        then setAdd orphanFamKeys key else orphanFamKeys,
        fold_left (addFamKey key) (children family)
          (fold_left (addFamKey key) (spouses family) personToFamKeys)))
    families (orphanFamKeys, personToFamKeys)
  = (fold_left orphanStep families orphanFamKeys,
     fold_left memberStep families personToFamKeys).
Proof.
  revert orphanFamKeys personToFamKeys.
  induction families as [|[key family] rest IH]; intros o p; simpl;
    [reflexivity|].
  apply IH.
Qed.

Lemma isOrphanFamily_spec (family : Family) :
  isOrphanFamily connectable family = true
  <-> forall x, In x (spouses family +++ children family) ->
                ~ In x connectable.
Proof.
  unfold isOrphanFamily. rewrite negb_true_iff, orb_false_iff. split.
  - intros [Hs Hc] x Hx Hin.
    apply in_app_or in Hx as [Hx|Hx].
    + assert (anyIn connectable (spouses family) = true)
        by (apply anyIn_spec; eauto).
      congruence.
    + assert (anyIn connectable (children family) = true)
        by (apply anyIn_spec; eauto).
      congruence.
  - intros H. split.
    + destruct (anyIn connectable (spouses family)) eqn:E; [|reflexivity].
      apply anyIn_spec in E as (y & Hy & Hc).
      exfalso. apply (H y); [apply in_or_app; now left | exact Hc].
    + destruct (anyIn connectable (children family)) eqn:E; [|reflexivity].
      apply anyIn_spec in E as (y & Hy & Hc).
      exfalso. apply (H y); [apply in_or_app; now right | exact Hc].
Qed.

Lemma orphanKeys_fold (families : JsMap Family) (orphanFamKeys : JsSet)
  (k : string) :
  In k (fold_left orphanStep families orphanFamKeys)
  <-> In k orphanFamKeys
      \/ exists family, In (k, family) families
                        /\ isOrphanFamily connectable family = true.
Proof.
  revert orphanFamKeys.
  induction families as [|[key family] rest IH]; intros o; simpl.
  - split; [auto | intros [H|(f & [] & _)]; exact H].
  - rewrite IH. destruct (isOrphanFamily connectable family) eqn:E.
    + rewrite In_setAdd. split.
      * intros [[H| ->]|(f & Hf & Ho)]; [now left | right | right].
        -- exists family. split; [now left | exact E].
        -- exists f. split; [now right | exact Ho].
      * intros [H|(f & [[= -> ->]|Hf] & Ho)].
        -- left. now left.
        -- left. now right.
        -- right. now exists f.
    + split.
      * intros [H|(f & Hf & Ho)]; [now left | right].
        exists f. split; [now right | exact Ho].
      * intros [H|(f & [[= -> ->]|Hf] & Ho)];
          [now left | congruence | right; now exists f].
Qed.

(** The orphan keys are the keys of the families without a connectable
    member. *)
Lemma orphanKeys_spec (families : JsMap Family) (k : string) :
  In k (fst (indexFamilies connectable families))
  <-> exists family, In (k, family) families
                     /\ isOrphanFamily connectable family = true.
Proof.
  unfold indexFamilies. rewrite indexFamilies_fold. cbn [fst].
  rewrite orphanKeys_fold. split; [intros [[]|H]; exact H | now right].
Qed.

Lemma addFamKey_keys (key : string) (personToFamKeys : JsMap JsSet)
  (id x k : string) :
  In k (orEmpty (mapGet (addFamKey key personToFamKeys id) x))
  <-> In k (orEmpty (mapGet personToFamKeys x)) \/ (id = x /\ k = key).
Proof.
  unfold addFamKey. rewrite mapGet_mapSet.
  destruct (String.eqb id x) eqn:E.
  - apply String.eqb_eq in E. subst x. cbn [orEmpty]. rewrite In_setAdd.
    split; intros [H|H]; auto. now right.
  - apply String.eqb_neq in E. split; [now left | intros [H|[H _]]; tauto].
Qed.

Lemma addFamKeys_keys (key : string) (ids : list string)
  (personToFamKeys : JsMap JsSet) (x k : string) :
  In k (orEmpty (mapGet (fold_left (addFamKey key) ids personToFamKeys) x))
  <-> In k (orEmpty (mapGet personToFamKeys x)) \/ (In x ids /\ k = key).
Proof.
  revert personToFamKeys. induction ids as [|id ids IH]; intros p; simpl.
  - tauto.
  - rewrite IH, addFamKey_keys. intuition.
Qed.

Lemma memberKeys_fold (families : JsMap Family)
  (personToFamKeys : JsMap JsSet) (x k : string) :
  In k (orEmpty (mapGet (fold_left memberStep families personToFamKeys) x))
  <-> In k (orEmpty (mapGet personToFamKeys x))
      \/ exists family,
           In (k, family) families
           /\ In x (spouses family +++ children family).
Proof.
  revert personToFamKeys.
  induction families as [|[key family] rest IH]; intros p; simpl.
  - split; [auto | intros [H|(f & [] & _)]; exact H].
  - rewrite IH, !addFamKeys_keys. cbn [fst snd]. split.
    + intros [[[H|[Hx ->]]|[Hx ->]]|(f & Hf & Hx)].
      * now left.
      * right. exists family. split; [now left | apply in_or_app; now left].
      * right. exists family. split; [now left | apply in_or_app; now right].
      * right. exists f. split; [now right | exact Hx].
    + intros [H|(f & [[= -> ->]|Hf] & Hx)].
      * left. left. now left.
      * apply in_app_or in Hx as [Hx|Hx]; left; [left; right | right]; auto.
      * right. now exists f.
Qed.

(** The index lists, for each person, the keys of the families the person
    is a spouse or a child of. *)
Lemma memberKeys_spec (families : JsMap Family) (x k : string) :
  In k (orEmpty (mapGet (snd (indexFamilies connectable families)) x))
  <-> exists family,
        In (k, family) families
        /\ In x (spouses family +++ children family).
Proof.
  unfold indexFamilies. rewrite indexFamilies_fold. cbn [snd].
  rewrite memberKeys_fold. split; [intros [[]|H]; exact H | now right].
Qed.

Lemma isOrphanPerson_keys (allowOrphans : bool) (orphanFamKeys : JsSet)
  (personToFamKeys : JsMap JsSet) (person : EnhancedPerson) :
  isOrphanPerson allowOrphans orphanFamKeys personToFamKeys person = true
  <-> allowOrphans = false
      /\ orEmpty (mapGet personToFamKeys (personId person)) <> []
      /\ forall k,
           In k (orEmpty (mapGet personToFamKeys (personId person))) ->
           In k orphanFamKeys.
Proof.
  unfold isOrphanPerson.
  rewrite andb_true_iff, negb_true_iff.
  destruct (mapGet personToFamKeys (personId person)) as [keys|];
    cbn [orEmpty].
  - rewrite andb_true_iff, forallb_forall, Nat.ltb_lt.
    split; intros (H1 & H2 & H3); (split; [exact H1 | split]).
    + intros ->. simpl in H2. lia.
    + intros k Hk. apply setHas_In. now apply H3.
    + destruct keys; [congruence | simpl; lia].
    + intros k Hk. apply setHas_In. now apply H3.
  - split; [intros [_ H]; discriminate H | intros (_ & H & _); congruence].
Qed.

(** Who the orphan filter leaves out: with orphan families not allowed, a
    person who belongs to some family and whose families all lack a
    connectable member. *)
Lemma isOrphanPerson_spec (allowOrphans : bool) (families : JsMap Family)
  (person : EnhancedPerson) :
  NoDup (mapKeys families) ->
  isOrphanPerson allowOrphans
                 (fst (indexFamilies connectable families))
                 (snd (indexFamilies connectable families)) person = true
  <-> allowOrphans = false
      /\ (exists key family,
             In (key, family) families
             /\ In (personId person) (spouses family +++ children family))
      /\ (forall key family,
             In (key, family) families ->
             In (personId person) (spouses family +++ children family) ->
             isOrphanFamily connectable family = true).
Proof.
  intros Hnd. rewrite isOrphanPerson_keys. split.
  - intros (Ha & Hne & Hall). split; [exact Ha|]. split.
    + destruct (orEmpty _) as [|k keys] eqn:E; [congruence|].
      assert (Hk : In k (orEmpty (mapGet (snd (indexFamilies connectable
                                                 families))
                                         (personId person))))
        by (rewrite E; now left).
      apply memberKeys_spec in Hk as (family & Hf & Hx).
      now exists k, family.
    + intros key family Hf Hx.
      assert (Hk : In key (fst (indexFamilies connectable families))).
      { apply Hall. apply memberKeys_spec. now exists family. }
      apply orphanKeys_spec in Hk as (family' & Hf' & Ho).
      apply (NoDup_mapGet _ _ _ Hnd) in Hf, Hf'. congruence.
  - intros (Ha & (key & family & Hf & Hx) & Hall).
    split; [exact Ha|]. split.
    + assert (Hk : In key (orEmpty (mapGet (snd (indexFamilies connectable
                                                   families))
                                           (personId person))))
        by (apply memberKeys_spec; now exists family).
      intros E. rewrite E in Hk. destruct Hk.
    + intros k Hk. apply memberKeys_spec in Hk as (f & Hf' & Hx').
      apply orphanKeys_spec. exists f. split; [exact Hf'|].
      now apply (Hall k f).
Qed.

End FamilyIndex.

(** ** Where the lines of the document come from *)

Section Document.

Variable people : list EnhancedPerson.
Variable options : GedcomConversionOptions.
Variable now : JsDate.
Variable g : Graph.
Variable connectable : JsSet.

Local Abbreviation records := (familyRecordsOf people options g connectable).
Local Abbreviation numSources := (List.length (g_sourceMap g)).
Local Abbreviation emitted :=
  (fst (emitRecords people options now g connectable)).
Local Abbreviation familyIdMap :=
  (snd (emitRecords people options now g connectable)).
Local Abbreviation final := (fst (emitAll people options now g connectable)).

Lemma sourceRecords_classified (P : string -> Prop)
  (sourceMap : JsMap SourceDescription) (n : nat) :
  (forall n, P (sourceHeader n)) ->
  (forall l, isBodyLine l = true -> P l) ->
  Forall P (sourceRecords n sourceMap).
Proof.
  intros Hh Hb. revert n.
  induction sourceMap as [|[k source] rest IH]; intros n; [constructor|].
  rewrite sourceRecords_cons. apply Forall_app. split; [|apply IH].
  constructor; [apply Hh|].
  eapply Forall_impl; [|apply sourceBody_body]. exact Hb.
Qed.

(** Every line pushed by steps 1 to 6 is a header line, the header of a
    source, a body line, a citation of a source of the map, the header of
    a person, or a line of a family record. *)
Lemma emitted_classified (P : string -> Prop) :
  (forall l, In l (headerLines (treeNameOf options) now) -> P l) ->
  (forall n, P (sourceHeader n)) ->
  (forall l, isBodyLine l = true -> P l) ->
  (forall i, i < numSources -> P (citation i)) ->
  (forall p l, In p people ->
               In l (personHeadersOf options g connectable p) -> P l) ->
  (forall r, In r records -> P (famHeader (fr_id r))) ->
  (forall r l, In r records ->
               In l (spouseLines people (g_personIdMap g)
                                 (g_allRelationships g) (fr_family r)) ->
               P l) ->
  (forall r l, In r records ->
               In l (childLines (g_personIdMap g) (fr_family r)) -> P l) ->
  Forall P emitted.
Proof.
  intros Hhead Hsrc Hbody Hcite Hindi Hfam Hsp Hch.
  rewrite emitRecords_eq. cbn [fst].
  apply Forall_app. split; [now apply Forall_forall|].
  apply Forall_app. split; [now apply sourceRecords_classified|].
  apply Forall_app. split.
  - apply Forall_flat_map. intros p Hp.
    destruct (personBlockOf_lines options g connectable p)
      as (rest & -> & Hrest).
    apply Forall_app. split.
    + apply Forall_forall. intros l Hl. now apply (Hindi p).
    + eapply Forall_impl; [|exact Hrest].
      intros l [H|(i & Hi & ->)]; auto.
  - apply Forall_flat_map. intros r Hr.
    destruct (records_spec _ _ _ _ _ _ _ _ Hr) as (_ & _ & ->).
    unfold famRecord. split_blocks.
    + now apply Hfam.
    + apply Hbody. vm_compute; reflexivity.
    + apply Forall_forall. intros l Hl. now apply (Hsp r).
    + apply Forall_forall. intros l Hl. now apply (Hch r).
Qed.

Lemma emitted_person_header (p : EnhancedPerson) (l : string) :
  In p people -> In l (personHeadersOf options g connectable p) ->
  In l emitted.
Proof.
  intros Hp Hl. rewrite emitRecords_eq. cbn [fst].
  apply in_or_app. right. apply in_or_app. right. apply in_or_app. left.
  apply in_flat_map. exists p. split; [exact Hp|].
  destruct (personBlockOf_lines options g connectable p) as (rest & -> & _).
  apply in_or_app. now left.
Qed.

Lemma emitted_record_line (r : FamRecord) (l : string) :
  In r records -> In l (fr_lines r) -> In l emitted.
Proof.
  intros Hr Hl. rewrite emitRecords_eq. cbn [fst].
  apply in_or_app. right. apply in_or_app. right. apply in_or_app. right.
  apply in_flat_map. now exists r.
Qed.

Lemma emitted_in_final (l : string) : In l emitted -> In l final.
Proof.
  unfold emitAll. cbn [fst]. apply (Spliced_In _ _ _ _ (spliceLinks_spliced _ _ _)).
Qed.

Lemma final_origin (l : string) :
  In l final -> In l emitted \/ LinkTo familyIdMap l.
Proof.
  unfold emitAll. cbn [fst].
  apply (Spliced_In_inv _ _ _ _ (spliceLinks_spliced _ _ _)).
Qed.

Lemma level0_not_link (l : string) :
  isLevel0 l = true -> isLinkLine l = false /\ isMemberLine l = false.
Proof.
  intros H. destruct (JsFacts.startsWith_spec _ _ H) as [r ->].
  split; vm_compute; reflexivity.
Qed.

Lemma body_not_link (l : string) :
  isBodyLine l = true -> isLinkLine l = false /\ isMemberLine l = false.
Proof.
  intros H. unfold isLinkLine, isMemberLine, isSpouseLine, isChildLine.
  rewrite (body_avoids "1 FAMC " l), (body_avoids "1 FAMS " l),
    (body_avoids "1 HUSB " l), (body_avoids "1 WIFE " l),
    (body_avoids "1 CHIL " l);
    try exact H; try (vm_compute; reflexivity).
  split; reflexivity.
Qed.

Lemma headerLines_not_link (name : string) (date : JsDate) (l : string) :
  In l (headerLines name date) ->
  isLinkLine l = false /\ isMemberLine l = false.
Proof.
  unfold headerLines. intros H.
  repeat (destruct H as [<-|H]; [split; vm_compute; reflexivity|]).
  destruct H.
Qed.

Lemma spouseLines_not_link (family : Family) (l : string) :
  In l (spouseLines people (g_personIdMap g) (g_allRelationships g) family) ->
  isLinkLine l = false.
Proof.
  unfold spouseLines. intros H.
  assert (Hid : forall tag id x,
             In tag ["1 HUSB "; "1 WIFE "] -> In x (idLine tag id) ->
             isLinkLine x = false).
  { intros tag id x Ht Hx. unfold idLine, pushIf in Hx.
    destruct (Js.truthy id); [|destruct Hx]. destruct Hx as [<-|[]].
    destruct Ht as [<-|[<-|[]]]; vm_compute; reflexivity. }
  destruct (spouses family) as [|s1 [|s2 [|s3 rest]]]; [destruct H | | |destruct H].
  - destruct (optEqb _ _); destruct H as [<-|[]]; vm_compute; reflexivity.
  - apply in_app_or in H as [H|H].
    + destruct (_ || _); apply in_app_or in H as [H|H];
        (eapply Hid; [|exact H]); simpl; auto.
    + pose proof (addMarriageFacts_body (g_allRelationships g) s1 s2) as Hb.
      rewrite Forall_forall in Hb. now apply body_not_link, Hb.
Qed.

Lemma childLines_not_link (family : Family) (l : string) :
  In l (childLines (g_personIdMap g) family) -> isLinkLine l = false.
Proof.
  unfold childLines. intros H. apply in_flat_map in H as (c & _ & H).
  unfold idLine, pushIf in H.
  destruct (Js.truthy _); [|destruct H]. destruct H as [<-|[]].
  vm_compute; reflexivity.
Qed.

(** Steps 1 to 6 push no FAMC or FAMS line. *)
Lemma emitted_no_links : Forall (fun l => isLinkLine l = false) emitted.
Proof.
  apply emitted_classified.
  - intros l Hl. now apply (headerLines_not_link _ _ _ Hl).
  - intros n. vm_compute; reflexivity.
  - intros l Hl. now apply body_not_link.
  - intros i _. vm_compute; reflexivity.
  - intros p l _ Hl.
    pose proof (personHeaders_level0 (allowOrphansOf options)
                  (g_personIdMap g)
                  (fst (indexFamilies connectable (g_families g)))
                  (snd (indexFamilies connectable (g_families g))) p) as H.
    rewrite Forall_forall in H. destruct (H l Hl) as [H0 _].
    now apply level0_not_link.
  - intros r _. vm_compute; reflexivity.
  - intros r l _. apply spouseLines_not_link.
  - intros r l _. apply childLines_not_link.
Qed.

Lemma familyIdMap_records (key famId : string) :
  mapGet familyIdMap key = Some famId ->
  exists r, In r records /\ fr_id r = famId.
Proof.
  rewrite emitRecords_eq. cbn [snd]. intros H. apply mapGet_In in H.
  revert H.
  apply (fold_left_invariant
           (fun m => In (key, famId) m ->
                     exists r, In r records /\ fr_id r = famId)).
  - intros [].
  - intros m r Hr IH Hin.
    apply In_mapSet in Hin as [[= _ ->]|Hin]; [now exists r | now apply IH].
Qed.

(** Every FAMC or FAMS line of the lines array names a family record of
    the array. *)
Lemma links_resolve (l : string) :
  In l final -> isLinkLine l = true ->
  exists famId,
    (l = "1 FAMC " ++ famId \/ l = "1 FAMS " ++ famId)
    /\ In (famHeader famId) final.
Proof.
  intros Hl Hlink. apply final_origin in Hl as [Hl|Hl].
  - pose proof emitted_no_links as H. rewrite Forall_forall in H.
    rewrite (H l Hl) in Hlink. discriminate Hlink.
  - destruct Hl as (key & famId & Hget & Hshape).
    exists famId. split; [exact Hshape|].
    destruct (familyIdMap_records _ _ Hget) as (r & Hr & <-).
    apply emitted_in_final, (emitted_record_line r); [exact Hr|].
    destruct (records_lines people options g connectable r Hr)
      as (rest & -> & _).
    now left.
Qed.

End Document.

(** ** Members of families and their records *)

Section Members.

Variable data : EnhancedPedigreeData.
Variable people : list EnhancedPerson.
Variable options : GedcomConversionOptions.
Variable now : JsDate.
Variable connectable : JsSet.

Local Abbreviation g := (buildGraph data people).
Local Abbreviation records := (familyRecordsOf people options g connectable).
Local Abbreviation emitted :=
  (fst (emitRecords people options now g connectable)).
Local Abbreviation final := (fst (emitAll people options now g connectable)).
Local Abbreviation orphanPerson :=
  (isOrphanPerson (allowOrphansOf options)
     (fst (indexFamilies connectable (g_families g)))
     (snd (indexFamilies connectable (g_families g)))).

(** The block of a person of the input: nothing when the orphan filter
    leaves the person out, and the INDI record under the person's
    identifier otherwise. *)
Lemma personHeadersOf_eq (p : EnhancedPerson) :
  In p people ->
  exists gedcomId,
    mapGet (g_personIdMap g) (personId p) = Some gedcomId
    /\ personHeadersOf options g connectable p
       = if orphanPerson p then [] else [indiHeader gedcomId].
Proof.
  intros Hp.
  destruct (buildGraph_ok data people) as (_ & _ & Hpim & _).
  destruct (personIdMap_get people (personId p)) as (gid & Hg & He);
    [now apply in_map|].
  exists gid. rewrite Hpim. split; [exact Hg|].
  unfold personHeadersOf, personHeaders. rewrite Hpim, Hg, He. reflexivity.
Qed.

(** A member of a family that has a record is not left out by the orphan
    filter. *)
Lemma member_kept (r : FamRecord) (p : EnhancedPerson) :
  In r records ->
  In (personId p) (spouses (fr_family r) +++ children (fr_family r)) ->
  orphanPerson p = false.
Proof.
  intros Hr Hx.
  destruct (records_spec _ _ _ _ _ _ _ _ Hr) as (Hin & Hskip & _).
  destruct (orphanPerson p) eqn:E; [|reflexivity].
  apply isOrphanPerson_spec in E as (Ha & _ & Hall);
    [|apply buildGraph_keys].
  specialize (Hall _ _ Hin Hx).
  unfold familySkipped in Hskip. rewrite Hall, Ha in Hskip.
  destruct (Nat.eqb _ 0); [discriminate Hskip|].
  destruct (Nat.eqb _ 1 && _); discriminate Hskip.
Qed.

(** The INDI record of a member of a family that has a record is in the
    lines array. *)
Lemma member_record (r : FamRecord) (x gedcomId : string) :
  In r records ->
  In x (spouses (fr_family r) +++ children (fr_family r)) ->
  mapGet (g_personIdMap g) x = Some gedcomId ->
  In (indiHeader gedcomId) final.
Proof.
  intros Hr Hx Hg.
  destruct (records_spec _ _ _ _ _ _ _ _ Hr) as (Hin & _ & _).
  destruct (buildGraph_ok data people) as (Hf & _).
  destruct (Hf _ _ Hin) as (_ & _ & Hs & Hc).
  assert (Hv : In x (map personId people))
    by (apply in_app_or in Hx as [Hx|Hx]; auto).
  apply in_map_iff in Hv as (p & <- & Hp).
  destruct (personHeadersOf_eq p Hp) as (gid & Hg' & Hh).
  rewrite Hg in Hg'. injection Hg' as <-.
  rewrite (member_kept r p Hr Hx) in Hh.
  apply emitted_in_final, (emitted_person_header _ _ _ _ _ p); [exact Hp|].
  rewrite Hh. now left.
Qed.

Lemma spouseLines_members (r : FamRecord) (l : string) :
  In r records ->
  In l (spouseLines people (g_personIdMap g) (g_allRelationships g)
                    (fr_family r)) ->
  isMemberLine l = true ->
  exists tag x gedcomId,
    In tag ["1 HUSB "; "1 WIFE "]
    /\ In x (spouses (fr_family r))
    /\ mapGet (g_personIdMap g) x = Some gedcomId
    /\ l = tag ++ gedcomId.
Proof.
  intros Hr Hl Hm.
  destruct (records_spec _ _ _ _ _ _ _ _ Hr) as (Hin & _ & _).
  destruct (spouseLines_shape data people (fr_key r) (fr_family r) Hin)
    as [(s & id & Hs & Hg & Hsl)
       | (s1 & s2 & id1 & id2 & Hs & Hg1 & Hg2 & Hsl)];
    rewrite Hsl in Hl; rewrite Hs.
  - destruct Hl as [<-|[]]. exists (if optEqb (genderOf people s) "M"
                                    then "1 HUSB " else "1 WIFE "), s, id.
    split; [destruct (optEqb _ _); simpl; auto|].
    split; [now left|]. split; [exact Hg | reflexivity].
  - apply in_app_or in Hl as [Hl|Hl].
    + destruct (_ || _); destruct Hl as [<-|[<-|[]]].
      * exists "1 HUSB ", s1, id1. simpl; auto 6.
      * exists "1 WIFE ", s2, id2. simpl; auto 6.
      * exists "1 HUSB ", s2, id2. simpl; auto 6.
      * exists "1 WIFE ", s1, id1. simpl; auto 6.
    + pose proof (addMarriageFacts_body (g_allRelationships g) s1 s2) as Hb.
      rewrite Forall_forall in Hb.
      destruct (body_not_link l (Hb l Hl)) as [_ H].
      rewrite H in Hm. discriminate Hm.
Qed.

Lemma childLines_members (r : FamRecord) (l : string) :
  In r records ->
  In l (childLines (g_personIdMap g) (fr_family r)) ->
  exists x gedcomId,
    In x (children (fr_family r))
    /\ mapGet (g_personIdMap g) x = Some gedcomId
    /\ l = "1 CHIL " ++ gedcomId.
Proof.
  intros Hr Hl.
  destruct (records_spec _ _ _ _ _ _ _ _ Hr) as (Hin & _ & _).
  unfold childLines in Hl. apply in_flat_map in Hl as (c & Hc & Hl).
  destruct (member_id data people (fr_key r) (fr_family r) c Hin)
    as (gid & Hg & He); [apply in_or_app; now right|].
  rewrite Hg, (idLine_some _ _ He) in Hl. destruct Hl as [<-|[]].
  now exists c, gid.
Qed.

(** Every HUSB, WIFE or CHIL line pushed by steps 1 to 6 names a member
    of a family that has a record. *)
Lemma emitted_members :
  Forall (fun l =>
            isMemberLine l = true ->
            exists r tag x gedcomId,
              In r records
              /\ In tag ["1 HUSB "; "1 WIFE "; "1 CHIL "]
              /\ In x (spouses (fr_family r) +++ children (fr_family r))
              /\ mapGet (g_personIdMap g) x = Some gedcomId
              /\ l = tag ++ gedcomId)
         emitted.
Proof.
  apply emitted_classified.
  - intros l Hl Hm.
    destruct (headerLines_not_link _ _ _ Hl) as [_ H].
    rewrite H in Hm. discriminate Hm.
  - intros n Hm. vm_compute in Hm. discriminate Hm.
  - intros l Hl Hm. destruct (body_not_link l Hl) as [_ H].
    rewrite H in Hm. discriminate Hm.
  - intros i _ Hm. vm_compute in Hm. discriminate Hm.
  - intros p l _ Hl Hm.
    pose proof (personHeaders_level0 (allowOrphansOf options)
                  (g_personIdMap g)
                  (fst (indexFamilies connectable (g_families g)))
                  (snd (indexFamilies connectable (g_families g))) p) as H.
    rewrite Forall_forall in H. destruct (H l Hl) as [H0 _].
    destruct (level0_not_link l H0) as [_ H'].
    rewrite H' in Hm. discriminate Hm.
  - intros r _ Hm. vm_compute in Hm. discriminate Hm.
  - intros r l Hr Hl Hm.
    destruct (spouseLines_members r l Hr Hl Hm)
      as (tag & x & gid & Ht & Hx & Hg & ->).
    exists r, tag, x, gid. split; [exact Hr|].
    split; [destruct Ht as [<-|[<-|[]]]; simpl; auto|].
    split; [apply in_or_app; now left|]. split; [exact Hg | reflexivity].
  - intros r l Hr Hl _.
    destruct (childLines_members r l Hr Hl) as (x & gid & Hx & Hg & ->).
    exists r, "1 CHIL ", x, gid. split; [exact Hr|].
    split; [simpl; auto|].
    split; [apply in_or_app; now right|]. split; [exact Hg | reflexivity].
Qed.

(** Every HUSB, WIFE or CHIL line of the lines array names an INDI record
    of the array. *)
Lemma members_resolve (l : string) :
  In l final -> isMemberLine l = true ->
  exists tag gedcomId,
    In tag ["1 HUSB "; "1 WIFE "; "1 CHIL "]
    /\ l = tag ++ gedcomId
    /\ In (indiHeader gedcomId) final.
Proof.
  intros Hl Hm. apply final_origin in Hl as [Hl|Hl].
  - pose proof emitted_members as H. rewrite Forall_forall in H.
    destruct (H l Hl Hm) as (r & tag & x & gid & Hr & Ht & Hx & Hg & ->).
    exists tag, gid. split; [exact Ht|]. split; [reflexivity|].
    now apply (member_record r x).
  - destruct Hl as (key & famId & _ & [-> | ->]);
      vm_compute in Hm; discriminate Hm.
Qed.

End Members.

(** ** The lines array of a conversion *)

(** A conversion of a person list finishes, with some connectable set. *)
Lemma convertLines_spec (data : EnhancedPedigreeData)
  (people : list EnhancedPerson) (options : GedcomConversionOptions)
  (now : JsDate) :
  exists connectable,
    connectablePersons (ancestryPersonIds options)
      (g_families (buildGraph data people))
      (g_childToParents (buildGraph data people)) = Some connectable
    /\ convertLines data people options now
       = Some (push (fst (emitAll people options now (buildGraph data people)
                                  connectable)) "0 TRLR").
Proof.
  destruct (connectablePersons_total (ancestryPersonIds options)
              (g_families (buildGraph data people))
              (g_childToParents (buildGraph data people))) as [c Hc].
  exists c. split; [exact Hc|]. unfold convertLines. now rewrite Hc.
Qed.

Lemma flat_map_indexed {A : Type} (f : A -> list string) (h : nat -> string)
  (kept : nat -> bool) (l : list A) (k : nat) :
  (forall i p, nth_error l i = Some p ->
               f p = if kept (k + i) then [h (k + i)] else []) ->
  flat_map f l = map h (filter kept (seq k (List.length l))).
Proof.
  revert k. induction l as [|x l IH]; intros k H; [reflexivity|].
  cbn [flat_map List.length seq filter].
  rewrite (H 0 x eq_refl), Nat.add_0_r.
  rewrite (IH (S k)).
  - destruct (kept k); reflexivity.
  - intros i p Hi. replace (S k + i) with (k + S i) by lia.
    now apply (H (S i)).
Qed.

(** With distinct identifiers in the input, the INDI headers are those of
    the positions the orphan filter keeps. *)
Lemma personHeaders_positions (data : EnhancedPedigreeData)
  (people : list EnhancedPerson) (options : GedcomConversionOptions)
  (connectable : JsSet) :
  NoDup (map personId people) ->
  flat_map (personHeadersOf options (buildGraph data people) connectable)
           people
  = map (fun i => indiHeader (personGedcomId i))
        (filter (keptAt people options (buildGraph data people) connectable)
                (seq 0 (List.length people))).
Proof.
  intros Hnd. apply flat_map_indexed. intros i p Hi. cbn [Nat.add].
  destruct (personHeadersOf_eq data people options connectable p)
    as (gid & Hg & ->); [eapply nth_error_In; exact Hi|].
  destruct (buildGraph_ok data people) as (_ & _ & Hpim & _).
  rewrite Hpim, (personIdMap_nth people i p Hnd Hi) in Hg.
  injection Hg as <-.
  unfold keptAt. rewrite Hi. now destruct (isOrphanPerson _ _ _ p).
Qed.

Lemma fam_headers_numbered (people : list EnhancedPerson)
  (options : GedcomConversionOptions) (g : Graph) (connectable : JsSet) :
  map (fun r => famHeader (fr_id r))
      (familyRecordsOf people options g connectable)
  = map (fun i => famHeader (famGedcomId i))
        (seq 1 (List.length (familyRecordsOf people options g connectable))).
Proof.
  rewrite <- (map_map fr_id famHeader). unfold familyRecordsOf.
  rewrite records_ids. now rewrite map_map.
Qed.







(** ** Who gets an INDI record *)

Section OrphanFilter.

Variable data : EnhancedPedigreeData.
Variable people : list EnhancedPerson.
Variable options : GedcomConversionOptions.
Variable connectable : JsSet.

Local Abbreviation g := (buildGraph data people).
Local Abbreviation orphanPerson :=
  (isOrphanPerson (allowOrphansOf options)
     (fst (indexFamilies connectable (g_families g)))
     (snd (indexFamilies connectable (g_families g)))).

Lemma personBlockOf_empty (p : EnhancedPerson) :
  In p people ->
  personBlockOf options g connectable p = [] <-> orphanPerson p = true.
Proof.
  intros Hp.
  destruct (buildGraph_ok data people) as (_ & _ & Hpim & _).
  destruct (personIdMap_get people (personId p)) as (gid & Hg & He);
    [now apply in_map|].
  unfold personBlockOf, personBlock. rewrite Hpim, Hg, He.
  destruct (orphanPerson p); [tauto|].
  split; [intros H; discriminate H | intros H; discriminate H].
Qed.

Lemma connectable_kept (p : EnhancedPerson) :
  In (personId p) connectable -> orphanPerson p = false.
Proof.
  intros Hc. destruct (orphanPerson p) eqn:E; [|reflexivity].
  apply isOrphanPerson_spec in E
    as (_ & (key & family & Hin & Hx) & Hall); [|apply buildGraph_keys].
  specialize (Hall _ _ Hin Hx).
  elim (proj1 (isOrphanFamily_spec _ _) Hall _ Hx Hc).
Qed.

Lemma allowed_kept (p : EnhancedPerson) :
  allowOrphansOf options = true -> orphanPerson p = false.
Proof. intros H. unfold isOrphanPerson. now rewrite H. Qed.

Lemma kept_in_lines (now : JsDate) (p : EnhancedPerson) :
  In p people -> orphanPerson p = false ->
  exists gedcomId,
    mapGet (buildPersonIdMap people) (personId p) = Some gedcomId
    /\ In (indiHeader gedcomId)
          (fst (emitAll people options now g connectable)).
Proof.
  intros Hp Hk.
  destruct (personHeadersOf_eq data people options connectable p Hp)
    as (gid & Hg & Hh).
  destruct (buildGraph_ok data people) as (_ & _ & Hpim & _).
  exists gid. split; [now rewrite <- Hpim|].
  apply emitted_in_final, (emitted_person_header _ _ _ _ _ p); [exact Hp|].
  rewrite Hh, Hk. now left.
Qed.

End OrphanFilter.

(** X10. The orphan filter: a person of the input gets no INDI record
    exactly when orphan families are not allowed, the person is a spouse
    or a child of at least one family, and no family the person belongs
    to has a connectable member.  So a connectable person and a person
    outside every family are always emitted. *)
Theorem orphan_filter (data : EnhancedPedigreeData)
  (people : list EnhancedPerson) (options : GedcomConversionOptions)
  (connectable : JsSet) (person : EnhancedPerson) :
  In person people ->
  personBlockOf options (buildGraph data people) connectable person = []
  <-> allowOrphansOf options = false
      /\ (exists key family,
             In (key, family) (g_families (buildGraph data people))
             /\ In (personId person) (spouses family +++ children family))
      /\ (forall key family,
             In (key, family) (g_families (buildGraph data people)) ->
             In (personId person) (spouses family +++ children family) ->
             forall x, In x (spouses family +++ children family) ->
                       ~ In x connectable).
Proof.
  intros Hp. rewrite (personBlockOf_empty data people options connectable
                        person Hp).
  rewrite isOrphanPerson_spec by apply buildGraph_keys.
  split; intros (Ha & He & Hall); (split; [exact Ha | split; [exact He|]]).
  - intros key family Hin Hx.
    exact (proj1 (isOrphanFamily_spec _ _) (Hall key family Hin Hx)).
  - intros key family Hin Hx.
    exact (proj2 (isOrphanFamily_spec _ _) (Hall key family Hin Hx)).
Qed.

Lemma orphan_filter_witness :
  In (Sample.person "P4" None) Sample.scenarioBPeople
  /\ personBlockOf (Sample.options (Some ["P1"]) false)
       (buildGraph Sample.scenarioB Sample.scenarioBPeople)
       ["P1"; "P2"; "P3"] (Sample.person "P4" None) = [].
Proof.
  split; [now left|].
  apply (orphan_filter Sample.scenarioB Sample.scenarioBPeople
           (Sample.options (Some ["P1"]) false) ["P1"; "P2"; "P3"]
           (Sample.person "P4" None)); [now left|].
  split; [reflexivity|]. split.
  - exists "P4-P5", {| spouses := ["P4"; "P5"]; children := [] |}.
    split; [vm_compute; auto | now left].
  - intros key family Hin. vm_compute in Hin.
    destruct Hin as [[= <- <-]|[[= <- <-]|[]]]; cbn [spouses children app].
    + intros [H|[H|[H|[]]]]; discriminate H.
    + intros _ x [<-|[<-|[]]] [H|[H|[H|[]]]]; discriminate H.
Defined.





(** ** The fallback of the resolver *)

Lemma legacyConnectable_fold (childToParents : JsMap (list string))
  (c : JsSet) (x : string) :
  In x (fold_left
          (fun connectable '(childId, parents) =>
             fold_left setAdd parents (setAdd connectable childId))
          childToParents c)
  <-> In x c
      \/ exists child parents,
           In (child, parents) childToParents
           /\ (x = child \/ In x parents).
Proof.
  revert c. induction childToParents as [|[child parents] rest IH];
    intros c; simpl.
  - split; [auto | intros [H|(ch & ps & [] & _)]; exact H].
  - rewrite IH, In_fold_setAdd, In_setAdd. split.
    + intros [[[H| ->]|H]|(ch & ps & Hin & Hx)].
      * now left.
      * right. exists child, parents. split; [now left | now left].
      * right. exists child, parents. split; [now left | now right].
      * right. exists ch, ps. split; [now right | exact Hx].
    + intros [H|(ch & ps & [[= -> ->]|Hin] & Hx)].
      * left. left. now left.
      * left. destruct Hx as [->|Hx]; [left; now right | now right].
      * right. now exists ch, ps.
Qed.

(** X13. Without [ancestryPersonIds], or with an empty set, the resolver
    does no traversal: it returns, and the connectable persons are
    exactly the children and the recorded parents of the child-to-parents
    map. *)
Theorem legacy_connectable (seeds : option JsSet)
  (families : JsMap Family) (childToParents : JsMap (list string)) :
  seeds = None \/ seeds = Some [] ->
  exists final,
    connectablePersons seeds families childToParents = Some final
    /\ forall x,
         In x final
         <-> exists child parents,
               In (child, parents) childToParents
               /\ (x = child \/ In x parents).
Proof.
  intros Hs. exists (legacyConnectable childToParents). split.
  - destruct Hs as [-> | ->]; reflexivity.
  - intros x. unfold legacyConnectable. rewrite legacyConnectable_fold.
    split; [intros [[]|H]; exact H | now right].
Qed.

Lemma legacy_connectable_witness :
  exists final,
    connectablePersons None
      (g_families (buildGraph Sample.scenarioB Sample.scenarioBPeople))
      (g_childToParents (buildGraph Sample.scenarioB Sample.scenarioBPeople))
    = Some final
    /\ In "P1" final /\ ~ In "P4" final.
Proof.
  destruct (legacy_connectable None
              (g_families (buildGraph Sample.scenarioB Sample.scenarioBPeople))
              (g_childToParents
                 (buildGraph Sample.scenarioB Sample.scenarioBPeople)))
    as (final & Hf & Hiff); [now left|].
  exists final. split; [exact Hf|]. split.
  - apply Hiff. exists "P3", ["P1"; "P2"]. split; [vm_compute; auto|].
    right. now left.
  - intros H. apply Hiff in H as (child & parents & Hin & Hx).
    vm_compute in Hin. destruct Hin as [[= <- <-]|[]].
    destruct Hx as [Hx|[Hx|[Hx|[]]]]; discriminate Hx.
Defined.

(** ** The shape of the family graph *)

Section GraphShape.

Variable valid : JsSet.

(** What one relationship does to the two maps. *)
Lemma processRelationship_cases (st : JsMap Family * JsMap (list string))
  (rel : Relationship) :
  processRelationship valid st rel = st
  \/ (exists childId validParents,
         validParents <> []
         /\ processRelationship valid st rel
            = (fst st,
               mapSet (snd st) childId
                      (addParents (orEmpty (mapGet (snd st) childId))
                                  validParents)))
  \/ (exists p1 p2,
         processRelationship valid st rel
         = (mapSet (fst st) (Js.sortJoin p1 p2)
                   {| spouses := setOfList [p1; p2]; children := [] |},
            snd st)).
Proof.
  destruct st as [families childToParents]. unfold processRelationship.
  destruct (optIncludes (rel_type rel) "ParentChild").
  - destruct (refId (person1 rel)) as [parentId|]; [|now left].
    destruct (refId (person2 rel)) as [childId|]; [|now left].
    destruct (Js.isEmpty parentId || Js.isEmpty childId); [now left|].
    destruct (negb (setHas valid childId)); [now left|].
    match goal with
    | |- context [Nat.ltb 0 (List.length ?v)] => set (vp := v)
    end.
    destruct vp as [|v vp'] eqn:E; [now left|].
    right; left. exists childId, (v :: vp'). split; [discriminate|].
    reflexivity.
  - destruct (optIncludes (rel_type rel) "Couple"); [|now left].
    destruct (refId (person1 rel)) as [p1|]; [|now left].
    destruct (refId (person2 rel)) as [p2|]; [|now left].
    destruct (Js.isEmpty p1 || Js.isEmpty p2); [now left|].
    destruct (setHas valid p1 && setHas valid p2); [|now left].
    destruct (negb (mapHas families (Js.sortJoin p1 p2))); [|now left].
    right; right. now exists p1, p2.
Qed.

Lemma attachChild_eq (families : JsMap Family)
  (entry : string * list string) :
  attachChild families entry
  = match famKeyOfParents (snd entry) with
    | Some key =>
        attachTo families key (setOfList (firstn 2 (snd entry))) (fst entry)
    | None => families
    end.
Proof. destruct entry as [c [|a [|b rest]]]; reflexivity. Qed.

Lemma setOfList_shape (parents : list string) (key : string) :
  famKeyOfParents parents = Some key ->
  FamilyShape key {| spouses := setOfList (firstn 2 parents);
                     children := [] |}.
Proof.
  intros H. split; [apply setOfList_NoDup|].
  destruct parents as [|a [|b rest]]; [discriminate H | |];
    injection H as <-.
  - right. now exists a.
  - left. now exists a, b.
Qed.

Local Abbreviation Shaped :=
  (fun families : JsMap Family =>
     forall key family, In (key, family) families -> FamilyShape key family).

Lemma attachTo_shaped (families : JsMap Family) (key : string)
  (spousesIfNew : JsSet) (childId : string) :
  Shaped families ->
  FamilyShape key {| spouses := spousesIfNew; children := [] |} ->
  Shaped (attachTo families key spousesIfNew childId).
Proof.
  intros Hf Hnew k f Hin. unfold attachTo in Hin.
  apply In_mapSet in Hin as [[= -> ->]|Hin]; [|exact (Hf _ _ Hin)].
  destruct (mapGet families key) as [f0|] eqn:E; [|exact Hnew].
  apply mapGet_In in E. exact (Hf _ _ E).
Qed.

Lemma buildFamilies_shaped (allRelationships : list Relationship) :
  Shaped (fst (buildFamilies valid allRelationships)).
Proof.
  unfold buildFamilies.
  assert (H : Shaped (fst (fold_left (processRelationship valid)
                                     allRelationships ([], [])))).
  { apply (fold_left_invariant (fun st => Shaped (fst st))).
    - intros ? ? [].
    - intros st rel _ Hst.
      destruct (processRelationship_cases st rel)
        as [-> | [(c & vp & _ & ->) | (p1 & p2 & ->)]];
        [exact Hst | exact Hst |].
      cbn [fst]. intros k f Hin.
      apply In_mapSet in Hin as [[= -> ->]|Hin]; [|exact (Hst _ _ Hin)].
      split; [apply setOfList_NoDup|]. left. now exists p1, p2. }
  destruct (fold_left _ allRelationships _) as [families childToParents].
  cbn [fst] in *.
  apply (fold_left_invariant Shaped); [exact H|].
  intros m entry _ Hm. rewrite attachChild_eq.
  destruct (famKeyOfParents (snd entry)) as [key|] eqn:E; [|exact Hm].
  apply attachTo_shaped; [exact Hm | now apply setOfList_shape].
Qed.

Lemma addParents_nonempty (parents validParents : list string) :
  validParents <> [] -> addParents parents validParents <> [].
Proof.
  intros Hne E. destruct validParents as [|v vp]; [congruence|].
  assert (H : In v (addParents parents (v :: vp)))
    by (unfold addParents; apply In_fold_setAdd; right; now left).
  rewrite E in H. destruct H.
Qed.

(** The parents of a child are recorded without repetition, and there is
    at least one. *)
Lemma buildFamilies_parents (allRelationships : list Relationship)
  (child : string) (parents : list string) :
  In (child, parents) (snd (buildFamilies valid allRelationships)) ->
  parents <> [] /\ NoDup parents.
Proof.
  unfold buildFamilies.
  assert (H : forall c ps,
             In (c, ps) (snd (fold_left (processRelationship valid)
                                        allRelationships ([], []))) ->
             ps <> [] /\ NoDup ps).
  { apply (fold_left_invariant
             (fun st => forall c ps, In (c, ps) (snd st) ->
                                     ps <> [] /\ NoDup ps)).
    - intros ? ? [].
    - intros st rel _ Hst.
      destruct (processRelationship_cases st rel)
        as [-> | [(c & vp & Hne & ->) | (p1 & p2 & ->)]];
        [exact Hst | | exact Hst].
      cbn [snd]. intros c' ps Hin.
      apply In_mapSet in Hin as [[= -> ->]|Hin]; [|exact (Hst _ _ Hin)].
      split.
      + now apply addParents_nonempty.
      + unfold addParents. apply fold_setAdd_NoDup.
        match goal with
        | |- NoDup (orEmpty ?o) => destruct o as [ps0|] eqn:E
        end; [|constructor].
        apply mapGet_In in E. exact (proj2 (Hst _ _ E)). }
  destruct (fold_left _ allRelationships _) as [families childToParents].
  cbn [snd] in *. apply H.
Qed.

(** Before the children are attached, no family has a child. *)
Lemma processRelationship_childless (allRelationships : list Relationship)
  (key : string) :
  childrenAt (fst (fold_left (processRelationship valid) allRelationships
                             ([], []))) key = [].
Proof.
  apply (fold_left_invariant (fun st => childrenAt (fst st) key = [])).
  - reflexivity.
  - intros st rel _ Hst.
    destruct (processRelationship_cases st rel)
      as [-> | [(c & vp & _ & ->) | (p1 & p2 & ->)]];
      [exact Hst | exact Hst |].
    cbn [fst]. unfold childrenAt in *. rewrite mapGet_mapSet.
    destruct (String.eqb _ key); [reflexivity | exact Hst].
Qed.

Lemma attachChild_children (families : JsMap Family)
  (entry : string * list string) (key c : string) :
  In c (childrenAt (attachChild families entry) key)
  <-> In c (childrenAt families key)
      \/ (c = fst entry /\ famKeyOfParents (snd entry) = Some key).
Proof.
  rewrite attachChild_eq.
  destruct (famKeyOfParents (snd entry)) as [k|];
    [|split; [now left | intros [H|[_ H]]; [exact H | discriminate H]]].
  unfold attachTo, childrenAt. rewrite mapGet_mapSet.
  destruct (String.eqb k key) eqn:E.
  - apply String.eqb_eq in E. subst k. cbn [children].
    rewrite In_push.
    destruct (mapGet families key) as [f|]; cbn [children];
      split; intros [H|H]; auto; try (now right); destruct H; auto.
  - apply String.eqb_neq in E. split; [now left|].
    intros [H|[_ [= H]]]; [exact H | congruence].
Qed.

Lemma attachChildren_children (entries : JsMap (list string))
  (families : JsMap Family) (key c : string) :
  In c (childrenAt (fold_left attachChild entries families) key)
  <-> In c (childrenAt families key)
      \/ exists parents,
           In (c, parents) entries /\ famKeyOfParents parents = Some key.
Proof.
  revert families. induction entries as [|[c' ps] rest IH]; intros m;
    cbn [fold_left].
  - split; [now left | intros [H|(ps & [] & _)]; exact H].
  - rewrite IH, attachChild_children. cbn [fst snd]. split.
    + intros [[H|[-> Hk]]|(ps' & Hin & Hk)].
      * now left.
      * right. exists ps. split; [now left | exact Hk].
      * right. exists ps'. split; [now right | exact Hk].
    + intros [H|(ps' & [[= -> ->]|Hin] & Hk)].
      * left. now left.
      * left. right. now split.
      * right. now exists ps'.
Qed.

(** The children recorded under a key are the persons whose first two
    recorded parents, or only parent, make up the key. *)
Lemma buildFamilies_children (allRelationships : list Relationship)
  (key c : string) :
  In c (childrenAt (fst (buildFamilies valid allRelationships)) key)
  <-> exists parents,
        In (c, parents) (snd (buildFamilies valid allRelationships))
        /\ famKeyOfParents parents = Some key.
Proof.
  unfold buildFamilies.
  pose proof (processRelationship_childless allRelationships key) as H0.
  destruct (fold_left _ allRelationships _) as [families childToParents].
  cbn [fst snd] in *.
  rewrite attachChildren_children, H0.
  split; [intros [[]|H]; exact H | now right].
Qed.

End GraphShape.

Lemma buildGraph_families (data : EnhancedPedigreeData)
  (people : list EnhancedPerson) :
  g_families (buildGraph data people)
  = fst (buildFamilies (setOfList (map personId people))
                       (collectRelationships data people))
  /\ g_childToParents (buildGraph data people)
     = snd (buildFamilies (setOfList (map personId people))
                          (collectRelationships data people)).
Proof.
  unfold buildGraph. destruct (buildFamilies _ _) as [f c]. now split.
Qed.

Lemma childrenAt_In (families : JsMap Family) (key : string)
  (family : Family) :
  NoDup (mapKeys families) -> In (key, family) families ->
  childrenAt families key = children family.
Proof.
  intros Hnd Hin. unfold childrenAt. now rewrite (NoDup_mapGet _ _ _ Hnd Hin).
Qed.

(** X1. The family graph built from the relationships: the keys of the
    family map and of the child-to-parents map are distinct; a family
    has one or two distinct spouses and is keyed by them, sorted and
    joined, or by [single-] and its only spouse; every spouse, child and
    parent is a person of the input; and a child has at least one
    recorded parent, none twice. *)
Theorem family_graph_well_formed (data : EnhancedPedigreeData)
  (people : list EnhancedPerson) :
  let g := buildGraph data people in
  NoDup (mapKeys (g_families g))
  /\ NoDup (mapKeys (g_childToParents g))
  /\ (forall key family,
         In (key, family) (g_families g) ->
         FamilyShape key family
         /\ 1 <= List.length (spouses family) <= 2
         /\ forall x, In x (spouses family +++ children family) ->
                      exists p, In p people /\ personId p = x)
  /\ (forall child parents,
         In (child, parents) (g_childToParents g) ->
         parents <> [] /\ NoDup parents
         /\ forall x, In x (child :: parents) ->
                      exists p, In p people /\ personId p = x).
Proof.
  cbv zeta.
  destruct (buildGraph_keys data people) as [Hk1 Hk2].
  destruct (buildGraph_ok data people) as (Hf & Hc & _).
  destruct (buildGraph_families data people) as [Ef Ec].
  assert (Hp : forall x, In x (map personId people) ->
                         exists p, In p people /\ personId p = x).
  { intros x Hx. apply in_map_iff in Hx as (p & <- & Hp). now exists p. }
  split; [exact Hk1|]. split; [exact Hk2|]. split.
  - intros key family Hin. destruct (Hf _ _ Hin) as (H1 & H2 & H3 & H4).
    split; [|split].
    + rewrite Ef in Hin. exact (buildFamilies_shaped _ _ _ _ Hin).
    + destruct (spouses family); [congruence | simpl in *; lia].
    + intros x Hx. apply Hp. apply in_app_or in Hx as [Hx|Hx]; auto.
  - intros child parents Hin. destruct (Hc _ _ Hin) as [H1 H2].
    rewrite Ec in Hin.
    destruct (buildFamilies_parents _ _ _ _ Hin) as [H3 H4].
    split; [exact H3|]. split; [exact H4|].
    intros x [<-|Hx]; apply Hp; auto.
Qed.

(** A family lists a person as a child exactly when the person's first
    two recorded parents, or only parent, make up the family's key. *)
Lemma graph_children (data : EnhancedPedigreeData)
  (people : list EnhancedPerson) (key : string) (family : Family)
  (child : string) :
  In (key, family) (g_families (buildGraph data people)) ->
  In child (children family)
  <-> exists parents,
        In (child, parents) (g_childToParents (buildGraph data people))
        /\ famKeyOfParents parents = Some key.
Proof.
  intros Hin.
  destruct (buildGraph_keys data people) as [Hk1 _].
  destruct (buildGraph_families data people) as [Ef Ec].
  rewrite <- (childrenAt_In _ _ _ Hk1 Hin), Ef, Ec.
  apply buildFamilies_children.
Qed.

(** X14. Children follow their recorded parents: a family lists a person
    as a child exactly when the person's first two recorded parents, or
    only parent, make up the family's key; and every person with a
    recorded parent is a child of such a family.  The key is made from
    the first two recorded parents only. *)
Theorem children_follow_parents (data : EnhancedPedigreeData)
  (people : list EnhancedPerson) :
  let g := buildGraph data people in
  (forall key family child,
      In (key, family) (g_families g) ->
      (In child (children family)
       <-> exists parents,
             In (child, parents) (g_childToParents g)
             /\ famKeyOfParents parents = Some key))
  /\ (forall child parents,
         In (child, parents) (g_childToParents g) ->
         exists key family,
           famKeyOfParents parents = Some key
           /\ In (key, family) (g_families g)
           /\ In child (children family)).
Proof.
  cbv zeta.
  destruct (buildGraph_families data people) as [Ef Ec].
  split; [intros key family child; apply graph_children|].
  intros child parents Hin.
  assert (Hne : parents <> []).
  { rewrite Ec in Hin. exact (proj1 (buildFamilies_parents _ _ _ _ Hin)). }
  destruct (famKeyOfParents parents) as [key|] eqn:Hkey;
    [|destruct parents as [|a [|b rest]]; [congruence | discriminate Hkey
                                           | discriminate Hkey]].
  assert (Hc : In child (childrenAt (g_families (buildGraph data people))
                                    key)).
  { rewrite Ef. apply buildFamilies_children. exists parents.
    split; [now rewrite <- Ec | exact Hkey]. }
  unfold childrenAt in Hc.
  destruct (mapGet (g_families (buildGraph data people)) key)
    as [family|] eqn:E; [|destruct Hc].
  exists key, family. split; [reflexivity|].
  split; [now apply mapGet_In | exact Hc].
Qed.

(** ** Person identifiers by position *)

Lemma personIdMap_fold_last (people : list EnhancedPerson)
  (m : JsMap string) (n i : nat) (p : EnhancedPerson) :
  nth_error people i = Some p ->
  (forall j q, i < j -> nth_error people j = Some q ->
               personId q <> personId p) ->
  mapGet (fst (fold_left
                 (fun '(personIdMap, index) person =>
                    (mapSet personIdMap (personId person)
                            (personGedcomId index), S index))
                 people (m, n))) (personId p)
  = Some (personGedcomId (n + i)).
Proof.
  revert m n i. induction people as [|q rest IH]; intros m n i Hi Hlast.
  - destruct i; discriminate.
  - cbn [fold_left]. destruct i as [|i]; cbn [nth_error] in Hi.
    + injection Hi as ->.
      rewrite personIdMap_fold_other.
      * now rewrite mapGet_mapSet, String.eqb_refl, Nat.add_0_r.
      * intros Hin. apply in_map_iff in Hin as (q & Hq & Hin).
        apply In_nth_error in Hin as [j Hj].
        apply (Hlast (S j) q); [lia | exact Hj | exact Hq].
    + rewrite (IH _ (S n) i Hi).
      * f_equal. f_equal. lia.
      * intros j q' Hj Hq'. apply (Hlast (S j) q'); [lia | exact Hq'].
Qed.

(** X2. Person identifiers follow positions: the person at position [i]
    of the input is [@I<i+1>@] when no later person has the same
    FamilySearch identifier; among persons that share an identifier the
    last position gives the GEDCOM identifier of all of them. *)
Theorem person_id_of_position (people : list EnhancedPerson) (i : nat)
  (p : EnhancedPerson) :
  nth_error people i = Some p ->
  (forall j q, i < j -> nth_error people j = Some q ->
               personId q <> personId p) ->
  forall q, In q people -> personId q = personId p ->
            mapGet (buildPersonIdMap people) (personId q)
            = Some (personGedcomId i).
Proof.
  intros Hi Hlast q _ ->.
  exact (personIdMap_fold_last people [] 0 i p Hi Hlast).
Qed.

Lemma person_id_of_position_witness :
  mapGet (buildPersonIdMap [Sample.person "A" None; Sample.person "B" None;
                            Sample.person "A" (Some "Male")]) "A"
  = Some "@I3@".
Proof.
  refine (person_id_of_position
            [Sample.person "A" None; Sample.person "B" None;
             Sample.person "A" (Some "Male")]
            2 (Sample.person "A" (Some "Male")) eq_refl _
            (Sample.person "A" None) (or_introl eq_refl) eq_refl).
  intros j q Hj Hq. destruct j as [|[|[|j]]]; try lia.
  destruct j; discriminate Hq.
Defined.

(** ** The fact mapper *)

Lemma length_pushIf (cond : bool) (line : string) :
  List.length (pushIf cond line) <= 1.
Proof. destruct cond; simpl; lia. Qed.

(** X15. A fact without a type, or with an empty one, yields no line; a
    typed fact yields one level-1 line followed by at most four level-2
    lines. *)
Theorem convertFactToGedcom_shape (fact : PersonFact) :
  (Js.truthy (fact_type fact) = false /\ convertFactToGedcom fact = [])
  \/ (Js.truthy (fact_type fact) = true
      /\ exists first rest,
           convertFactToGedcom fact = first :: rest
           /\ Js.startsWith first "1 " = true
           /\ Forall (fun line => Js.startsWith line "2 " = true) rest
           /\ List.length rest <= 4).
Proof.
  unfold convertFactToGedcom.
  destruct (fact_type fact) as [[|c type]|];
    [left; split; reflexivity | | left; split; reflexivity].
  right. split; [reflexivity|].
  cbn [Js.isEmpty]. cbv zeta.
  match goal with
  | |- context [if ?b then [?x] else [?y]] =>
      exists (if b then x else y); destruct b
  end.
  - eexists. split; [reflexivity|]. split; [vm_compute; reflexivity|].
    split.
    + split_blocks; vm_compute; reflexivity.
    + rewrite !length_app.
      repeat match goal with
             | |- context [List.length (pushIf ?b ?l)] =>
                 pose proof (length_pushIf b l);
                 generalize dependent (List.length (pushIf b l)); intros
             end.
      lia.
  - eexists. split; [reflexivity|]. split; [vm_compute; reflexivity|].
    split.
    + split_blocks; vm_compute; reflexivity.
    + rewrite !length_app.
      repeat match goal with
             | |- context [List.length (pushIf ?b ?l)] =>
                 pose proof (length_pushIf b l);
                 generalize dependent (List.length (pushIf b l)); intros
             end.
      lia.
Qed.

(** ** Birth and death blocks *)

Lemma extractFact_some (person : option PersonData) (factType : FactKind)
  (summary : FactSummary) :
  extractFact person factType = Some summary ->
  Js.truthy (summary_date summary) || Js.truthy (summary_place summary)
  = true.
Proof.
  unfold extractFact. destruct person as [person|]; [|discriminate].
  cbv zeta.
  match goal with
  | |- (if ?c then _ else _) = _ -> _ => destruct c eqn:E
  end; [|discriminate].
  intros [= <-]. exact E.
Qed.

(** X16. A BIRT or DEAT block is never empty: when [extractFact] finds
    neither a date nor a place it returns nothing and the tag line is not
    pushed; otherwise the tag line is followed by a DATE line, a PLAC
    line or both, date first. *)
Theorem vital_block_has_detail (person : option PersonData)
  (factType : FactKind) (tag : string) :
  vitalLines tag (extractFact person factType) = []
  \/ exists date place,
       (Js.truthy date || Js.truthy place = true)
       /\ vitalLines tag (extractFact person factType)
          = [tag]
            +++ pushIf (Js.truthy date) ("2 DATE " ++ Js.orDefault date "")
            +++ pushIf (Js.truthy place) ("2 PLAC " ++ Js.orDefault place "").
Proof.
  destruct (extractFact person factType) as [summary|] eqn:E; [|now left].
  right. exists (summary_date summary), (summary_place summary).
  split; [exact (extractFact_some _ _ _ E) | reflexivity].
Qed.

(** ** The order of a couple *)

Lemma sortJoin_comm (a b : string) : Js.sortJoin a b = Js.sortJoin b a.
Proof.
  unfold Js.sortJoin, Js.sort2, String.ltb.
  rewrite (String.compare_antisym a b).
  destruct (String.compare b a) eqn:E; cbn [CompOpp]; try reflexivity.
  apply String.compare_eq_iff in E. now subst.
Qed.

Lemma matchesCouple_swap (relKey : string) (r : Relationship) :
  matchesCouple relKey r
  = matchesCouple relKey
      {| rel_id := rel_id r; rel_type := rel_type r;
         person1 := person2 r; person2 := person1 r;
         parent2 := parent2 r; rel_facts := rel_facts r;
         details := details r |}.
Proof.
  unfold matchesCouple. cbn [person1 person2].
  rewrite (sortJoin_comm (Js.orDefault (endpoint (person1 r)) "")).
  destruct (Js.truthy (endpoint (person1 r))),
    (Js.truthy (endpoint (person2 r))); reflexivity.
Qed.

(** X17. The order of a couple does not matter for its key: the family
    key of two spouses and the marriage facts found for them are the
    same in either order, and a relationship matches a couple whichever
    of its two persons is listed first. *)
Theorem couple_order_irrelevant (a b : string) :
  Js.sortJoin a b = Js.sortJoin b a
  /\ (forall allRelationships,
         addMarriageFacts allRelationships a b
         = addMarriageFacts allRelationships b a)
  /\ (forall r,
         matchesCouple (Js.sortJoin a b) r
         = matchesCouple (Js.sortJoin a b)
             {| rel_id := rel_id r; rel_type := rel_type r;
                person1 := person2 r; person2 := person1 r;
                parent2 := parent2 r; rel_facts := rel_facts r;
                details := details r |}).
Proof.
  split; [apply sortJoin_comm|]. split.
  - intros rels. unfold addMarriageFacts. now rewrite (sortJoin_comm a b).
  - intros r. apply matchesCouple_swap.
Qed.

(** ** Notes *)

Lemma replaceNewlines_clean (s : string) :
  Js.hasChar (ascii_of_nat 10) (Js.replaceNewlines s) = false.
Proof.
  induction s as [|c s IH]; [reflexivity|].
  cbn [Js.replaceNewlines Js.hasChar]. rewrite IH, orb_false_r.
  destruct (Ascii.eqb c (ascii_of_nat 10)) eqn:E; [reflexivity | exact E].
Qed.

Lemma replaceNewlines_length (s : string) :
  String.length (Js.replaceNewlines s) = String.length s.
Proof.
  induction s as [|c s IH]; [reflexivity|].
  cbn [Js.replaceNewlines String.length]. now rewrite IH.
Qed.

Lemma replaceNewlines_get (s : string) (i : nat) :
  String.get i (Js.replaceNewlines s)
  = option_map
      (fun c => if Ascii.eqb c (ascii_of_nat 10) then " "%char else c)
      (String.get i s).
Proof.
  revert i. induction s as [|c s IH]; intros i; [reflexivity|].
  cbn [Js.replaceNewlines]. destruct i as [|i]; [reflexivity|].
  cbn [String.get]. apply IH.
Qed.

Lemma noteLines_In (person : EnhancedPerson) (line : string) :
  In line (noteLines true person) <->
  exists note text,
    In note (orEmpty (opt (first (opt (notes person) notes_persons))
                          person_notes))
    /\ note_text note = Some text /\ text <> ""
    /\ line = "1 NOTE " ++ Js.replaceNewlines text.
Proof.
  unfold noteLines. rewrite in_flat_map. split.
  - intros (note & Hin & H). exists note.
    destruct (note_text note) as [text|] eqn:E; [|destruct H].
    exists text. destruct text as [|c text]; [destruct H|].
    destruct H as [<-|[]].
    split; [exact Hin|]. split; [reflexivity|].
    split; [discriminate | reflexivity].
  - intros (note & text & Hin & E & Hne & ->). exists note.
    split; [exact Hin|]. rewrite E.
    destruct text as [|c text]; [congruence|]. now left.
Qed.

(** X21. The notes of a person are those of [notes.persons[0].notes].
    With notes included, the NOTE lines of the person are exactly the
    lines ["1 NOTE "] followed by the text of one of these notes, the
    text being present and not empty, with its line feeds replaced; there
    is one line for each such note; and no line is written with notes
    left out.  Replacing keeps the length and every character of the text
    but the line feeds, which become spaces: no NOTE line holds a line
    feed. *)
Theorem notes_on_one_line (includeNotes : bool) (person : EnhancedPerson) :
  (forall line,
      In line (noteLines includeNotes person) <->
      includeNotes = true
      /\ exists note text,
           In note (orEmpty (opt (first (opt (notes person) notes_persons))
                                 person_notes))
           /\ note_text note = Some text /\ text <> ""
           /\ line = "1 NOTE " ++ Js.replaceNewlines text)
  /\ List.length (noteLines true person)
     = List.length
         (filter (fun note => Js.truthy (note_text note))
            (orEmpty (opt (first (opt (notes person) notes_persons))
                          person_notes)))
  /\ (forall line,
         In line (noteLines includeNotes person) ->
         Js.hasChar (ascii_of_nat 10) line = false)
  /\ (forall text,
         String.length (Js.replaceNewlines text) = String.length text
         /\ forall i,
              String.get i (Js.replaceNewlines text)
              = option_map
                  (fun c =>
                     if Ascii.eqb c (ascii_of_nat 10) then " "%char else c)
                  (String.get i text)).
Proof.
  assert (Hiff : forall line,
             In line (noteLines includeNotes person) <->
             includeNotes = true
             /\ exists note text,
                  In note (orEmpty (opt (first (opt (notes person)
                                                    notes_persons))
                                        person_notes))
                  /\ note_text note = Some text /\ text <> ""
                  /\ line = "1 NOTE " ++ Js.replaceNewlines text).
  { intros line. destruct includeNotes.
    - rewrite noteLines_In. split; [intros H; now split | now intros [_ H]].
    - split; [intros [] | intros [H _]; discriminate H]. }
  split; [exact Hiff|]. split.
  - clear Hiff. unfold noteLines.
    induction (orEmpty (opt (first (opt (notes person) notes_persons))
                            person_notes)) as [|note rest IH];
      [reflexivity|].
    cbn [flat_map filter]. rewrite length_app, IH.
    destruct (Js.truthy (note_text note)); reflexivity.
  - split.
    + intros line H. apply Hiff in H as (_ & note & text & _ & _ & _ & ->).
      change (Js.hasChar (ascii_of_nat 10) (Js.replaceNewlines text) = false).
      apply replaceNewlines_clean.
    + intros text. split;
        [apply replaceNewlines_length | apply replaceNewlines_get].
Qed.

(** At a note of two lines: its NOTE line is written with a space where
    the line feed was. *)
Lemma notes_on_one_line_witness :
  In "1 NOTE a b"
     (noteLines true
        {| base := Sample.data "A" None; fullDetails := None;
           notes :=
             Some {| notes_persons :=
                       Some [{| person_notes :=
                                  Some [{| note_text :=
                                             Some ("a" ++ Js.newline ++ "b")
                                        |}] |}] |} |}).
Proof.
  apply (proj1 (notes_on_one_line true
           {| base := Sample.data "A" None; fullDetails := None;
              notes :=
                Some {| notes_persons :=
                          Some [{| person_notes :=
                                     Some [{| note_text :=
                                                Some ("a" ++ Js.newline
                                                      ++ "b") |}] |}] |} |})).
  split; [reflexivity|].
  exists {| note_text := Some ("a" ++ Js.newline ++ "b") |}.
  exists ("a" ++ Js.newline ++ "b").
  split; [left; reflexivity|]. split; [reflexivity|].
  split; [discriminate | reflexivity].
Defined.

(** ** What the URL rewriting produces *)

Section UrlShape.
Import Js JsFacts.

Lemma includes_startsWith (s n : string) :
  startsWith s n = true -> includes s n = true.
Proof.
  intros H. destruct s as [|a s]; cbn [includes]; now rewrite H.
Qed.

Lemma includes_tail (a : ascii) (s n : string) :
  includes s n = true -> includes (String a s) n = true.
Proof.
  intros H.
  change (includes (String a s) n)
    with (startsWith (String a s) n || includes s n).
  rewrite H. apply orb_true_r.
Qed.

Lemma personIdAt_spec (s id : string) :
  personIdAt s = Some id ->
  isEmpty id = false /\ allChars notSlashQuery id = true
  /\ startsWith s ("persons/" ++ id) = true.
Proof.
  unfold personIdAt.
  destruct (startsWith s "persons/") eqn:Hs; [|discriminate].
  destruct (startsWith_spec _ _ Hs) as [r ->].
  change (drop 8 ("persons/" ++ r)) with r.
  destruct (isEmpty (takeWhile notSlashQuery r)) eqn:E; [discriminate|].
  intros [= <-]. split; [exact E|]. split; [apply allChars_takeWhile|].
  rewrite <- (takeWhile_dropWhile notSlashQuery r) at 1.
  rewrite <- append_assoc. apply startsWith_append.
Qed.

Lemma matchPersonId_spec (s id : string) :
  matchPersonId s = Some id ->
  isEmpty id = false /\ allChars notSlashQuery id = true
  /\ includes s ("persons/" ++ id) = true.
Proof.
  induction s as [|a s IH]; rewrite matchPersonId_eq.
  - destruct (personIdAt "") as [x|] eqn:E; [|discriminate].
    vm_compute in E. discriminate E.
  - destruct (personIdAt (String a s)) as [x|] eqn:E.
    + intros [= <-]. destruct (personIdAt_spec _ _ E) as (H1 & H2 & H3).
      split; [exact H1|]. split; [exact H2|].
      now apply includes_startsWith.
    + intros H. destruct (IH H) as (H1 & H2 & H3).
      split; [exact H1|]. split; [exact H2|]. now apply includes_tail.
Qed.

End UrlShape.

(** X18. What the URL rewriting produces: the host is one of the three
    web hosts; a person URL comes back unchanged or as
    [host/tree/person/id], where [id] is the non-empty run without [/]
    and [?] that follows [persons/] in the input; a source URL comes
    back unchanged or as [host/ark], where [ark] is an ARK identifier
    [ark:/naan/name] that occurs in the input. *)
Theorem rewritten_url_shape (url : string) :
  In (detectBaseUrl url) webHosts
  /\ (transformFamilySearchUrl url = url
      \/ exists id,
           Js.isEmpty id = false
           /\ Js.allChars notSlashQuery id = true
           /\ Js.includes url ("persons/" ++ id) = true
           /\ transformFamilySearchUrl url
              = detectBaseUrl url ++ "/tree/person/" ++ id)
  /\ (transformSourceUrl url = url
      \/ exists ark,
           isArk ark
           /\ Js.includes url ark = true
           /\ transformSourceUrl url = detectBaseUrl url ++ "/" ++ ark).
Proof.
  split; [|split].
  - unfold webHosts.
    destruct (detectBaseUrl_cases url) as [-> | [-> | ->]];
      cbn [In]; auto.
  - unfold transformFamilySearchUrl.
    destruct (negb _); [now left|].
    destruct (matchPersonId url) as [id|] eqn:E; [|now left].
    destruct (matchPersonId_spec _ _ E) as (H1 & H2 & H3).
    rewrite H1. right. now exists id.
  - unfold transformSourceUrl.
    destruct (Js.isEmpty url); [now left|].
    destruct (_ && _); [now left|].
    destruct (matchArk url) as [ark|] eqn:E; [|now left].
    destruct (matchArk_spec _ _ E) as [H1 H2].
    right. now exists ark.
Qed.

(** ** The source map *)

Lemma collectSources_fold (people : list EnhancedPerson)
  (sourceMap : JsMap SourceDescription) :
  fold_left
    (fun sourceMap person =>
       match opt (fullDetails person) sourceDescriptions with
       | Some descriptions => fold_left addSource descriptions sourceMap
       | None => sourceMap
       end)
    people sourceMap
  = fold_left addSource (flat_map sourceDescriptionsOf people) sourceMap.
Proof.
  revert sourceMap. induction people as [|p rest IH]; intros m;
    [reflexivity|].
  cbn [fold_left flat_map]. rewrite fold_left_app, IH.
  unfold sourceDescriptionsOf.
  now destruct (opt (fullDetails p) sourceDescriptions).
Qed.

Lemma addSource_cases (sourceMap : JsMap SourceDescription)
  (source : SourceDescription) :
  addSource sourceMap source = sourceMap
  \/ exists k,
       Js.isEmpty k = false /\ source_id source = Some k
       /\ mapHas sourceMap k = false
       /\ addSource sourceMap source = mapSet sourceMap k source.
Proof.
  unfold addSource. destruct (source_id source) as [k|]; [|now left].
  destruct (Js.isEmpty k) eqn:E; [now left|].
  destruct (mapHas sourceMap k) eqn:H; [now left|].
  right. now exists k.
Qed.

Lemma mapHas_false {V : Type} (m : JsMap V) (k : string) :
  mapHas m k = false <-> mapGet m k = None.
Proof. unfold mapHas. destruct (mapGet m k); split; congruence. Qed.

Lemma addSource_get (sourceMap : JsMap SourceDescription)
  (source : SourceDescription) (id : string) :
  Js.isEmpty id = false ->
  mapGet (addSource sourceMap source) id
  = match mapGet sourceMap id with
    | Some s => Some s
    | None => if hasSourceId id source then Some source else None
    end.
Proof.
  intros Hid. unfold addSource, hasSourceId, optEqb.
  destruct (source_id source) as [k|];
    [|now destruct (mapGet sourceMap id)].
  destruct (String.eqb k id) eqn:E.
  - apply String.eqb_eq in E. subst k. rewrite Hid. cbn [negb andb].
    destruct (mapHas sourceMap id) eqn:H; cbn [negb].
    + unfold mapHas in H. now destruct (mapGet sourceMap id).
    + rewrite mapGet_mapSet, String.eqb_refl.
      apply mapHas_false in H. now rewrite H.
  - destruct (negb (Js.isEmpty k) && negb (mapHas sourceMap k)).
    + rewrite mapGet_mapSet, E. now destruct (mapGet sourceMap id).
    + now destruct (mapGet sourceMap id).
Qed.

Lemma addSources_get (descriptions : list SourceDescription)
  (sourceMap : JsMap SourceDescription) (id : string) :
  Js.isEmpty id = false ->
  mapGet (fold_left addSource descriptions sourceMap) id
  = match mapGet sourceMap id with
    | Some s => Some s
    | None => find (hasSourceId id) descriptions
    end.
Proof.
  intros Hid. revert sourceMap.
  induction descriptions as [|d rest IH]; intros m; cbn [fold_left find].
  - now destruct (mapGet m id).
  - rewrite IH, (addSource_get m d id Hid).
    destruct (mapGet m id); [reflexivity|].
    now destruct (hasSourceId id d).
Qed.

(** X19. Sources are deduplicated by identifier, the first description
    winning: the keys of the source map are distinct and not empty, each
    source is stored under its own identifier, and the source under an
    identifier is the first description with that identifier among the
    descriptions of all persons in input order. *)
Theorem sources_first_wins (people : list EnhancedPerson) :
  NoDup (mapKeys (collectSources people))
  /\ (forall k source,
         In (k, source) (collectSources people) ->
         Js.isEmpty k = false /\ source_id source = Some k)
  /\ (forall id,
         Js.isEmpty id = false ->
         mapGet (collectSources people) id
         = find (hasSourceId id) (flat_map sourceDescriptionsOf people)).
Proof.
  unfold collectSources. rewrite collectSources_fold. split; [|split].
  - apply (fold_left_invariant (fun m => NoDup (mapKeys m)));
      [constructor|].
    intros m d _ Hm.
    destruct (addSource_cases m d) as [-> | (k & _ & _ & _ & ->)];
      [exact Hm | now apply mapSet_NoDup].
  - apply (fold_left_invariant
             (fun m => forall k source,
                  In (k, source) m ->
                  Js.isEmpty k = false /\ source_id source = Some k)).
    + intros ? ? [].
    + intros m d _ Hm.
      destruct (addSource_cases m d) as [-> | (k & Hk & Hs & _ & ->)];
        [exact Hm|].
      intros k' s Hin.
      apply In_mapSet in Hin as [[= -> ->]|Hin]; [now split | now apply Hm].
  - intros id Hid. now rewrite (addSources_get _ [] id Hid).
Qed.

(** ** Citations *)

Lemma indexOf_mapGet {V : Type} (m : JsMap V) (k : string) :
  match mapGet m k with
  | Some v =>
      exists i, indexOf (mapKeys m) k = Some i /\ nth_error m i = Some (k, v)
  | None => indexOf (mapKeys m) k = None
  end.
Proof.
  unfold indexOf, mapKeys.
  induction m as [|[k' v'] m IH]; cbn [mapGet map findIndex fst];
    [reflexivity|].
  rewrite (String.eqb_sym k k').
  destruct (String.eqb k' k) eqn:E.
  - apply String.eqb_eq in E. subst k'. now exists 0.
  - destruct (mapGet m k) as [v|].
    + destruct IH as (i & Hi & Hn). exists (S i). now rewrite Hi.
    + now rewrite IH.
Qed.

Lemma sourceRecords_nth (sourceMap : JsMap SourceDescription) (n i : nat)
  (k : string) (source : SourceDescription) :
  nth_error sourceMap i = Some (k, source) ->
  exists before after,
    sourceRecords n sourceMap
    = before +++ (sourceHeader (n + i) :: sourceBody source) +++ after.
Proof.
  revert n i. induction sourceMap as [|[k' s'] rest IH]; intros n i Hi.
  - destruct i; discriminate Hi.
  - rewrite sourceRecords_cons. destruct i as [|i]; cbn [nth_error] in Hi.
    + injection Hi as -> ->. exists [], (sourceRecords (S n) rest).
      now rewrite Nat.add_0_r.
    + destruct (IH (S n) i Hi) as (before & after & ->).
      exists ((sourceHeader n :: sourceBody s') +++ before), after.
      replace (n + S i) with (S n + i) by lia.
      now rewrite <- app_assoc.
Qed.

(** X20. A source reference of a person cites the record of the source it
    names: when the source map holds the description under the
    reference's identifier, the citation is [1 SOUR @S<i+1>@], followed
    by the qualifier notes, where the [i+1]-th source record is the one
    written from that description; a reference to an identifier the map
    does not hold is skipped. *)
Theorem citation_names_its_source (sourceMap : JsMap SourceDescription)
  (sourceRef : SourceReference) (sourceId : string) :
  descriptionId sourceRef = Some sourceId ->
  Js.isEmpty sourceId = false ->
  match mapGet sourceMap sourceId with
  | Some source =>
      exists i before after,
        citationLines sourceMap sourceRef
        = citation i :: qualifierLines sourceRef
        /\ sourceRecords 1 sourceMap
           = before +++ (sourceHeader (i + 1) :: sourceBody source)
             +++ after
  | None => citationLines sourceMap sourceRef = []
  end.
Proof.
  intros Hd Hne. unfold citationLines. rewrite Hd, Hne.
  pose proof (indexOf_mapGet sourceMap sourceId) as H.
  destruct (mapGet sourceMap sourceId) as [source|].
  - destruct H as (i & Hi & Hn). rewrite Hi.
    destruct (sourceRecords_nth sourceMap 1 i sourceId source Hn)
      as (before & after & Hr).
    exists i, before, after. split; [reflexivity|].
    now rewrite Nat.add_comm.
  - now rewrite H.
Qed.

Lemma citation_names_its_source_witness :
  exists i before after,
    citationLines
      [("S-1", {| source_id := Some "S-1"; titles := None;
                  citations := None; about := None;
                  resourceType := None |})]
      {| descriptionId := Some "S-1"; qualifiers := None |}
    = citation i :: qualifierLines {| descriptionId := Some "S-1";
                                      qualifiers := None |}
    /\ sourceRecords 1
         [("S-1", {| source_id := Some "S-1"; titles := None;
                     citations := None; about := None;
                     resourceType := None |})]
       = before
         +++ (sourceHeader (i + 1)
              :: sourceBody {| source_id := Some "S-1"; titles := None;
                               citations := None; about := None;
                               resourceType := None |})
         +++ after.
Proof.
  exact (citation_names_its_source
           [("S-1", {| source_id := Some "S-1"; titles := None;
                       citations := None; about := None;
                       resourceType := None |})]
           {| descriptionId := Some "S-1"; qualifiers := None |}
           "S-1" eq_refl eq_refl).
Defined.

(** ** Under which record a FAMC or FAMS line stands *)

Section Owners.

Lemma linkOwners_app (last : string) (a b : list string) :
  linkOwners last (a +++ b)
  = linkOwners last a +++ linkOwners (lastOther last a) b.
Proof.
  revert last. induction a as [|l a IH]; intros last; [reflexivity|].
  cbn [app linkOwners lastOther].
  destruct (isBackLink l); cbn [app]; now rewrite IH.
Qed.

Lemma lastOther_links (last : string) (mid : list string) :
  Forall (fun l => isBackLink l = true) mid -> lastOther last mid = last.
Proof.
  induction 1 as [|l mid Hl _ IH]; [reflexivity|].
  cbn [lastOther]. now rewrite Hl.
Qed.

Lemma linkOwners_none (last : string) (lines : list string) :
  Forall (fun l => isBackLink l = false) lines -> linkOwners last lines = [].
Proof.
  intros H. revert last. induction H as [|l lines Hl _ IH]; intros last;
    [reflexivity|].
  cbn [linkOwners]. rewrite Hl. apply IH.
Qed.

(** A back-link inserted below [h], after back-links only, is owned by
    [h], and the other back-links keep their owners. *)
Lemma linkOwners_insert (last h x : string) (pre mid post : list string)
  (pair : string * string) :
  isBackLink h = false -> isBackLink x = true ->
  Forall (fun l => isBackLink l = true) mid ->
  In pair (linkOwners last (pre +++ h :: mid +++ x :: post))
  <-> pair = (h, x) \/ In pair (linkOwners last (pre +++ h :: mid +++ post)).
Proof.
  intros Hh Hx Hmid.
  rewrite !linkOwners_app. cbn [linkOwners]. rewrite Hh.
  rewrite !linkOwners_app, (lastOther_links h mid Hmid).
  cbn [linkOwners]. rewrite Hx.
  rewrite !in_app_iff. cbn [In]. intuition.
Qed.

Lemma splice_after {A : Type} (l1 l2 : list A) (h x : A) (n : nat) :
  splice (List.length l1 + 1 + n) x (l1 +++ h :: l2)
  = l1 +++ h :: splice n x l2.
Proof.
  unfold splice. induction l1 as [|a l1 IH]; cbn [List.length Nat.add app].
  - reflexivity.
  - cbn [firstn skipn app]. now rewrite IH.
Qed.

Lemma skipn_after {A : Type} (l1 l2 : list A) (h : A) :
  skipn (List.length l1 + 1) (l1 +++ h :: l2) = l2.
Proof.
  induction l1 as [|a l1 IH]; cbn [List.length Nat.add app skipn];
    [reflexivity | exact IH].
Qed.

Lemma countWhile_split {A : Type} (p : A -> bool) (l : list A) :
  exists mid post,
    l = mid +++ post /\ List.length mid = countWhile p l
    /\ Forall (fun x => p x = true) mid.
Proof.
  induction l as [|a l (mid & post & E & Hlen & Hmid)]; cbn [countWhile].
  - exists [], []. repeat split. constructor.
  - destruct (p a) eqn:Ea.
    + exists (a :: mid), post. cbn [app List.length].
      split; [now rewrite <- E|]. split; [now rewrite Hlen|].
      now constructor.
    + exists [], (a :: l). repeat split. constructor.
Qed.

Lemma splice_at {A : Type} (mid post : list A) (x : A) :
  splice (List.length mid) x (mid +++ post) = mid +++ x :: post.
Proof.
  unfold splice. induction mid as [|a mid IH]; cbn [List.length app];
    [reflexivity|].
  cbn [firstn skipn app]. now rewrite IH.
Qed.

Lemma findIndex_split {A : Type} (f : A -> bool) (l : list A) (i : nat) :
  findIndex f l = Some i ->
  exists l1 h l2,
    l = l1 +++ h :: l2 /\ List.length l1 = i /\ f h = true.
Proof.
  revert i. induction l as [|a l IH]; intros i; cbn [findIndex];
    [discriminate|].
  destruct (f a) eqn:Ea.
  - intros [= <-]. now exists [], a, l.
  - destruct (findIndex f l) as [j|]; [|discriminate].
    intros [= <-]. destruct (IH j eq_refl) as (l1 & h & l2 & -> & Hlen & Hh).
    exists (a :: l1), h, l2. cbn [app List.length].
    split; [reflexivity|]. split; [now rewrite Hlen | exact Hh].
Qed.

Lemma findIndex_found {A : Type} (f : A -> bool) (l : list A) (x : A) :
  In x l -> f x = true -> exists i, findIndex f l = Some i.
Proof.
  intros Hin Hx. induction l as [|a l IH]; [destruct Hin|].
  cbn [findIndex]. destruct (f a) eqn:Ea; [now exists 0|].
  destruct Hin as [->|Hin]; [congruence|].
  destruct (IH Hin) as [i ->]. now exists (S i).
Qed.

(** The two insertions of the last steps: right below the header, or
    below the FAMC lines that follow it. *)
Lemma splice_under (last h x : string) (lines : list string) (i n : nat)
  (pair : string * string) :
  findIndex (fun line => String.eqb line h) lines = Some i ->
  isBackLink h = false -> isBackLink x = true ->
  n = 0
  \/ n = countWhile (fun line => Js.startsWith line "1 FAMC")
                    (skipn (i + 1) lines) ->
  In pair (linkOwners last (splice (i + 1 + n) x lines))
  <-> pair = (h, x) \/ In pair (linkOwners last lines).
Proof.
  intros Hi Hh Hx Hn.
  destruct (findIndex_split _ _ _ Hi) as (l1 & h' & l2 & -> & Hlen & E).
  apply String.eqb_eq in E. subst h' i.
  rewrite splice_after. rewrite skipn_after in Hn.
  destruct Hn as [-> | ->].
  - apply (linkOwners_insert last h x l1 [] l2 pair Hh Hx). constructor.
  - destruct (countWhile_split (fun line => Js.startsWith line "1 FAMC") l2)
      as (mid & post & -> & <- & Hmid).
    rewrite splice_at.
    apply (linkOwners_insert last h x l1 mid post pair Hh Hx).
    eapply Forall_impl; [|exact Hmid].
    intros l Hl. unfold isBackLink. cbv beta in Hl. now rewrite Hl.
Qed.

Variable personIdMap : JsMap string.
Variable familyIdMap : JsMap string.

Lemma indiHeader_other (gedcomId : string) :
  isBackLink (indiHeader gedcomId) = false.
Proof. vm_compute. reflexivity. Qed.

(** What the FAMC step does for one child. *)
Lemma spliceFamc_owners (last : string) (lines : list string)
  (entry : string * list string) (pair : string * string) :
  In pair (linkOwners last (spliceFamc personIdMap familyIdMap lines entry))
  <-> In pair (linkOwners last lines)
      \/ exists gedcomId famKey famId,
           mapGet personIdMap (fst entry) = Some gedcomId
           /\ Js.isEmpty gedcomId = false
           /\ famKeyOfParents (snd entry) = Some famKey
           /\ mapGet familyIdMap famKey = Some famId
           /\ Js.isEmpty famId = false
           /\ In (indiHeader gedcomId) lines
           /\ pair = (indiHeader gedcomId, "1 FAMC " ++ famId).
Proof.
  assert (Hskip :
             (forall g k f,
                 mapGet personIdMap (fst entry) = Some g ->
                 Js.isEmpty g = false ->
                 famKeyOfParents (snd entry) = Some k ->
                 mapGet familyIdMap k = Some f ->
                 Js.isEmpty f = false ->
                 In (indiHeader g) lines -> False) ->
             In pair (linkOwners last lines)
             <-> In pair (linkOwners last lines)
                 \/ exists gedcomId famKey famId,
                      mapGet personIdMap (fst entry) = Some gedcomId
                      /\ Js.isEmpty gedcomId = false
                      /\ famKeyOfParents (snd entry) = Some famKey
                      /\ mapGet familyIdMap famKey = Some famId
                      /\ Js.isEmpty famId = false
                      /\ In (indiHeader gedcomId) lines
                      /\ pair = (indiHeader gedcomId, "1 FAMC " ++ famId)).
  { intros Hno. split; [now left|].
    intros [H|(g & k & f & H1 & H2 & H3 & H4 & H5 & H6 & _)]; [exact H|].
    elim (Hno g k f H1 H2 H3 H4 H5 H6). }
  unfold spliceFamc.
  destruct (mapGet personIdMap (fst entry)) as [gid|] eqn:E1;
    [|apply Hskip; intros; congruence].
  destruct (Js.isEmpty gid) eqn:E2;
    [apply Hskip; intros; congruence|].
  destruct (famKeyOfParents (snd entry)) as [key|] eqn:E3; cbn [opt];
    [|apply Hskip; intros; congruence].
  destruct (mapGet familyIdMap key) as [famId|] eqn:E4;
    [|apply Hskip; intros; congruence].
  destruct famId as [|c famId];
    [apply Hskip; intros g k f H1 H2 H3 H4 H5 H6;
     assert (f = "") by congruence; subst f; discriminate H5|].
  cbn [Js.truthy Js.orDefault Js.isEmpty negb].
  destruct (findIndex _ lines) as [i|] eqn:Ei.
  - replace (i + 1) with (i + 1 + 0) by lia.
    rewrite (splice_under last (indiHeader gid) _ lines i 0 pair Ei
               (indiHeader_other gid));
      [|vm_compute; reflexivity | now left].
    split.
    + intros [->|H]; [right | now left].
      exists gid, key, (String c famId).
      destruct (findIndex_split _ _ _ Ei) as (l1 & h & l2 & -> & _ & E).
      apply String.eqb_eq in E. subst h.
      repeat split; auto. apply in_or_app. right. now left.
    + intros [H|(g & k & f & H1 & _ & H3 & H4 & _ & _ & ->)];
        [now right | left].
      assert (g = gid) by congruence. assert (k = key) by congruence.
      subst g k. assert (f = String c famId) by congruence. now subst f.
  - apply Hskip. intros g k f H1 _ _ _ _ Hin.
    assert (g = gid) by congruence. subst g.
    destruct (findIndex_found (fun line => String.eqb line (indiHeader gid))
                lines (indiHeader gid) Hin (String.eqb_refl _)) as [i Hi].
    congruence.
Qed.

(** What the FAMS step does for one spouse. *)
Lemma spliceFams_owners (last famId : string) (lines : list string)
  (spouseId : string) (pair : string * string) :
  In pair (linkOwners last (spliceFams personIdMap famId lines spouseId))
  <-> In pair (linkOwners last lines)
      \/ exists gedcomId,
           mapGet personIdMap spouseId = Some gedcomId
           /\ Js.isEmpty gedcomId = false
           /\ In (indiHeader gedcomId) lines
           /\ pair = (indiHeader gedcomId, "1 FAMS " ++ famId).
Proof.
  assert (Hskip :
             (forall g,
                 mapGet personIdMap spouseId = Some g ->
                 Js.isEmpty g = false ->
                 In (indiHeader g) lines -> False) ->
             In pair (linkOwners last lines)
             <-> In pair (linkOwners last lines)
                 \/ exists gedcomId,
                      mapGet personIdMap spouseId = Some gedcomId
                      /\ Js.isEmpty gedcomId = false
                      /\ In (indiHeader gedcomId) lines
                      /\ pair = (indiHeader gedcomId, "1 FAMS " ++ famId)).
  { intros Hno. split; [now left|].
    intros [H|(g & H1 & H2 & H3 & _)]; [exact H|].
    elim (Hno g H1 H2 H3). }
  unfold spliceFams.
  destruct (mapGet personIdMap spouseId) as [gid|] eqn:E1;
    [|apply Hskip; intros; congruence].
  destruct (Js.isEmpty gid) eqn:E2;
    [apply Hskip; intros; congruence|].
  destruct (findIndex _ lines) as [i|] eqn:Ei.
  - cbv zeta.
    rewrite (splice_under last (indiHeader gid) _ lines i _ pair Ei
               (indiHeader_other gid));
      [|vm_compute; reflexivity | now right].
    split.
    + intros [->|H]; [right | now left].
      exists gid.
      destruct (findIndex_split _ _ _ Ei) as (l1 & h & l2 & -> & _ & E).
      apply String.eqb_eq in E. subst h.
      repeat split; auto. apply in_or_app. right. now left.
    + intros [H|(g & H1 & _ & _ & ->)]; [now right | left].
      assert (g = gid) by congruence. now subst g.
  - apply Hskip. intros g H1 _ Hin.
    assert (g = gid) by congruence. subst g.
    destruct (findIndex_found (fun line => String.eqb line (indiHeader gid))
                lines (indiHeader gid) Hin (String.eqb_refl _)) as [i Hi].
    congruence.
Qed.

End Owners.

(** ** The back-links of a conversion *)

Section BackLinks.

Variable data : EnhancedPedigreeData.
Variable people : list EnhancedPerson.
Variable options : GedcomConversionOptions.
Variable now : JsDate.
Variable connectable : JsSet.

Local Abbreviation g := (buildGraph data people).
Local Abbreviation records := (familyRecordsOf people options g connectable).
Local Abbreviation emitted :=
  (fst (emitRecords people options now g connectable)).
Local Abbreviation familyIdMap :=
  (snd (emitRecords people options now g connectable)).
Local Abbreviation final := (fst (emitAll people options now g connectable)).
Local Abbreviation Link := (LinkTo familyIdMap).

Lemma header_stable (a b : list string) (gedcomId : string) :
  Spliced Link a b ->
  In (indiHeader gedcomId) b <-> In (indiHeader gedcomId) a.
Proof.
  intros Hs. split.
  - intros H. apply (Spliced_In_inv _ _ _ _ Hs) in H as [H|H]; [exact H|].
    apply LinkTo_isLinkLine in H. vm_compute in H. discriminate H.
  - apply (Spliced_In _ _ _ _ Hs).
Qed.

Lemma owners_fold {A : Type} (step : list string -> A -> list string)
  (Adds : A -> string * string -> Prop) (last : string)
  (base : list string) :
  (forall lines a, Spliced Link lines (step lines a)) ->
  (forall lines a pair,
      Spliced Link base lines ->
      In pair (linkOwners last (step lines a))
      <-> In pair (linkOwners last lines) \/ Adds a pair) ->
  forall entries lines pair,
    Spliced Link base lines ->
    In pair (linkOwners last (fold_left step entries lines))
    <-> In pair (linkOwners last lines)
        \/ exists a, In a entries /\ Adds a pair.
Proof.
  intros Hs Hstep entries.
  induction entries as [|a rest IH]; intros lines pair Hb; cbn [fold_left].
  - split; [now left | intros [H|(a & [] & _)]; exact H].
  - rewrite IH by (eapply Spliced_trans; [exact Hb | apply Hs]).
    rewrite (Hstep lines a pair Hb). split.
    + intros [[H|H]|(b & Hin & H)].
      * now left.
      * right. exists a. split; [now left | exact H].
      * right. exists b. split; [now right | exact H].
    + intros [H|(b & [<-|Hin] & H)].
      * left. now left.
      * left. now right.
      * right. now exists b.
Qed.

(** The pairs the FAMC step and the FAMS step add. *)
Local Abbreviation Famc :=
  (fun (entry : string * list string) (pair : string * string) =>
     exists gedcomId famKey famId,
       mapGet (g_personIdMap g) (fst entry) = Some gedcomId
       /\ Js.isEmpty gedcomId = false
       /\ famKeyOfParents (snd entry) = Some famKey
       /\ mapGet familyIdMap famKey = Some famId
       /\ Js.isEmpty famId = false
       /\ In (indiHeader gedcomId) emitted
       /\ pair = (indiHeader gedcomId, "1 FAMC " ++ famId)).

Local Abbreviation FamsOf :=
  (fun (famId spouseId : string) (pair : string * string) =>
     exists gedcomId,
       mapGet (g_personIdMap g) spouseId = Some gedcomId
       /\ Js.isEmpty gedcomId = false
       /\ In (indiHeader gedcomId) emitted
       /\ pair = (indiHeader gedcomId, "1 FAMS " ++ famId)).

Local Abbreviation Fams :=
  (fun (entry : string * Family) (pair : string * string) =>
     exists famId spouseId,
       mapGet familyIdMap (fst entry) = Some famId
       /\ Js.isEmpty famId = false
       /\ In spouseId (spouses (snd entry))
       /\ FamsOf famId spouseId pair).

Lemma famc_step (last : string) (lines : list string)
  (entry : string * list string) (pair : string * string) :
  Spliced Link emitted lines ->
  In pair (linkOwners last
             (spliceFamc (g_personIdMap g) familyIdMap lines entry))
  <-> In pair (linkOwners last lines) \/ Famc entry pair.
Proof.
  intros Hs. rewrite spliceFamc_owners.
  split; (intros [H|(gid & k & f & H1 & H2 & H3 & H4 & H5 & H6 & H7)];
          [now left | right]);
    exists gid, k, f; repeat split; auto;
    now apply (header_stable _ _ gid Hs).
Qed.

Lemma fams_step (last famId : string) (lines : list string)
  (spouseId : string) (pair : string * string) :
  Spliced Link emitted lines ->
  In pair (linkOwners last
             (spliceFams (g_personIdMap g) famId lines spouseId))
  <-> In pair (linkOwners last lines) \/ FamsOf famId spouseId pair.
Proof.
  intros Hs. rewrite spliceFams_owners.
  split; (intros [H|(gid & H1 & H2 & H3 & H4)]; [now left | right]);
    exists gid; repeat split; auto;
    now apply (header_stable _ _ gid Hs).
Qed.

Lemma addFams_step (last : string) (lines : list string)
  (entry : string * Family) (pair : string * string) :
  Spliced Link emitted lines ->
  In pair (linkOwners last
             (addFams (g_personIdMap g) familyIdMap lines entry))
  <-> In pair (linkOwners last lines) \/ Fams entry pair.
Proof.
  intros Hs. unfold addFams.
  destruct (mapGet familyIdMap (fst entry)) as [famId|] eqn:E;
    [|split; [now left | intros [H|(f & s & H & _)]; [exact H|congruence]]].
  destruct (Js.isEmpty famId) eqn:Ee;
    [split; [now left
            | intros [H|(f & s & H1 & H2 & _)]; [exact H|congruence]]|].
  rewrite (owners_fold (spliceFams (g_personIdMap g) famId)
             (FamsOf famId) last emitted);
    [ | intros; now apply (spliceFams_spliced _ _ (fst entry))
      | intros; now apply fams_step | exact Hs].
  split.
  - intros [H|(s & Hin & H)]; [now left | right]. now exists famId, s.
  - intros [H|(f & s & H1 & _ & Hin & H)]; [now left | right].
    assert (f = famId) by congruence. subst f. now exists s.
Qed.

Lemma emitted_no_backlinks :
  Forall (fun l => isBackLink l = false) emitted.
Proof.
  apply emitted_classified.
  - unfold headerLines. intros l H.
    repeat (destruct H as [<-|H]; [vm_compute; reflexivity|]). destruct H.
  - intros n. vm_compute; reflexivity.
  - intros l Hl. unfold isBackLink.
    rewrite (body_avoids "1 FAMC" l), (body_avoids "1 FAMS " l);
      try exact Hl; try (vm_compute; reflexivity).
  - intros i _. vm_compute; reflexivity.
  - intros p l _ Hl.
    pose proof (personHeaders_level0 (allowOrphansOf options)
                  (g_personIdMap g)
                  (fst (indexFamilies connectable (g_families g)))
                  (snd (indexFamilies connectable (g_families g))) p) as H.
    rewrite Forall_forall in H. destruct (H l Hl) as [H0 _].
    destruct (JsFacts.startsWith_spec _ _ H0) as [r ->].
    vm_compute; reflexivity.
  - intros r _. vm_compute; reflexivity.
  - intros r l Hr Hl.
    destruct (isMemberLine l) eqn:Hm.
    + destruct (spouseLines_members data people options connectable r l
                  Hr Hl Hm) as (tag & x & gid & Ht & _ & _ & ->).
      destruct Ht as [<-|[<-|[]]]; vm_compute; reflexivity.
    + unfold spouseLines in Hl.
      destruct (records_spec _ _ _ _ _ _ _ _ Hr) as (Hin & _ & _).
      destruct (spouseLines_shape data people (fr_key r) (fr_family r) Hin)
        as [(s & id & Hs & Hg & Hsl)
           | (s1 & s2 & id1 & id2 & Hs & Hg1 & Hg2 & Hsl)];
        unfold spouseLines in Hsl; rewrite Hsl in Hl.
      * destruct Hl as [<-|[]]. destruct (optEqb _ _); vm_compute; reflexivity.
      * apply in_app_or in Hl as [Hl|Hl].
        -- destruct (_ || _); destruct Hl as [<-|[<-|[]]];
             vm_compute; reflexivity.
        -- pose proof (addMarriageFacts_body (g_allRelationships g) s1 s2)
             as Hb.
           rewrite Forall_forall in Hb. specialize (Hb l Hl).
           unfold isBackLink.
           rewrite (body_avoids "1 FAMC" l), (body_avoids "1 FAMS " l);
             try exact Hb; try (vm_compute; reflexivity).
  - intros r l Hr Hl.
    destruct (childLines_members data people options connectable r l Hr Hl)
      as (x & gid & _ & _ & ->).
    vm_compute; reflexivity.
Qed.

(** The back-links of the lines array and the records they stand under:
    the FAMC step adds one per child that has a family identifier, the
    FAMS step one per spouse of a family with an identifier, provided the
    person's INDI record was pushed. *)
Lemma final_owners (pair : string * string) :
  In pair (linkOwners "" final)
  <-> (exists entry, In entry (g_childToParents g) /\ Famc entry pair)
      \/ (exists entry, In entry (g_families g) /\ Fams entry pair).
Proof.
  unfold emitAll, spliceLinks. cbn [fst snd].
  rewrite (owners_fold (addFams (g_personIdMap g) familyIdMap) Fams ""
             emitted);
    [ | intros; apply addFams_spliced
      | intros; now apply addFams_step
      | apply Spliced_fold; intros; apply spliceFamc_spliced ].
  rewrite (owners_fold (spliceFamc (g_personIdMap g) familyIdMap) Famc ""
             emitted);
    [ | intros; apply spliceFamc_spliced
      | intros; now apply famc_step
      | apply spliced_done ].
  rewrite (linkOwners_none "" emitted emitted_no_backlinks).
  cbn [In]. tauto.
Qed.

End BackLinks.

Section RecordIds.

Variable people : list EnhancedPerson.
Variable allowOrphans : bool.
Variable personIdMap : JsMap string.
Variable allRelationships : list Relationship.
Variable connectable : JsSet.

Local Abbreviation recordsFrom :=
  (familyRecords people allowOrphans personIdMap allRelationships
                 connectable).

Lemma records_keys (families : JsMap Family) (n : nat) (r : FamRecord) :
  In r (recordsFrom n families) -> In (fr_key r) (mapKeys families).
Proof.
  intros H. apply records_spec in H as (H & _).
  unfold mapKeys. apply in_map_iff. now exists (fr_key r, fr_family r).
Qed.

Lemma records_keys_NoDup (families : JsMap Family) (n : nat) :
  NoDup (mapKeys families) -> NoDup (map fr_key (recordsFrom n families)).
Proof.
  revert n. induction families as [|[key family] rest IH]; intros n Hnd;
    cbn [familyRecords]; [constructor|].
  inversion Hnd as [|? ? Hk Hrest]; subst.
  destruct (familySkipped _ _ _ (snd (key, family))); [now apply IH|].
  cbn [map fr_key fst]. constructor; [|now apply IH].
  intros Hin. apply in_map_iff in Hin as (r & Hr & Hin).
  apply Hk. rewrite <- Hr. now apply (records_keys rest (S n)).
Qed.

Lemma records_id_form (families : JsMap Family) (n : nat) (r : FamRecord) :
  In r (recordsFrom n families) -> exists k, fr_id r = famGedcomId k.
Proof.
  intros H. apply (in_map fr_id) in H. rewrite records_ids in H.
  apply in_map_iff in H as (k & Hk & _). now exists k.
Qed.

Lemma idMap_other (rs : list FamRecord) (m : JsMap string) (key : string) :
  ~ In key (map fr_key rs) ->
  mapGet (fold_left (fun m r => mapSet m (fr_key r) (fr_id r)) rs m) key
  = mapGet m key.
Proof.
  revert m. induction rs as [|r rs IH]; intros m Hk; cbn [fold_left];
    [reflexivity|].
  rewrite IH by (intros H; apply Hk; now right).
  rewrite mapGet_mapSet.
  destruct (String.eqb (fr_key r) key) eqn:E; [|reflexivity].
  apply String.eqb_eq in E. elim Hk. now left.
Qed.

Lemma idMap_record (rs : list FamRecord) (m : JsMap string) (r : FamRecord) :
  NoDup (map fr_key rs) -> In r rs ->
  mapGet (fold_left (fun m r => mapSet m (fr_key r) (fr_id r)) rs m)
         (fr_key r)
  = Some (fr_id r).
Proof.
  revert m. induction rs as [|r' rs IH]; intros m Hnd Hin; [destruct Hin|].
  cbn [fold_left]. inversion Hnd as [|? ? Hk Hrest]; subst.
  destruct Hin as [->|Hin]; [|now apply IH].
  rewrite idMap_other by exact Hk.
  now rewrite mapGet_mapSet, String.eqb_refl.
Qed.

Lemma idMap_get (rs : list FamRecord) (key famId : string) :
  mapGet (fold_left (fun m r => mapSet m (fr_key r) (fr_id r)) rs []) key
  = Some famId ->
  exists r, In r rs /\ fr_key r = key /\ fr_id r = famId.
Proof.
  intros H. apply mapGet_In in H. revert H.
  apply (fold_left_invariant
           (fun m => In (key, famId) m ->
                     exists r, In r rs /\ fr_key r = key
                               /\ fr_id r = famId)).
  - intros [].
  - intros m r Hr IH Hin.
    apply In_mapSet in Hin as [[= -> ->]|Hin]; [now exists r | now apply IH].
Qed.

End RecordIds.

Section CrossReferences.

Variable data : EnhancedPedigreeData.
Variable people : list EnhancedPerson.
Variable options : GedcomConversionOptions.
Variable now : JsDate.
Variable connectable : JsSet.

Local Abbreviation g := (buildGraph data people).
Local Abbreviation records := (familyRecordsOf people options g connectable).
Local Abbreviation emitted :=
  (fst (emitRecords people options now g connectable)).
Local Abbreviation familyIdMap :=
  (snd (emitRecords people options now g connectable)).
Local Abbreviation final := (fst (emitAll people options now g connectable)).

Lemma familyIdMap_get (key famId : string) :
  mapGet familyIdMap key = Some famId ->
  exists r, In r records /\ fr_key r = key /\ fr_id r = famId.
Proof. rewrite emitRecords_eq. cbn [snd]. apply idMap_get. Qed.

Lemma familyIdMap_record (r : FamRecord) :
  In r records ->
  mapGet familyIdMap (fr_key r) = Some (fr_id r)
  /\ Js.isEmpty (fr_id r) = false.
Proof.
  intros Hr. split.
  - rewrite emitRecords_eq. cbn [snd]. apply idMap_record; [|exact Hr].
    apply records_keys_NoDup, buildGraph_keys.
  - destruct (records_id_form _ _ _ _ _ _ _ _ Hr) as [k ->]. reflexivity.
Qed.

Lemma record_family (r : FamRecord) (family : Family) :
  In r records -> In (fr_key r, family) (g_families g) ->
  family = fr_family r.
Proof.
  intros Hr Hin.
  destruct (records_spec _ _ _ _ _ _ _ _ Hr) as (Hin' & _).
  destruct (buildGraph_keys data people) as [Hnd _].
  apply (NoDup_mapGet _ _ _ Hnd) in Hin, Hin'. congruence.
Qed.

Lemma member_header (r : FamRecord) (x gedcomId : string) :
  In r records ->
  In x (spouses (fr_family r) +++ children (fr_family r)) ->
  mapGet (g_personIdMap g) x = Some gedcomId ->
  In (indiHeader gedcomId) emitted.
Proof.
  intros Hr Hx Hg.
  apply (header_stable data people options now connectable
           emitted final gedcomId).
  - unfold emitAll. cbn [fst snd]. apply spliceLinks_spliced.
  - now apply (member_record data people options now connectable r x).
Qed.

(** Every back-link stands under the INDI header of a member of the
    family it names. *)
Lemma owners_sound (owner line : string) :
  In (owner, line) (linkOwners "" final) ->
  exists r x gedcomId,
    In r records
    /\ mapGet (buildPersonIdMap people) x = Some gedcomId
    /\ owner = indiHeader gedcomId
    /\ ((line = "1 FAMC " ++ fr_id r /\ In x (children (fr_family r)))
        \/ (line = "1 FAMS " ++ fr_id r /\ In x (spouses (fr_family r)))).
Proof.
  intros H. apply final_owners in H.
  destruct (buildGraph_ok data people) as (_ & _ & Hpim & _).
  destruct H as [([child parents] & Hin & gid & key & famId & Hg & _ & Hk
                  & Hf & _ & _ & [= -> ->])
                | ([key family] & Hin & famId & spouse & Hf & _ & Hs & gid
                   & Hg & _ & _ & [= -> ->])];
    cbn [fst snd] in *;
    destruct (familyIdMap_get _ _ Hf) as (r & Hr & Hkey & Hid);
    exists r; [exists child | exists spouse]; exists gid;
    (split; [exact Hr|]); (split; [now rewrite <- Hpim|]);
    (split; [reflexivity|]); subst famId.
  - left. split; [reflexivity|].
    destruct (records_spec _ _ _ _ _ _ _ _ Hr) as (Hin' & _).
    apply (graph_children data people (fr_key r) (fr_family r) child Hin').
    exists parents. split; [exact Hin | now rewrite Hkey].
  - right. split; [reflexivity|].
    rewrite <- Hkey in Hin. now rewrite <- (record_family r family Hr Hin).
Qed.

(** Every member of a family that has a record gets the back-link under
    the INDI header. *)
Lemma owners_complete (r : FamRecord) (x : string) :
  In r records ->
  (In x (children (fr_family r)) ->
   exists gedcomId,
     mapGet (buildPersonIdMap people) x = Some gedcomId
     /\ In (indiHeader gedcomId, "1 FAMC " ++ fr_id r)
           (linkOwners "" final))
  /\ (In x (spouses (fr_family r)) ->
      exists gedcomId,
        mapGet (buildPersonIdMap people) x = Some gedcomId
        /\ In (indiHeader gedcomId, "1 FAMS " ++ fr_id r)
              (linkOwners "" final)).
Proof.
  intros Hr.
  destruct (buildGraph_ok data people) as (_ & _ & Hpim & _).
  destruct (records_spec _ _ _ _ _ _ _ _ Hr) as (Hin & _).
  destruct (familyIdMap_record r Hr) as [Hf He].
  split; intros Hx.
  - destruct (member_id data people (fr_key r) (fr_family r) x Hin)
      as (gid & Hg & Hne); [apply in_or_app; now right|].
    exists gid. split; [now rewrite <- Hpim|].
    apply final_owners. left.
    destruct (proj1 (graph_children data people (fr_key r) (fr_family r) x
                       Hin) Hx) as (parents & Hc & Hk).
    exists (x, parents). split; [exact Hc|].
    exists gid, (fr_key r), (fr_id r). cbn [fst snd].
    repeat split; auto.
    apply (member_header r x); auto. apply in_or_app. now right.
  - destruct (member_id data people (fr_key r) (fr_family r) x Hin)
      as (gid & Hg & Hne); [apply in_or_app; now left|].
    exists gid. split; [now rewrite <- Hpim|].
    apply final_owners. right.
    exists (fr_key r, fr_family r). split; [exact Hin|].
    exists (fr_id r), x. cbn [fst snd].
    split; [exact Hf|]. split; [exact He|]. split; [exact Hx|].
    exists gid. repeat split; auto.
    apply (member_header r x); auto. apply in_or_app. now left.
Qed.

End CrossReferences.

Lemma linkOwners_push (lines : list string) :
  linkOwners "" (push lines "0 TRLR") = linkOwners "" lines.
Proof.
  unfold push. rewrite linkOwners_app. cbn [linkOwners].
  replace (isBackLink "0 TRLR") with false by reflexivity.
  apply app_nil_r.
Qed.



(** ** The orphan toggle *)

Lemma allowOrphansOf_with (options : GedcomConversionOptions) (allow : bool) :
  allowOrphansOf (withAllowOrphans options allow) = allow.
Proof. destruct allow; reflexivity. Qed.

(** X24. Setting [allowOrphanFamilies] only adds records: a person whose
    block is pushed without it gets the same block with it, and a family
    that has a record without it has one with it, with the same lines
    below the header (the family identifier may differ). *)
Theorem orphan_toggle_superset (people : list EnhancedPerson)
  (options : GedcomConversionOptions) (g : Graph) (connectable : JsSet) :
  (forall p,
      personBlockOf (withAllowOrphans options false) g connectable p = []
      \/ personBlockOf (withAllowOrphans options true) g connectable p
         = personBlockOf (withAllowOrphans options false) g connectable p)
  /\ (forall r,
         In r (familyRecordsOf people (withAllowOrphans options false) g
                               connectable) ->
         exists r',
           In r' (familyRecordsOf people (withAllowOrphans options true) g
                                  connectable)
           /\ fr_key r' = fr_key r
           /\ fr_family r' = fr_family r
           /\ tl (fr_lines r') = tl (fr_lines r)).
Proof.
  split.
  - intros p. unfold personBlockOf, personBlock.
    rewrite !allowOrphansOf_with. cbn [withAllowOrphans includeLinks
      includeNotes environmentOf environment].
    destruct (mapGet (g_personIdMap g) (personId p)) as [gid|]; [|now left].
    destruct (Js.isEmpty gid); [now left|].
    destruct (isOrphanPerson false _ _ p); [now left | right].
    reflexivity.
  - intros r Hr. unfold familyRecordsOf in *.
    rewrite allowOrphansOf_with in *.
    destruct (records_spec _ _ _ _ _ _ _ _ Hr) as (Hin & Hskip & Hlines).
    assert (Ho : isOrphanFamily connectable (fr_family r) = false).
    { unfold familySkipped in Hskip.
      destruct (Nat.eqb _ 0); [discriminate Hskip|].
      destruct (Nat.eqb _ 1 && _); [discriminate Hskip|].
      now rewrite andb_true_r in Hskip. }
    assert (Hskip' : familySkipped true (g_personIdMap g) connectable
                       (fr_family r) = false).
    { unfold familySkipped in *.
      destruct (Nat.eqb _ 0); [discriminate Hskip|].
      destruct (Nat.eqb _ 1 && _); [discriminate Hskip|].
      now rewrite andb_false_r. }
    destruct (records_complete people true (g_personIdMap g)
                (g_allRelationships g) connectable (g_families g) 1
                (fr_key r) (fr_family r) Hin Hskip')
      as (r' & Hr' & Hk & Hf).
    exists r'. split; [exact Hr'|]. split; [exact Hk|]. split; [exact Hf|].
    destruct (records_spec _ _ _ _ _ _ _ _ Hr') as (_ & _ & Hlines').
    rewrite Hlines, Hlines', Hf. unfold famRecord. rewrite Ho. reflexivity.
Qed.

(** ** The clock *)

Section Clock.

Lemma lastChar_append (a b : string) (c : ascii) :
  Js.lastChar (a ++ String c b) = Js.lastChar (String c b).
Proof.
  induction a as [|x a IH]; [reflexivity|].
  change (String x a ++ String c b) with (String x (a ++ String c b)).
  cbn [Js.lastChar]. rewrite IH.
  destruct a; reflexivity.
Qed.

Lemma indiHeader_last (gedcomId : string) :
  Js.lastChar (indiHeader gedcomId) = Some "I"%char.
Proof.
  unfold indiHeader.
  rewrite <- JsFacts.append_assoc.
  change (("0 " ++ gedcomId) ++ " INDI")
    with (("0 " ++ gedcomId) ++ String " " "INDI").
  rewrite lastChar_append. reflexivity.
Qed.

Lemma headerLines_no_indi (name : string) (date : JsDate)
  (gedcomId : string) :
  Forall (fun l => String.eqb l (indiHeader gedcomId) = false)
         (headerLines name date).
Proof.
  assert (Hlast : forall l, Js.lastChar l <> Some "I"%char ->
                            String.eqb l (indiHeader gedcomId) = false).
  { intros l H. destruct (String.eqb l _) eqn:E; [|reflexivity].
    apply String.eqb_eq in E. subst l. elim H. apply indiHeader_last. }
  unfold headerLines.
  repeat (apply Forall_cons;
          [first [ vm_compute; reflexivity
                 | apply Hlast; vm_compute; discriminate ]|]).
  apply Forall_nil.
Qed.

Lemma findIndex_prefix {A : Type} (f : A -> bool) (a b : list A) :
  Forall (fun x => f x = false) a ->
  findIndex f (a +++ b)
  = option_map (Nat.add (List.length a)) (findIndex f b).
Proof.
  induction 1 as [|x a Hx _ IH]; cbn [app findIndex List.length].
  - now destruct (findIndex f b).
  - rewrite Hx, IH. now destruct (findIndex f b).
Qed.

Lemma splice_prefix {A : Type} (a b : list A) (k : nat) (x : A) :
  splice (List.length a + k) x (a +++ b) = a +++ splice k x b.
Proof.
  unfold splice. induction a as [|y a IH]; cbn [List.length Nat.add app];
    [reflexivity|].
  cbn [firstn skipn app]. now rewrite IH.
Qed.

Lemma skipn_prefix {A : Type} (a b : list A) (k : nat) :
  skipn (List.length a + k) (a +++ b) = skipn k b.
Proof.
  induction a as [|y a IH]; cbn [List.length Nat.add app skipn];
    [reflexivity | exact IH].
Qed.

Variable personIdMap : JsMap string.
Variable familyIdMap : JsMap string.
Variable head : list string.

Hypothesis head_no_indi :
  forall gedcomId,
    Forall (fun l => String.eqb l (indiHeader gedcomId) = false) head.

Lemma spliceFamc_prefix (tail : list string) (entry : string * list string) :
  spliceFamc personIdMap familyIdMap (head +++ tail) entry
  = head +++ spliceFamc personIdMap familyIdMap tail entry.
Proof.
  unfold spliceFamc.
  destruct (mapGet personIdMap (fst entry)) as [gid|]; [|reflexivity].
  destruct (Js.isEmpty gid); [reflexivity|].
  destruct (Js.truthy _); [|reflexivity].
  rewrite (findIndex_prefix _ head tail (head_no_indi gid)).
  destruct (findIndex _ tail) as [i|]; cbn [option_map]; [|reflexivity].
  rewrite <- Nat.add_assoc. apply splice_prefix.
Qed.

Lemma spliceFams_prefix (famId : string) (tail : list string)
  (spouseId : string) :
  spliceFams personIdMap famId (head +++ tail) spouseId
  = head +++ spliceFams personIdMap famId tail spouseId.
Proof.
  unfold spliceFams.
  destruct (mapGet personIdMap spouseId) as [gid|]; [|reflexivity].
  destruct (Js.isEmpty gid); [reflexivity|].
  rewrite (findIndex_prefix _ head tail (head_no_indi gid)).
  destruct (findIndex _ tail) as [i|]; cbn [option_map]; [|reflexivity].
  cbv zeta. rewrite <- !Nat.add_assoc, skipn_prefix. apply splice_prefix.
Qed.

Lemma fold_prefix {A : Type} (step : list string -> A -> list string)
  (entries : list A) (tail : list string) :
  (forall tail a, step (head +++ tail) a = head +++ step tail a) ->
  fold_left step entries (head +++ tail)
  = head +++ fold_left step entries tail.
Proof.
  intros H. revert tail. induction entries as [|a rest IH]; intros tail;
    cbn [fold_left]; [reflexivity|].
  now rewrite H, IH.
Qed.

Lemma spliceLinks_prefix (g : Graph) (tail : list string) :
  g_personIdMap g = personIdMap ->
  spliceLinks g familyIdMap (head +++ tail)
  = head +++ spliceLinks g familyIdMap tail.
Proof.
  intros Hp. unfold spliceLinks. rewrite Hp.
  rewrite (fold_prefix (spliceFamc personIdMap familyIdMap))
    by (intros; apply spliceFamc_prefix).
  apply fold_prefix. intros tail' entry. unfold addFams.
  destruct (mapGet familyIdMap (fst entry)) as [famId|]; [|reflexivity].
  destruct (Js.isEmpty famId); [reflexivity|].
  apply fold_prefix. intros. apply spliceFams_prefix.
Qed.

End Clock.


(** ** Tags that occur once *)

Section Tags.

Local Abbreviation Untagged :=
  (Forall (fun l => startsWithAny untaggedPrefixes l = true)).

Lemma avoids_spec (prefixes : list string) (pattern line : string) :
  avoids prefixes pattern = true -> startsWithAny prefixes line = true ->
  Js.startsWith line pattern = false.
Proof.
  intros Ha Hl. apply existsb_exists in Hl as (p & Hp & Hl).
  destruct (JsFacts.startsWith_spec _ _ Hl) as [r ->].
  unfold avoids in Ha. rewrite forallb_forall in Ha.
  specialize (Ha p Hp). apply andb_true_iff in Ha as [H1 H2].
  apply negb_true_iff in H1, H2.
  now apply startsWith_append_false.
Qed.

Lemma untagged_line (p rest : string) :
  startsWithAny untaggedPrefixes p = true ->
  startsWithAny untaggedPrefixes (p ++ rest) = true.
Proof.
  intros H. apply existsb_exists in H as (q & Hq & E).
  apply existsb_exists. exists q. split; [exact Hq|].
  now apply JsFacts.startsWith_app.
Qed.

Lemma untagged_tag (tag : string) :
  In tag gedcomTags -> startsWithAny untaggedPrefixes ("1 " ++ tag) = true.
Proof.
  intros H. apply existsb_exists. exists ("1 " ++ tag). split.
  - apply in_or_app. right. apply in_or_app. right.
    exact (in_map (fun t => "1 " ++ t) gedcomTags tag H).
  - apply JsFacts.startsWith_refl.
Qed.

Ltac untagged := apply untagged_line; vm_compute; reflexivity.

Lemma convertFactToGedcom_untagged (fact : PersonFact) :
  Untagged (convertFactToGedcom fact).
Proof.
  unfold convertFactToGedcom.
  destruct (fact_type fact) as [type|]; [|constructor].
  destruct (Js.isEmpty type); [constructor|].
  split_blocks; try untagged.
  match goal with
  | |- Forall _ (if ?c then _ else _) => destruct c
  end; split_blocks.
  - untagged.
  - apply untagged_tag, gedcomTag_in.
Qed.

Lemma addMarriageFacts_untagged (allRelationships : list Relationship)
  (a b : string) : Untagged (addMarriageFacts allRelationships a b).
Proof.
  unfold addMarriageFacts. destruct (find _ _); [|constructor].
  apply Forall_flat_map. intros. apply convertFactToGedcom_untagged.
Qed.

Lemma idLine_untagged (tag : string) (id : option string) :
  startsWithAny untaggedPrefixes tag = true -> Untagged (idLine tag id).
Proof. intros H. apply Forall_pushIf. now apply untagged_line. Qed.

Lemma untagged_count (pattern : string) (block : list string) :
  avoids untaggedPrefixes pattern = true -> Untagged block ->
  countLines (fun l => Js.startsWith l pattern) block = 0.
Proof.
  intros Ha H. apply countLines_none.
  eapply Forall_impl; [|exact H]. intros l. now apply avoids_spec.
Qed.

Lemma vitalLines_count (pattern tag : string) (fact : option FactSummary) :
  avoids untaggedPrefixes pattern = true ->
  countLines (fun l => Js.startsWith l pattern) (vitalLines tag fact)
  = match fact with
    | Some _ => if Js.startsWith tag pattern then 1 else 0
    | None => 0
    end.
Proof.
  intros Ha. unfold vitalLines. destruct fact as [f|]; [|reflexivity].
  rewrite !countLines_app.
  rewrite (untagged_count pattern (pushIf _ ("2 DATE " ++ _)) Ha),
    (untagged_count pattern (pushIf _ ("2 PLAC " ++ _)) Ha);
    try (apply Forall_pushIf; untagged).
  unfold countLines. cbn [filter].
  destruct (Js.startsWith tag pattern); reflexivity.
Qed.

Variables includeLinks includeNotes : bool.
Variable env : Environment.
Variable sourceMap : JsMap SourceDescription.

(** The lines of an INDI record that start with [pattern] are among the
    BIRT and DEAT tag lines. *)
Lemma indiRecord_count (pattern gedcomId : string) (person : EnhancedPerson) :
  avoids untaggedPrefixes pattern = true ->
  countLines (fun l => Js.startsWith l pattern)
             (indiRecord includeLinks includeNotes env sourceMap gedcomId
                         person)
  = match extractFact (Some (personData person)) BIRTH with
    | Some _ => if Js.startsWith "1 BIRT" pattern then 1 else 0
    | None => 0
    end
    + match extractFact (Some (personData person)) DEATH with
      | Some _ => if Js.startsWith "1 DEAT" pattern then 1 else 0
      | None => 0
      end.
Proof.
  intros Ha. unfold indiRecord. cbv zeta.
  rewrite !countLines_app, !(vitalLines_count pattern _ _ Ha).
  rewrite (untagged_count pattern [indiHeader gedcomId] Ha)
    by (constructor; [untagged | constructor]).
  rewrite (untagged_count pattern (pushIf _ ("1 _FS_ID " ++ _)) Ha)
    by (apply Forall_pushIf; untagged).
  rewrite (untagged_count pattern (linkLines _ _ _) Ha).
  2:{ unfold linkLines. destruct includeLinks; [|constructor].
      destruct (Js.truthy _);
        [constructor; [untagged | constructor]
        | apply Forall_pushIf; untagged]. }
  rewrite (untagged_count pattern (idLine "1 NAME " _) Ha)
    by (apply idLine_untagged; vm_compute; reflexivity).
  rewrite (untagged_count pattern (idLine "1 SEX " _) Ha)
    by (apply idLine_untagged; vm_compute; reflexivity).
  rewrite (untagged_count pattern (flat_map otherFactLines _) Ha).
  2:{ apply Forall_flat_map. intros fact _. unfold otherFactLines.
      destruct (_ && _); [apply convertFactToGedcom_untagged | constructor]. }
  rewrite (untagged_count pattern (noteLines _ _) Ha).
  2:{ unfold noteLines. destruct includeNotes; [|constructor].
      apply Forall_flat_map. intros. apply Forall_pushIf. untagged. }
  rewrite (untagged_count pattern (flat_map (citationLines _) _) Ha).
  2:{ apply Forall_flat_map. intros ref _. unfold citationLines.
      destruct (descriptionId ref) as [d|]; [|constructor].
      destruct (Js.isEmpty d); [constructor|].
      destruct (indexOf _ d); [|constructor].
      constructor; [untagged|].
      unfold qualifierLines. apply Forall_flat_map. intros.
      apply Forall_pushIf. untagged. }
  lia.
Qed.

End Tags.

(** X26. An INDI record has at most one BIRT and at most one DEAT line:
    one exactly when [extractFact] finds a date or a place for the event;
    further birth and death facts of the person are not written. *)
Theorem vital_tags_once (includeLinks includeNotes : bool)
  (env : Environment) (sourceMap : JsMap SourceDescription)
  (gedcomId : string) (person : EnhancedPerson) :
  countLines (fun l => Js.startsWith l "1 BIRT")
             (indiRecord includeLinks includeNotes env sourceMap gedcomId
                         person)
  = match extractFact (Some (personData person)) BIRTH with
    | Some _ => 1
    | None => 0
    end
  /\ countLines (fun l => Js.startsWith l "1 DEAT")
                (indiRecord includeLinks includeNotes env sourceMap gedcomId
                            person)
     = match extractFact (Some (personData person)) DEATH with
       | Some _ => 1
       | None => 0
       end.
Proof.
  split; rewrite indiRecord_count by (vm_compute; reflexivity).
  - destruct (extractFact _ BIRTH), (extractFact _ DEATH); reflexivity.
  - destruct (extractFact _ BIRTH), (extractFact _ DEATH); reflexivity.
Qed.

(** X27. The orphan tag: the record of a family carries the line
    [1 _IS_ORPHAN_FAMILY Y], once and right below the header, exactly
    when no spouse and no child of the family is connectable; such a
    record exists only with [allowOrphanFamilies]. *)
Theorem orphan_tag (data : EnhancedPedigreeData)
  (people : list EnhancedPerson) (options : GedcomConversionOptions)
  (connectable : JsSet) (r : FamRecord) :
  In r (familyRecordsOf people options (buildGraph data people)
                        connectable) ->
  (countLines (fun l => Js.startsWith l "1 _IS_ORPHAN_FAMILY")
              (fr_lines r)
   = if isOrphanFamily connectable (fr_family r) then 1 else 0)
  /\ (isOrphanFamily connectable (fr_family r) = true ->
      allowOrphansOf options = true
      /\ nth_error (fr_lines r) 1 = Some "1 _IS_ORPHAN_FAMILY Y")
  /\ (isOrphanFamily connectable (fr_family r) = true
      <-> forall x,
            In x (spouses (fr_family r) +++ children (fr_family r)) ->
            ~ In x connectable).
Proof.
  intros Hr.
  destruct (records_spec _ _ _ _ _ _ _ _ Hr) as (Hin & Hskip & Hlines).
  assert (Hallow : isOrphanFamily connectable (fr_family r) = true ->
                   allowOrphansOf options = true).
  { intros Ho. unfold familySkipped in Hskip. rewrite Ho in Hskip.
    destruct (Nat.eqb _ 0); [discriminate Hskip|].
    destruct (Nat.eqb _ 1 && _); [discriminate Hskip|].
    now destruct (allowOrphansOf options). }
  assert (Ha : avoids untaggedPrefixes "1 _IS_ORPHAN_FAMILY" = true)
    by (vm_compute; reflexivity).
  split; [|split; [|apply isOrphanFamily_spec]].
  - rewrite Hlines. unfold famRecord. rewrite !countLines_app.
    rewrite (untagged_count _ [famHeader (fr_id r)] Ha)
      by (constructor; [apply untagged_line; vm_compute; reflexivity
                       | constructor]).
    rewrite (untagged_count _ (spouseLines _ _ _ _) Ha).
    2:{ destruct (spouseLines_shape data people (fr_key r) (fr_family r) Hin)
          as [(s & id & _ & _ & ->) | (s1 & s2 & id1 & id2 & _ & _ & _ & ->)].
        - destruct (optEqb _ _);
            (constructor; [apply untagged_line; vm_compute; reflexivity
                          | constructor]).
        - apply Forall_app. split; [|apply addMarriageFacts_untagged].
          destruct (_ || _);
            repeat (constructor;
                    [apply untagged_line; vm_compute; reflexivity|]);
            constructor. }
    rewrite (untagged_count _ (childLines _ _) Ha).
    2:{ unfold childLines. apply Forall_flat_map. intros.
        apply idLine_untagged. vm_compute; reflexivity. }
    destruct (isOrphanFamily connectable (fr_family r)) eqn:Ho.
    + rewrite (Hallow eq_refl). reflexivity.
    + reflexivity.
  - intros Ho. split; [now apply Hallow|].
    rewrite Hlines. unfold famRecord. rewrite Ho, (Hallow Ho). reflexivity.
Qed.

Lemma orphan_tag_witness :
  exists r,
    In r (familyRecordsOf Sample.scenarioBPeople
            (Sample.options (Some ["P1"]) true)
            (buildGraph Sample.scenarioB Sample.scenarioBPeople)
            ["P1"; "P2"; "P3"])
    /\ fr_key r = "P4-P5"
    /\ countLines (fun l => Js.startsWith l "1 _IS_ORPHAN_FAMILY")
                  (fr_lines r) = 1.
Proof.
  exists {| fr_key := "P4-P5"; fr_id := "@F2@";
            fr_family := {| spouses := ["P4"; "P5"]; children := [] |};
            fr_lines := ["0 @F2@ FAM"; "1 _IS_ORPHAN_FAMILY Y";
                         "1 HUSB @I2@"; "1 WIFE @I1@"] |}.
  assert (Hin : In {| fr_key := "P4-P5"; fr_id := "@F2@";
                      fr_family := {| spouses := ["P4"; "P5"];
                                      children := [] |};
                      fr_lines := ["0 @F2@ FAM"; "1 _IS_ORPHAN_FAMILY Y";
                                   "1 HUSB @I2@"; "1 WIFE @I1@"] |}
                   (familyRecordsOf Sample.scenarioBPeople
                      (Sample.options (Some ["P1"]) true)
                      (buildGraph Sample.scenarioB Sample.scenarioBPeople)
                      ["P1"; "P2"; "P3"]))
    by (vm_compute; auto).
  split; [exact Hin|]. split; [reflexivity|].
  exact (proj1 (orphan_tag Sample.scenarioB Sample.scenarioBPeople
                  (Sample.options (Some ["P1"]) true) ["P1"; "P2"; "P3"]
                  _ Hin)).
Defined.

(** ** NAME and SEX *)

Lemma trimStart_slash (s : string) :
  Js.isEmpty (Js.trimStart (s ++ "/")) = false.
Proof.
  unfold Js.trimStart. induction s as [|c s IH]; [reflexivity|].
  change (String c s ++ "/") with (String c (s ++ "/")).
  cbn [Js.dropWhile]. destruct (Js.isSpace c); [exact IH | reflexivity].
Qed.

Lemma truthy_some (o : option string) :
  Js.truthy o = true -> exists s, o = Some s /\ Js.isEmpty s = false.
Proof.
  destruct o as [s|]; [|discriminate]. cbn [Js.truthy].
  intros H. exists s. split; [reflexivity|]. now apply negb_true_iff.
Qed.

Lemma extractName_not_empty (person : option PersonData) (name : string) :
  extractName person = Some name -> Js.isEmpty name = false.
Proof.
  unfold extractName. destruct person as [person|]; [|discriminate].
  cbv zeta.
  assert (Hd : forall o : option string,
             (if Js.truthy o then o else None) = Some name ->
             Js.isEmpty name = false).
  { intros o H. destruct (Js.truthy o) eqn:E; [|discriminate H].
    destruct (truthy_some o E) as (s & -> & Hs). now injection H as <-. }
  destruct (first (opt (first (names person)) nameForms)) as [nameForm|];
    [|apply Hd].
  destruct (negb (Js.isEmpty (partValue "Given" (orEmpty (parts nameForm))))
            || negb (Js.isEmpty (partValue "Surname"
                                           (orEmpty (parts nameForm))))).
  - intros H. injection H as <-.
    match goal with
    | |- Js.isEmpty
           (Js.trimStart (?a ++ String " " (String "/" (?c ++ "/"))))
         = false =>
        change (Js.isEmpty (Js.trimStart (a ++ (" /" ++ c) ++ "/")) = false)
    end.
    rewrite <- JsFacts.append_assoc. apply trimStart_slash.
  - destruct (Js.truthy (fullText nameForm)) eqn:E; [|apply Hd].
    intros H. destruct (truthy_some _ E) as (s & Hs & Hne).
    rewrite Hs in H. now injection H as <-.
Qed.

(** X28. The NAME and SEX lines of a person: a name that [extractName]
    returns is never empty, so it is always written; and the SEX line,
    when there is one, is [1 SEX M] or [1 SEX F]. *)
Theorem name_and_sex_lines (person : option PersonData) :
  idLine "1 NAME " (extractName person)
  = match extractName person with
    | Some name => ["1 NAME " ++ name]
    | None => []
    end
  /\ In (idLine "1 SEX " (extractGender person))
        [[]; ["1 SEX M"]; ["1 SEX F"]].
Proof.
  split.
  - destruct (extractName person) as [name|] eqn:E; [|reflexivity].
    apply idLine_some. exact (extractName_not_empty _ _ E).
  - unfold extractGender. destruct person as [person|];
      [|left; reflexivity].
    cbv zeta.
    destruct (optIncludes _ "Male"); [right; left; reflexivity|].
    destruct (optIncludes _ "Female"); [right; right; left; reflexivity|].
    destruct (optEqb _ "Male"); [right; left; reflexivity|].
    destruct (optEqb _ "Female"); [right; right; left; reflexivity|].
    left; reflexivity.
Qed.
